(** * Waveform audio visualizer: the capture hand-off, the loudness
      estimator, the colour classifier and the waveform projector of
      [waveform.py], embedded and verified.

    Layout: the embedding of the program comes first (one module per
    component of the source), the theory about it second. *)

From Stdlib Require Import ZArith List Bool Lia String.
From Stdlib Require Uint63.
From Stdlib Require Import Floats Reals Lra.
Import ListNotations.

(* ================================================================== *)
(** * Part I. The embedding                                            *)
(* ================================================================== *)

(** ** The capture hand-off: [audio_q], [new_data_available],
       [audio_callback] and the "Get Audio Data" block of the main loop.

    The module globals that the callback thread and the render loop share
    are one record that every operation threads through.  A callback and a
    pass through the "Get Audio Data" block are each one atomic step of a
    history; the finer interleavings of the two threads are not part of
    this model. *)
Module Bridge.

Section Globals.

(** A sample, and the loudness value [calculate_rms_dbfs] returns.  The
    hand-off never looks inside either, so both stay abstract here, and the
    estimator is the function the render loop calls on the chunk it took. *)
Variables sample level : Type.
Variable calculate_rms_dbfs : list sample -> level.

(** One captured block, [indata[:, 0].copy()]: the first channel only. *)
Definition chunk : Type := list sample.

(** A row of the frames-by-channels array [indata]: the stream is opened
    with at least one channel, so a row is its first sample and the rest. *)
Definition frame : Type := (sample * list sample)%type.

Record globals : Type := mkGlobals {
  audio_q : list chunk;            (* queue.Queue(): oldest chunk first *)
  latest_data_chunk : chunk;
  last_rms_dbfs : level;
  new_data_available : bool;
  stderr : list string             (* what the callback printed *)
}.

(** [indata[:, 0].copy()] *)
Definition first_channel (indata : list frame) : chunk := map fst indata.

(** [audio_callback(indata, frames, time_info, status)]: [status] is truthy
    when the driver flagged the block; [frames] and [time_info] are unused. *)
Definition audio_callback (indata : list frame) (status : option string)
    (g : globals) : globals :=
  let err := match status with
             | Some s => stderr g ++ [s]
             | None => stderr g
             end in
  {| audio_q := audio_q g ++ [first_channel indata];
     latest_data_chunk := latest_data_chunk g;
     last_rms_dbfs := last_rms_dbfs g;
     new_data_available := true;
     stderr := err |}.

(** [while not audio_q.empty(): latest_data_chunk = audio_q.get_nowait()]:
    every pass removes the oldest chunk and keeps it; the loop ends on the
    empty queue with the chunk removed last, or with the chunk held before
    when there was nothing to remove. *)
Fixpoint drain (q : list chunk) (latest : chunk) : list chunk * chunk :=
  match q with
  | [] => ([], latest)
  | c :: q' => drain q' c
  end.

(** The "Get Audio Data" block of one main-loop iteration. *)
Definition get_audio_data (g : globals) : globals :=
  if new_data_available g then
    let '(q, latest) := drain (audio_q g) (latest_data_chunk g) in
    {| audio_q := q;
       latest_data_chunk := latest;
       last_rms_dbfs := calculate_rms_dbfs latest;
       new_data_available := false;
       stderr := stderr g |}
  else g.

(** The newest chunk of a queue, if it holds one. *)
Definition newest (q : list chunk) : option chunk := last (map Some q) None.

(** What a poll hands to the render loop: the newest queued chunk when the
    flag is up, nothing ("no new data") otherwise; and the globals after
    the block has run. *)
Definition consumeLatest (g : globals) : option chunk * globals :=
  ((if new_data_available g then newest (audio_q g) else None),
   get_audio_data g).

(** The globals at start-up: [np.zeros(CHUNK_SIZE)], [-np.inf], [False]. *)
Variable zeros : chunk.
Variable neg_inf : level.

Definition startup : globals :=
  {| audio_q := [];
     latest_data_chunk := zeros;
     last_rms_dbfs := neg_inf;
     new_data_available := false;
     stderr := [] |}.

(** Histories: the operations of the two sides in the order they happen. *)
Inductive op : Type :=
| submit (indata : list frame) (status : option string)
| consume.

Definition step (g : globals) (o : op) : globals :=
  match o with
  | submit indata status => audio_callback indata status g
  | consume => get_audio_data g
  end.

Definition run (ops : list op) (g : globals) : globals := fold_left step ops g.

(** The chunks submitted after the last [consume] of a history. *)
Fixpoint pending_after (acc : list chunk) (ops : list op) : list chunk :=
  match ops with
  | [] => acc
  | submit indata _ :: ops' => pending_after (acc ++ [first_channel indata]) ops'
  | consume :: ops' => pending_after [] ops'
  end.

Definition unconsumed (ops : list op) : list chunk := pending_after [] ops.

(** The state machine of the hand-off as the render loop can observe it:
    [Idle], or [Pending b] with [b] the chunk the next poll would take. *)
Inductive bridge_state : Type :=
| Idle
| Pending (b : chunk).

Definition observe (g : globals) : bridge_state :=
  if new_data_available g then
    match newest (audio_q g) with
    | Some b => Pending b
    | None => Idle
    end
  else Idle.

(** The invariant of the hand-off: the flag is up exactly when a chunk is
    queued. *)
Definition coherent (g : globals) : Prop :=
  new_data_available g = negb (Nat.eqb (List.length (audio_q g)) 0).

End Globals.

Arguments mkGlobals {sample level}.
Arguments audio_q {sample level}.
Arguments latest_data_chunk {sample level}.
Arguments last_rms_dbfs {sample level}.
Arguments new_data_available {sample level}.
Arguments stderr {sample level}.
Arguments first_channel {sample}.
Arguments audio_callback {sample level}.
Arguments drain {sample}.
Arguments newest {sample}.
Arguments get_audio_data {sample level}.
Arguments consumeLatest {sample level}.
Arguments startup {sample level}.
Arguments submit {sample}.
Arguments consume {sample}.
Arguments step {sample level}.
Arguments run {sample level}.
Arguments pending_after {sample}.
Arguments unconsumed {sample}.
Arguments Idle {sample}.
Arguments Pending {sample}.
Arguments observe {sample level}.
Arguments coherent {sample level}.

End Bridge.

(** ** Python values the numeric code works on. *)
Module Py.

(** The exceptions the modelled code can raise. *)
Inductive exn : Type :=
| IndexError       (* a list index out of range *)
| ValueError       (* int(nan) *)
| OverflowError.   (* int(inf), int(-inf) *)

Inductive result (A : Type) : Type :=
| Ok (a : A)
| Raise (e : exn).

Arguments Ok {A}.
Arguments Raise {A}.

Definition bind {A B : Type} (r : result A) (k : A -> result B) : result B :=
  match r with
  | Ok a => k a
  | Raise e => Raise e
  end.

Notation "x <- r ;; k" := (bind r (fun x => k))
  (at level 61, r at next level, right associativity).

(** [l[i]] on a list. *)
Definition index {A : Type} (l : list A) (i : nat) : result A :=
  match nth_error l i with
  | Some a => Ok a
  | None => Raise IndexError
  end.

(** A Python [float] is a binary64 value: Rocq's primitive [float].  Every
    [numpy.float32] is one of them too, and comparing it with a Python
    number compares the values. *)

(** [float(z)] of a Python [int].  Exact for [|z| <= 2^53], which is the
    range every theorem below stays in. *)
Definition float_of_Z (z : Z) : float :=
  match z with
  | Z0 => 0%float
  | Zpos _ => of_uint63 (Uint63.of_Z z)
  | Zneg _ => (- of_uint63 (Uint63.of_Z (- z)))%float
  end.

(** [int(f)] of a float: truncation toward zero; [ValueError] on NaN and
    [OverflowError] on the infinities. *)
Definition int_of_float (f : float) : result Z :=
  match Prim2SF f with
  | S754_nan => Raise ValueError
  | S754_infinity _ => Raise OverflowError
  | S754_zero _ => Ok 0%Z
  | S754_finite s m e => Ok (cond_Zopp s (Z.shiftl (Zpos m) e))
  end.

(** A number that is an [int] or a [float], with the three operations the
    projector applies to one. *)
Inductive num : Type :=
| Int (z : Z)
| Float (f : float).

Definition to_float (n : num) : float :=
  match n with
  | Int z => float_of_Z z
  | Float f => f
  end.

(** [a * b]: exact on two ints, a binary64 product otherwise. *)
Definition mul (a b : num) : num :=
  match a, b with
  | Int x, Int y => Int (x * y)
  | _, _ => Float (to_float a * to_float b)%float
  end.

(** [a / b] on two ints with [b <> 0]: true division, a float.  Operands
    within [2^53] are floats exactly, and the quotient is then the binary64
    quotient of the two. *)
Definition truediv (a b : Z) : float := (float_of_Z a / float_of_Z b)%float.

(** [int(n)] *)
Definition int (n : num) : result Z :=
  match n with
  | Int z => Ok z
  | Float f => int_of_float f
  end.

(** The builtins [min(a, b)] and [max(a, b)]: the first argument stays
    unless the second compares strictly below (above) it. *)
Definition min (a b : float) : float := if (b <? a)%float then b else a.
Definition max (a b : float) : float := if (a <? b)%float then b else a.

End Py.

(** ** The colour classifier: [COLOR_THRESHOLDS_DB], [COLOR_PALETTE] and
       [get_waveform_color]. *)
Module Classifier.
Import Py.

Definition color : Type := (Z * Z * Z)%type.

Definition White : color := (255, 255, 255)%Z.
Definition Yellow : color := (255, 255, 0)%Z.
Definition Orange : color := (255, 165, 0)%Z.
Definition Red : color := (255, 0, 0)%Z.

Definition COLOR_THRESHOLDS_DB : list float := [(-45)%float; (-30)%float; (-15)%float].
Definition COLOR_PALETTE : list color := [White; Yellow; Orange; Red].

(** [get_waveform_color] with the two configuration lists made explicit.
    The subscript is evaluated before the comparison and only on the
    branches that reach it, as in the source. *)
Definition get_waveform_color_with {A : Type}
    (thresholds : list float) (palette : list A) (rms_dbfs : float) : result A :=
  t0 <- index thresholds 0 ;;
  if (rms_dbfs <? t0)%float then index palette 0
  else
    t1 <- index thresholds 1 ;;
    if (rms_dbfs <? t1)%float then index palette 1
    else
      t2 <- index thresholds 2 ;;
      if (rms_dbfs <? t2)%float then index palette 2
      else index palette 3.

Definition get_waveform_color (rms_dbfs : float) : result color :=
  get_waveform_color_with COLOR_THRESHOLDS_DB COLOR_PALETTE rms_dbfs.

(** The tier a level falls in: the position in the palette of the colour
    returned, read off by running the classifier on the palette of
    positions. *)
Definition tier_with (thresholds : list float) (rms_dbfs : float) : result nat :=
  get_waveform_color_with thresholds [0; 1; 2; 3]%nat rms_dbfs.

Definition tier (rms_dbfs : float) : result nat :=
  tier_with COLOR_THRESHOLDS_DB rms_dbfs.

End Classifier.

(** ** The waveform projector: [generate_waveform_points]. *)
Module Projector.
Import Py.

Definition point : Type := (Z * Z)%type.

(** The body of [for i, amplitude in enumerate(data_chunk)], from index [i]
    on, appending to [points].  A sample is taken as a binary64 value
    (every [float32] is one) and the product and the difference as the
    binary64 operations, which is what Python computes on [float]s and
    what numpy's scalar promotion gives for a [float32] times a Python
    [float] before numpy 2. *)
Fixpoint points_loop (x_scale : num) (center_y max_amplitude : float)
    (i : Z) (data_chunk : list float) (points : list point) : result (list point) :=
  match data_chunk with
  | [] => Ok points
  | amplitude :: rest =>
      let clamped_amplitude := max (-1)%float (min 1%float amplitude) in
      x <- int (mul (Int i) x_scale) ;;
      y <- int (Float (center_y - clamped_amplitude * max_amplitude)%float) ;;
      points_loop x_scale center_y max_amplitude (i + 1) rest (points ++ [(x, y)])
  end.

Definition generate_waveform_points (data_chunk : list float) (width height : Z)
    : result (list point) :=
  let num_samples := Z.of_nat (List.length data_chunk) in
  if (num_samples =? 0)%Z then Ok []
  else
    let max_amplitude := truediv height 2 in
    let center_y := truediv height 2 in
    let x_scale :=
      if (1 <? num_samples)%Z then Float (truediv width (num_samples - 1))
      else Int width in
    points <- points_loop x_scale center_y max_amplitude 0 data_chunk [] ;;
    match points with
    | [p] => Ok (points ++ [p])
    | _ => Ok points
    end.

(** The point the source computes for sample [amplitude] at index [i] of a
    chunk of [n > 1] samples, written once for the statements below. *)
Definition x_at (width n i : Z) : result Z :=
  int (mul (Int i) (Float (truediv width (n - 1)))).

Definition y_at (height : Z) (amplitude : float) : result Z :=
  int (Float (truediv height 2
              - max (-1)%float (min 1%float amplitude) * truediv height 2)%float).

End Projector.

(** ** The loudness estimator: [calculate_rms_dbfs].

    [np.mean], [np.sqrt] and [np.log10] have no bit-exact executable
    counterpart (their rounding on [float32] arrays is numpy's and libm's),
    so this component is embedded over the values the floats stand for: a
    real number, an infinity or NaN, with the special values handled as
    IEEE 754 and numpy handle them and finite results left unrounded. *)
Module Loudness.
Local Open Scope R_scope.

Inductive value : Type :=
| NaN
| NegInf
| Fin (r : R)
| PosInf.

(** The value a binary64 number stands for. *)
Definition of_float (f : float) : value :=
  match Prim2SF f with
  | S754_nan => NaN
  | S754_infinity s => if s then NegInf else PosInf
  | S754_zero _ => Fin 0
  | S754_finite s m e => Fin (IZR (cond_Zopp s (Zpos m)) * powerRZ 2 e)
  end.

(** [x ** 2] *)
Definition square (x : value) : value :=
  match x with
  | NaN => NaN
  | NegInf | PosInf => PosInf
  | Fin r => Fin (r * r)
  end.

(** [x + y] *)
Definition add (x y : value) : value :=
  match x, y with
  | NaN, _ | _, NaN => NaN
  | PosInf, NegInf | NegInf, PosInf => NaN
  | PosInf, _ | _, PosInf => PosInf
  | NegInf, _ | _, NegInf => NegInf
  | Fin a, Fin b => Fin (a + b)
  end.

(** [x * y] *)
Definition mul (x y : value) : value :=
  let signed (inf : value) (r : R) : value :=
    if Rlt_dec 0 r then inf
    else if Rlt_dec r 0 then
      match inf with PosInf => NegInf | NegInf => PosInf | v => v end
    else NaN in
  match x, y with
  | NaN, _ | _, NaN => NaN
  | Fin a, Fin b => Fin (a * b)
  | PosInf, PosInf | NegInf, NegInf => PosInf
  | PosInf, NegInf | NegInf, PosInf => NegInf
  | PosInf, Fin r | Fin r, PosInf => signed PosInf r
  | NegInf, Fin r | Fin r, NegInf => signed NegInf r
  end.

(** [np.mean(a)]: the sum of the elements over their count; NaN (0/0) on
    the empty array. *)
Definition np_mean (a : list value) : value :=
  match a with
  | [] => NaN
  | _ =>
      match fold_left add a (Fin 0) with
      | Fin s => Fin (s / INR (List.length a))
      | v => v
      end
  end.

(** [np.sqrt(x)] *)
Definition np_sqrt (x : value) : value :=
  match x with
  | NaN | NegInf => NaN
  | PosInf => PosInf
  | Fin r => if Rlt_dec r 0 then NaN else Fin (sqrt r)
  end.

(** [np.log10(x)]: NaN below zero (the domain error), minus infinity at
    zero. *)
Definition np_log10 (x : value) : value :=
  match x with
  | NaN | NegInf => NaN
  | PosInf => PosInf
  | Fin r =>
      if Rlt_dec 0 r then Fin (ln r / ln 10)
      else if Rlt_dec r 0 then NaN
      else NegInf
  end.

Definition epsilon : R := 1e-10.

Definition calculate_rms_dbfs (data_chunk : list value) : value :=
  let rms_linear := np_sqrt (np_mean (map square data_chunk)) in
  let rms_dbfs := mul (Fin 20) (np_log10 (add rms_linear (Fin epsilon))) in
  rms_dbfs.

(** The level as the specification writes it, on real samples:
    [20 * log10(rms + epsilon)] with [rms] the root of the mean square. *)
Definition log10 (x : R) : R := ln x / ln 10.

Definition sum_of_squares (samples : list R) : R :=
  fold_right (fun a acc => a * a + acc) 0 samples.

Definition rms (samples : list R) : R :=
  sqrt (sum_of_squares samples / INR (List.length samples)).

Definition reference_level (samples : list R) : R :=
  20 * log10 (rms samples + epsilon).

End Loudness.

(** ** The vocabulary of the theory: what a binary64 number is worth, and
       what rounding does. *)
Module Values.
Local Open Scope R_scope.

(** Powers of two with an integer exponent. *)
Definition bpow (e : Z) : R := powerRZ 2 e.

(** Where a real lies between an integer and its successor. *)
Definition inbetween (x : R) (m : Z) (l : location) : Prop :=
  match l with
  | loc_Exact => x = IZR m
  | loc_Inexact Lt => IZR m < x < IZR m + / 2
  | loc_Inexact Eq => x = IZR m + / 2
  | loc_Inexact Gt => IZR m + / 2 < x < IZR m + 1
  end.

(** What [binary_round_aux] returns for an integer [k] on the grid [g]. *)
Definition encode (s : bool) (k g : Z) : spec_float :=
  if (k =? 0)%Z then S754_zero s
  else if (k <? 2 ^ 53)%Z then
    if (g <=? 971)%Z then S754_finite s (Z.to_pos k) g else S754_infinity s
  else
    if (g + 1 <=? 971)%Z then S754_finite s (Z.to_pos (2 ^ 52)) (g + 1)
    else S754_infinity s.

(** The magnitude, the sign and the value of a [spec_float]. *)
Definition mag (f : spec_float) : R :=
  match f with
  | S754_finite _ m e => IZR (Zpos m) * bpow e
  | _ => 0
  end.

Definition sign_of (f : spec_float) : bool :=
  match f with
  | S754_finite s _ _ | S754_zero s | S754_infinity s => s
  | S754_nan => false
  end.

Definition B2R (f : spec_float) : R :=
  if sign_of f then - mag f else mag f.

Definition finite_SF (f : spec_float) : bool :=
  match f with
  | S754_finite _ _ _ | S754_zero _ => true
  | _ => false
  end.

(** [r] is magnitude [v] rounded to binary64 with sign [s], and [rv] the
    magnitude it goes to: [rv] is the magnitude of [r] whenever it is
    below [2^1024]; it stays on the same side of every valid finite number
    as [v]; and it is within half a unit in the last place of [v] in the
    normal range. *)
Definition rounds_to (r : spec_float) (s : bool) (v rv : R) : Prop :=
  0 <= rv
  /\ (rv < bpow 1024 ->
      finite_SF r = true /\ mag r = rv
      /\ (r = S754_zero s \/ exists m' e', r = S754_finite s m' e'))
  /\ (forall b : spec_float,
        valid_binary b = true -> v <= mag b -> rv <= mag b)
  /\ (forall b : spec_float,
        valid_binary b = true -> mag b <= v -> mag b <= rv)
  /\ (bpow (-1022) <= v -> Rabs (rv - v) <= v * bpow (-53)).

(** The value of a primitive float. *)
Definition F2R (f : float) : R := B2R (Prim2SF f).

(** [f] is zero or finite, not negative, and worth [v]. *)
Definition nonneg_value (f : float) (v : R) : Prop :=
  finite_SF (Prim2SF f) = true /\ sign_of (Prim2SF f) = false
  /\ mag (Prim2SF f) = v.

End Values.

(** ** The order that [SFcompare] decides. *)
Module Ranking.

(** The order [SFcompare] decides, as a rank: the class of the value,
    then exponent and mantissa, mirrored below zero. *)
Definition rank (x : spec_float) : option (Z * Z * Z) :=
  match x with
  | S754_nan => None
  | S754_infinity true => Some (-2, 0, 0)%Z
  | S754_finite true m e => Some (-1, - e, Zneg m)%Z
  | S754_zero _ => Some (0, 0, 0)%Z
  | S754_finite false m e => Some (1, e, Zpos m)%Z
  | S754_infinity false => Some (2, 0, 0)%Z
  end.

Definition lex3 (a b : Z * Z * Z) : comparison :=
  let '(a1, a2, a3) := a in
  let '(b1, b2, b3) := b in
  match (a1 ?= b1)%Z with
  | Eq => match (a2 ?= b2)%Z with
          | Eq => (a3 ?= b3)%Z
          | c => c
          end
  | c => c
  end.

End Ranking.

(** ** Histories of the hand-off, read back: what was submitted, and what
       the callback printed. *)
Module History.
Import Bridge.

Section Histories.

Variable sample : Type.

(** The chunks a history submits (the first channel of each block), oldest
    first. *)
Definition submitted (ops : list (op sample)) : list (chunk sample) :=
  flat_map (fun o => match o with
                     | submit indata _ => [first_channel indata]
                     | consume => []
                     end) ops.

(** The status of every flagged block of a history, oldest first. *)
Definition statuses (ops : list (op sample)) : list string :=
  flat_map (fun o => match o with
                     | submit _ (Some s) => [s]
                     | _ => []
                     end) ops.

(** Callbacks one after the other, with no poll between them. *)
Definition submits (blocks : list (list (frame sample) * option string))
    : list (op sample) :=
  map (fun b => submit (fst b) (snd b)) blocks.

End Histories.

Arguments submitted {sample}.
Arguments statuses {sample}.
Arguments submits {sample}.

End History.

(** ** The two threads, statement by statement.

    [Bridge] takes a callback and a pass through the "Get Audio Data" block
    as one step each.  Here each statement of the two is a step of its own,
    and a trace says in which order the callback thread and the render loop
    took theirs. *)
Module Interleaving.
Import Bridge.

Section Threads.

Variables sample level : Type.
Variable calculate_rms_dbfs : list sample -> level.

(** The statement the render loop runs next in the block: the test of
    line 151, the [while] loop of lines 154-155, the level of line 156 or
    the reset of line 157. *)
Inductive render_pc : Type :=
| at_test
| at_loop
| at_level
| at_reset.

(** The callback is entered for a block, or has queued it and not yet
    raised the flag (line 63). *)
Inductive callback_pc : Type :=
| at_entry
| at_flag.

Record world : Type := mkWorld {
  shared : globals sample level;
  render : render_pc;
  callback : callback_pc
}.

Inductive action : Type :=
| cb_put (indata : list (frame sample)) (status : option string)
                (* lines 58-62: the status line, then audio_q.put *)
| cb_flag       (* line 63: new_data_available = True *)
| r_test        (* line 151: if new_data_available *)
| r_get         (* lines 154-155: one test of the loop, and its body *)
| r_level       (* line 156 *)
| r_reset.      (* line 157: new_data_available = False *)

(** One statement.  [None]: the thread is not at that statement. *)
Definition exec (a : action) (w : world) : option world :=
  let g := shared w in
  match a, render w, callback w with
  | cb_put indata status, _, at_entry =>
      let err := match status with
                 | Some s => stderr g ++ [s]
                 | None => stderr g
                 end in
      Some (mkWorld
              (mkGlobals (audio_q g ++ [first_channel indata])
                 (latest_data_chunk g) (last_rms_dbfs g)
                 (new_data_available g) err)
              (render w) at_flag)
  | cb_flag, _, at_flag =>
      Some (mkWorld
              (mkGlobals (audio_q g) (latest_data_chunk g) (last_rms_dbfs g)
                 true (stderr g))
              (render w) at_entry)
  | r_test, at_test, _ =>
      Some (mkWorld g (if new_data_available g then at_loop else at_test)
              (callback w))
  | r_get, at_loop, _ =>
      match audio_q g with
      | [] => Some (mkWorld g at_level (callback w))
      | c :: q =>
          Some (mkWorld
                  (mkGlobals q c (last_rms_dbfs g) (new_data_available g)
                     (stderr g))
                  at_loop (callback w))
      end
  | r_level, at_level, _ =>
      Some (mkWorld
              (mkGlobals (audio_q g) (latest_data_chunk g)
                 (calculate_rms_dbfs (latest_data_chunk g))
                 (new_data_available g) (stderr g))
              at_reset (callback w))
  | r_reset, at_reset, _ =>
      Some (mkWorld
              (mkGlobals (audio_q g) (latest_data_chunk g) (last_rms_dbfs g)
                 false (stderr g))
              at_test (callback w))
  | _, _, _ => None
  end.

Fixpoint exec_all (trace : list action) (w : world) : option world :=
  match trace with
  | [] => Some w
  | a :: rest =>
      match exec a w with
      | Some w' => exec_all rest w'
      | None => None
      end
  end.

(** The chunks the callback statements of a trace queue, oldest first. *)
Definition queued (trace : list action) : list (list sample) :=
  flat_map (fun a => match a with
                     | cb_put indata _ => [first_channel indata]
                     | _ => []
                     end) trace.

(** What every statement keeps, for the chunks queued so far: the queue is
    what is left of them after the first [n] were taken, the chunk held is
    the last one taken (the start-up chunk before any was), and before
    the test and before the reset the level held is the level of the chunk
    held, if the two are not at their start-up values. *)
Definition kept (zeros : list sample) (neg_inf : level) (w : world)
    (chunks : list (list sample)) : Prop :=
  (exists n : nat,
     (n <= List.length chunks)%nat
     /\ audio_q (shared w) = skipn n chunks
     /\ latest_data_chunk (shared w) = last (firstn n chunks) zeros)
  /\ (render w = at_test \/ render w = at_reset ->
      (latest_data_chunk (shared w) = zeros
       /\ last_rms_dbfs (shared w) = neg_inf)
      \/ last_rms_dbfs (shared w)
         = calculate_rms_dbfs (latest_data_chunk (shared w))).

(** The statements of one pass through the block when nothing interrupts
    it: the test alone when the flag is down; otherwise one pass of the
    loop per queued chunk, the pass that finds the queue empty, the level
    and the reset. *)
Definition block (g : globals sample level) : list action :=
  r_test ::
  (if new_data_available g
   then repeat r_get (S (List.length (audio_q g))) ++ [r_level; r_reset]
   else []).

End Threads.

Arguments mkWorld {sample level}.
Arguments shared {sample level}.
Arguments render {sample level}.
Arguments callback {sample level}.
Arguments cb_put {sample}.
Arguments cb_flag {sample}.
Arguments r_test {sample}.
Arguments r_get {sample}.
Arguments r_level {sample}.
Arguments r_reset {sample}.
Arguments exec {sample level}.
Arguments exec_all {sample level}.
Arguments block {sample level}.
Arguments queued {sample}.
Arguments kept {sample level}.

End Interleaving.

(** ** The main loop (lines 142-177): event handling, the "Get Audio
       Data" block and the drawing of one frame. *)
Module RenderLoop.
Import Py Bridge Classifier Projector.

Definition CHUNK_SIZE : nat := 1024.
Definition WIDTH : Z := 1000.
Definition HEIGHT : Z := 500.
Definition BACKGROUND_COLOR : color := (0, 0, 0)%Z.
Definition LINE_THICKNESS : Z := 2.

(** An event of [pygame.event.get()]: the loop looks at its type only. *)
Inductive event : Type :=
| QUIT
| other_event.

(** The calls the loop makes on the display, in the order it makes them. *)
Inductive call : Type :=
| fill (c : color)                       (* screen.fill(c) *)
| draw_lines (c : color) (closed : bool) (points : list point) (width : Z)
                                         (* pygame.draw.lines(screen, ...) *)
| flip.                                  (* pygame.display.flip() *)

(** What one iteration meets: the blocks the callback delivered since the
    previous pass through the "Get Audio Data" block, oldest first, and
    the events waiting. *)
Record input : Type := mkInput {
  arrived : list (list (frame float) * option string);
  events : list event
}.

Record loop_state : Type := mkLoop {
  shared : globals float float;
  running : bool;
  display : list call
}.

Section Loop.

(** The estimator as the loop calls it, on the floats of a chunk. *)
Variable calculate_rms_dbfs : list float -> float.

(** [for event in pygame.event.get(): if event.type == pygame.QUIT:
    running = False] *)
Definition handle_events (events : list event) (running : bool) : bool :=
  fold_left (fun r e => match e with QUIT => false | other_event => r end)
    events running.

Definition callbacks (arrived : list (list (frame float) * option string))
    (g : globals float float) : globals float float :=
  fold_left (fun g a => audio_callback (fst a) (snd a) g) arrived g.

(** Lines 164-177.  The calls made before an exception stay made. *)
Definition drawing (g : globals float float) (display : list call)
    : list call * result unit :=
  let display := display ++ [fill BACKGROUND_COLOR] in
  match generate_waveform_points (latest_data_chunk g) WIDTH HEIGHT with
  | Raise e => (display, Raise e)
  | Ok waveform_points =>
      match get_waveform_color (last_rms_dbfs g) with
      | Raise e => (display, Raise e)
      | Ok current_color =>
          let display :=
            if (2 <=? List.length waveform_points)%nat
            then display ++ [draw_lines current_color false waveform_points
                               LINE_THICKNESS]
            else display in
          (display ++ [flip], Ok tt)
      end
  end.

(** One pass through the body of [while running]. *)
Definition iteration (inp : input) (st : loop_state)
    : loop_state * result unit :=
  let running := handle_events (events inp) (running st) in
  let g := get_audio_data calculate_rms_dbfs
             (callbacks (arrived inp) (shared st)) in
  let '(display, r) := drawing g (display st) in
  (mkLoop g running display, r).

(** [while running: ...] over the inputs of its iterations, as far as
    they are given; an exception leaves the loop. *)
Fixpoint main_loop (inputs : list input) (st : loop_state)
    : loop_state * result unit :=
  if running st then
    match inputs with
    | [] => (st, Ok tt)
    | inp :: rest =>
        match iteration inp st with
        | (st', Ok _) => main_loop rest st'
        | (st', Raise e) => (st', Raise e)
        end
    end
  else (st, Ok tt).

(** The state in which the loop is entered: the globals of lines 30-33,
    [running = True], nothing drawn. *)
Definition entry : loop_state :=
  mkLoop (startup (repeat 0%float CHUNK_SIZE) neg_infinity) true [].

(** The number of frames presented. *)
Definition flips (display : list call) : nat :=
  List.length (filter (fun c => match c with flip => true | _ => false end)
                 display).

End Loop.

End RenderLoop.

(** ** Leaving the program: the [except] clauses and the [finally]
       clause of lines 185-207.

    The body of the [try] (lines 127-183) ends in one of three ways: the
    loop ends, a [KeyboardInterrupt] leaves it, or another exception does.
    What the clauses do next depends on how far the body got with the
    stream, and on [pygame.get_init()], which is true from [pygame.init()]
    (line 118) until [pygame.quit()]. *)
Module Shutdown.

(** How far the body got: creating the stream (line 127), starting it
    (line 135), or past that (lines 136-183). *)
Inductive stage : Type :=
| creating
| starting
| started.

Inductive raised : Type :=
| KeyboardInterrupt
| PortAudioError (message : string)
| other_exception (message : string).

Inductive body_end : Type :=
| loop_ended
| left_by (what : raised) (at_stage : stage).

(** What the clauses do that can be seen from outside. *)
Inductive effect : Type :=
| print (line : string)
| stream_stop
| stream_close
| pygame_quit.

(** The variable [stream] and [stream.active] when the body ends: [None]
    while line 127 has not assigned it; not active until [start()] has
    returned. *)
Definition stream_at (e : body_end) : option bool :=
  match e with
  | loop_ended => Some true
  | left_by _ creating => None
  | left_by _ starting => Some false
  | left_by _ started => Some true
  end.

Definition newline : string := String (Ascii.ascii_of_nat 10) EmptyString.

(** [if pygame.get_init(): pygame.quit()] *)
Definition quit_if_init (pygame_init : bool) : list effect * bool :=
  if pygame_init then ([pygame_quit], false) else ([], pygame_init).

(** Lines 185-198: the effects, [pygame.get_init()] afterwards, and the
    status of the [SystemExit] raised, if one is. *)
Definition except_clauses (e : body_end) (pygame_init : bool)
    : list effect * bool * option Z :=
  match e with
  | loop_ended => ([], pygame_init, None)
  | left_by KeyboardInterrupt _ => ([print "Stopping..."], pygame_init, None)
  | left_by (PortAudioError message) _ =>
      let '(quit, init) := quit_if_init pygame_init in
      ([print (newline ++ "An error occurred: " ++ message)%string;
        print (newline ++ ">>> Common Issues <<<")%string;
        print "- Is the correct audio device selected? Try '--list-devices' or '--select-device'.";
        print "- Is another application using the audio device?";
        print "- Does the device support the selected sample rate ({SAMPLE_RATE} Hz)?";
        print "- Ensure you have necessary permissions to access the microphone."]
       ++ quit, init, Some 1%Z)
  | left_by (other_exception message) _ =>
      let '(quit, init) := quit_if_init pygame_init in
      ([print (newline ++ "An error occurred: " ++ message)%string] ++ quit,
       init, Some 1%Z)
  end.

(** Lines 199-207. *)
Definition finally_clause (stream : option bool) (pygame_init : bool)
    : list effect :=
  (match stream with
   | Some true => [stream_stop; stream_close; print "Audio stream stopped."]
   | _ => []
   end)
  ++ fst (quit_if_init pygame_init)
  ++ [print "Exiting."].

(** From the end of the body to the end of the process: what is done, and
    the exit status. *)
Definition shutdown (e : body_end) : list effect * Z :=
  let '(handled, init, exit) := except_clauses e true in
  (handled ++ finally_clause (stream_at e) init,
   match exit with Some status => status | None => 0%Z end).

(** How often an effect occurs. *)
Definition occurrences (which : effect -> bool) (effects : list effect)
    : nat :=
  List.length (filter which effects).

Definition is_quit (f : effect) : bool :=
  match f with pygame_quit => true | _ => false end.

Definition is_stop (f : effect) : bool :=
  match f with stream_stop => true | _ => false end.

Definition is_close (f : effect) : bool :=
  match f with stream_close => true | _ => false end.

End Shutdown.

(* ================================================================== *)
(** * Part II. The theory                                              *)
(* ================================================================== *)

(** ** The capture hand-off *)
Module BridgeTheory.
Import Bridge.

Section Facts.

Variables sample level : Type.
Variable calculate_rms_dbfs : list sample -> level.
Variable zeros : list sample.
Variable neg_inf : level.

Local Abbreviation globals := (globals sample level).
Local Abbreviation op := (op sample).
Local Abbreviation run := (run calculate_rms_dbfs).
Local Abbreviation get_audio_data := (get_audio_data calculate_rms_dbfs).
Local Abbreviation consumeLatest := (consumeLatest calculate_rms_dbfs).
Local Abbreviation startup := (startup zeros neg_inf).

Lemma newest_snoc (q : list (list sample)) (b : list sample) :
  newest (q ++ [b]) = Some b.
Proof.
  unfold newest. rewrite map_app. simpl. apply last_last.
Qed.

Lemma last_cons_held (q : list (list sample)) (c held : list sample) :
  last (c :: q) held = last q c.
Proof.
  revert c held. induction q as [|c' q IH]; intros c held; [reflexivity|].
  change (last (c :: c' :: q) held) with (last (c' :: q) held).
  rewrite (IH c' held). symmetry. apply IH.
Qed.

Lemma drain_last (q : list (list sample)) (held : list sample) :
  drain q held = ([], last q held).
Proof.
  revert held. induction q as [|c q IH]; intro held; [reflexivity|].
  simpl drain. rewrite IH, last_cons_held. reflexivity.
Qed.

Lemma last_newest (q : list (list sample)) (held b : list sample) :
  newest q = Some b -> last q held = b.
Proof.
  unfold newest. induction q as [|c q IH]; [discriminate|].
  destruct q as [|c' q].
  - simpl. congruence.
  - intro H. change (last (c :: c' :: q) held) with (last (c' :: q) held).
    apply IH. exact H.
Qed.

Lemma newest_none (q : list (list sample)) : newest q = None -> q = [].
Proof.
  unfold newest. induction q as [|c q IH]; [reflexivity|].
  destruct q as [|c' q].
  - discriminate.
  - intro H. change (last (map Some (c' :: q)) None = None) in H.
    apply IH in H. discriminate.
Qed.

Lemma run_app (a b : list op) (g : globals) :
  run (a ++ b) g = run b (run a g).
Proof. apply fold_left_app. Qed.

Lemma coherent_startup : coherent startup.
Proof. reflexivity. Qed.

Lemma coherent_step (g : globals) (o : op) :
  coherent g -> coherent (step calculate_rms_dbfs g o).
Proof.
  unfold coherent. destruct o as [indata status|]; simpl.
  - intros _. rewrite length_app. simpl.
    destruct (List.length (audio_q g) + 1)%nat eqn:E; [lia | reflexivity].
  - intro H. unfold Bridge.get_audio_data.
    destruct (new_data_available g) eqn:F; [|rewrite F; exact H].
    rewrite drain_last. reflexivity.
Qed.

Lemma queue_after_poll (g : globals) :
  coherent g -> audio_q (get_audio_data g) = [].
Proof.
  unfold coherent, Bridge.get_audio_data. intro H.
  destruct (new_data_available g) eqn:F.
  - rewrite drain_last. reflexivity.
  - destruct (audio_q g); [reflexivity | discriminate].
Qed.

Lemma run_queue (ops : list op) (g : globals) :
  coherent g ->
  coherent (run ops g) /\ audio_q (run ops g) = pending_after (audio_q g) ops.
Proof.
  revert g. induction ops as [|o ops IH]; intros g Hg.
  - split; [exact Hg | reflexivity].
  - change (run (o :: ops) g) with (run ops (step calculate_rms_dbfs g o)).
    destruct (IH _ (coherent_step g o Hg)) as [Hc Hq].
    split; [exact Hc|]. rewrite Hq.
    destruct o as [indata status|]; simpl.
    + reflexivity.
    + rewrite (queue_after_poll g Hg). reflexivity.
Qed.

Lemma history_queue (ops : list op) :
  audio_q (run ops startup) = unconsumed ops
  /\ new_data_available (run ops startup)
     = negb (Nat.eqb (List.length (unconsumed ops)) 0).
Proof.
  destruct (run_queue ops startup coherent_startup) as [Hc Hq].
  simpl in Hq. change (pending_after [] ops) with (unconsumed ops) in Hq.
  split; [exact Hq|]. rewrite <- Hq. exact Hc.
Qed.

Lemma poll_pending (g : globals) (b : list sample) :
  new_data_available g = true -> newest (audio_q g) = Some b ->
  consumeLatest g
  = (Some b, mkGlobals [] b (calculate_rms_dbfs b) false (stderr g)).
Proof.
  intros F N. unfold Bridge.consumeLatest, Bridge.get_audio_data.
  rewrite F, N, drain_last.
  rewrite (last_newest _ _ _ N). reflexivity.
Qed.

Lemma poll_idle (g : globals) :
  new_data_available g = false -> consumeLatest g = (None, g).
Proof.
  intro F. unfold Bridge.consumeLatest, Bridge.get_audio_data.
  rewrite F. reflexivity.
Qed.

Lemma run_only_polls (ops : list op) :
  Forall (fun o => o = consume) ops -> run ops startup = startup.
Proof.
  induction ops as [|o ops IH]; intro H; [reflexivity|].
  inversion H as [|? ? Ho Hops]; subst. exact (IH Hops).
Qed.

End Facts.

(** C1. Last write wins, and an empty poll.  From any globals, after
    [audio_callback] ran on block A and then on block B with no poll in
    between, the next poll hands over the first channel of B, leaves it in
    [latest_data_chunk], and does not hand over A's when the two differ.
    And a poll made when no callback has run yet (only polls since
    start-up) hands over nothing and leaves the globals as they were, the
    held chunk being the zero chunk of start-up. *)
Theorem last_write_wins_and_empty_poll
  (sample level : Type) (calculate_rms_dbfs : list sample -> level)
  (zeros : list sample) (neg_inf : level) :
  (forall (g : globals sample level) (A B : list (frame sample))
          (sA sB : option string),
      let g2 := audio_callback B sB (audio_callback A sA g) in
      fst (consumeLatest calculate_rms_dbfs g2) = Some (first_channel B)
      /\ latest_data_chunk (snd (consumeLatest calculate_rms_dbfs g2))
         = first_channel B
      /\ (first_channel A <> first_channel B ->
          fst (consumeLatest calculate_rms_dbfs g2) <> Some (first_channel A)))
  /\ (forall ops : list (op sample),
      Forall (fun o => o = consume) ops ->
      let g := run calculate_rms_dbfs ops (startup zeros neg_inf) in
      consumeLatest calculate_rms_dbfs g = (None, g)
      /\ latest_data_chunk g = zeros).
Proof.
  split.
  - intros g A B sA sB g2.
    assert (E : consumeLatest calculate_rms_dbfs g2
                = (Some (first_channel B),
                   mkGlobals [] (first_channel B)
                     (calculate_rms_dbfs (first_channel B)) false (stderr g2))).
    { apply poll_pending; [reflexivity|]. apply newest_snoc. }
    rewrite E. simpl. repeat split. congruence.
  - intros ops H g. subst g. rewrite (run_only_polls _ _ _ _ _ _ H).
    split; reflexivity.
Qed.

Lemma last_write_wins_witness :
  fst (consumeLatest (fun c : list Z => List.length c)
         (run (fun c : list Z => List.length c)
            [submit [(1%Z, [])] None; submit [(2%Z, []); (3%Z, [])] None]
            (startup [0%Z] 0%nat)))
  = Some [2%Z; 3%Z]
  /\ consumeLatest (fun c : list Z => List.length c)
       (run (fun c : list Z => List.length c) [consume; consume]
          (startup [0%Z] 0%nat))
     = (None, startup [0%Z] 0%nat).
Proof.
  destruct (last_write_wins_and_empty_poll Z nat
              (fun c : list Z => List.length c) [0%Z] 0%nat) as [H1 H2].
  split.
  - exact (proj1 (H1 (startup [0%Z] 0%nat) [(1%Z, [])]
                     [(2%Z, []); (3%Z, [])] None None)).
  - exact (proj1 (H2 [consume; consume]
                     (Forall_cons _ eq_refl (Forall_cons _ eq_refl (Forall_nil _))))).
Defined.



(** C3 as it is stated fails: that a callback has run at some time is not
    enough.  After a callback and a poll, a submit has occurred, yet the
    first of two further polls hands over nothing: the chunk was taken
    already. *)
Lemma consumed_submit_yields_nothing :
  ~ (forall ops : list (op Z),
       (exists indata status, In (submit indata status) ops) ->
       exists b : list Z,
         fst (consumeLatest (fun c : list Z => List.length c)
                (run (fun c : list Z => List.length c) ops
                   (startup [0%Z] 0%nat)))
         = Some b).
Proof.
  intro H.
  destruct (H [submit [(1%Z, [])] None; consume]) as (b & Hb).
  - exists [(1%Z, [])], None. left. reflexivity.
  - discriminate Hb.
Qed.

(** C3, amended.  Polling twice.  In every state reached from start-up in
    which a callback has run since the last poll (a chunk is submitted and
    not taken yet), the first of two polls with no callback in between
    hands over a chunk, the newest one submitted, and the second hands
    over nothing and changes nothing: the first poll took the flag down.
    In the other states, where nothing is pending, a poll hands over
    nothing; and in every state a second poll is a no-op. *)
Theorem consume_twice_yields_buffer_then_nothing
  (sample level : Type) (calculate_rms_dbfs : list sample -> level)
  (zeros : list sample) (neg_inf : level) (ops : list (op sample)) :
  let g := run calculate_rms_dbfs ops (startup zeros neg_inf) in
  (unconsumed ops <> [] ->
   exists (b : list sample) (g' : globals sample level),
     consumeLatest calculate_rms_dbfs g = (Some b, g')
     /\ newest (unconsumed ops) = Some b
     /\ latest_data_chunk g' = b
     /\ new_data_available g' = false
     /\ consumeLatest calculate_rms_dbfs g' = (None, g'))
  /\ (unconsumed ops = [] -> consumeLatest calculate_rms_dbfs g = (None, g))
  /\ consumeLatest calculate_rms_dbfs (snd (consumeLatest calculate_rms_dbfs g))
     = (None, snd (consumeLatest calculate_rms_dbfs g)).
Proof.
  intro g.
  destruct (history_queue _ _ calculate_rms_dbfs zeros neg_inf ops) as [Hq Hf].
  fold g in Hq, Hf.
  split; [|split].
  - intro Hne.
    destruct (newest (unconsumed ops)) as [b|] eqn:N.
    2:{ apply newest_none in N. contradiction. }
    assert (F : new_data_available g = true).
    { rewrite Hf. destruct (unconsumed ops); [contradiction | reflexivity]. }
    exists b. eexists. split.
    + apply poll_pending; [exact F|]. rewrite Hq. exact N.
    + split; [reflexivity|]. split; [reflexivity|]. split; [reflexivity|].
      apply poll_idle. reflexivity.
  - intro He. apply poll_idle. rewrite Hf, He. reflexivity.
  - apply poll_idle. unfold consumeLatest, get_audio_data. cbn [snd].
    destruct (new_data_available g) eqn:F; [|exact F].
    rewrite drain_last. reflexivity.
Qed.

Lemma consume_twice_witness :
  exists (b : list Z) (g' : globals Z nat),
    consumeLatest (fun c : list Z => List.length c)
      (run (fun c : list Z => List.length c)
         [submit [(1%Z, [])] None; consume; submit [(2%Z, [])] None;
          submit [(3%Z, [])] None]
         (startup [0%Z] 0%nat)) = (Some b, g')
    /\ b = [3%Z]
    /\ consumeLatest (fun c : list Z => List.length c) g' = (None, g').
Proof.
  destruct (proj1 (consume_twice_yields_buffer_then_nothing Z nat
              (fun c : list Z => List.length c) [0%Z] 0%nat
              [submit [(1%Z, [])] None; consume; submit [(2%Z, [])] None;
               submit [(3%Z, [])] None]))
    as (b & g' & H1 & H2 & _ & _ & H5).
  - discriminate.
  - exists b, g'. split; [exact H1|]. split; [|exact H5].
    vm_compute in H2. congruence.
Defined.

End BridgeTheory.

(** ** Comparison of binary64 values

    [<?] and [<=?] on primitive floats are specified by [SFcompare] on
    their [spec_float] images; the facts below are those of IEEE 754
    comparison: NaN compares false with everything, and the values that
    are not NaN are totally preordered. *)
Module FloatOrder.
Import Ranking.

Lemma SFcompare_rank (x y : spec_float) :
  SFcompare x y =
  match rank x, rank y with
  | Some a, Some b => Some (lex3 a b)
  | _, _ => None
  end.
Proof.
  destruct x as [[|]|[|]| |[|] mx ex], y as [[|]|[|]| |[|] my ey];
    try reflexivity; simpl.
  rewrite Z.compare_opp, (Z.compare_antisym ex ey).
  destruct (ex ?= ey)%Z; reflexivity.
Qed.

Lemma lex3_lt_iff (a b : Z * Z * Z) :
  lex3 a b = Lt <->
  let '(a1, a2, a3) := a in
  let '(b1, b2, b3) := b in
  (a1 < b1 \/ (a1 = b1 /\ (a2 < b2 \/ (a2 = b2 /\ a3 < b3))))%Z.
Proof.
  destruct a as [[a1 a2] a3], b as [[b1 b2] b3]. unfold lex3.
  destruct (Z.compare_spec a1 b1); destruct (Z.compare_spec a2 b2);
    destruct (Z.compare_spec a3 b3); split; intro L;
    try discriminate; try reflexivity; lia.
Qed.

Lemma lex3_antisym (a b : Z * Z * Z) : lex3 b a = CompOpp (lex3 a b).
Proof.
  destruct a as [[a1 a2] a3], b as [[b1 b2] b3]. unfold lex3.
  rewrite (Z.compare_antisym a1 b1), (Z.compare_antisym a2 b2),
    (Z.compare_antisym a3 b3).
  destruct (a1 ?= b1)%Z, (a2 ?= b2)%Z, (a3 ?= b3)%Z; reflexivity.
Qed.

Lemma lex3_gt_iff (a b : Z * Z * Z) :
  lex3 a b = Gt <-> lex3 b a = Lt.
Proof.
  rewrite (lex3_antisym a b).
  destruct (lex3 a b); simpl; split; congruence.
Qed.

Lemma SFltb_rank (x y : spec_float) :
  SFltb x y = true <->
  exists a b, rank x = Some a /\ rank y = Some b /\ lex3 a b = Lt.
Proof.
  unfold SFltb. rewrite SFcompare_rank.
  destruct (rank x) as [a|], (rank y) as [b|]; split;
    try discriminate; try (intros (a' & b' & ? & ? & ?); discriminate).
  - destruct (lex3 a b) eqn:E; try discriminate. intros _. now exists a, b.
  - intros (a' & b' & Ha & Hb & L). inversion Ha; inversion Hb; subst.
    now rewrite L.
Qed.

Lemma SFleb_rank (x y : spec_float) :
  SFleb x y = true <->
  exists a b, rank x = Some a /\ rank y = Some b /\ lex3 b a <> Lt.
Proof.
  unfold SFleb. rewrite SFcompare_rank.
  destruct (rank x) as [a|], (rank y) as [b|]; split;
    try discriminate; try (intros (a' & b' & ? & ? & ?); discriminate).
  - destruct (lex3 a b) eqn:E; try discriminate; intros _; exists a, b;
      (split; [reflexivity|split; [reflexivity|]]); intro L;
      apply lex3_gt_iff in L; congruence.
  - intros (a' & b' & Ha & Hb & L). inversion Ha; inversion Hb; subst.
    destruct (lex3 a' b') eqn:E; try reflexivity.
    apply lex3_gt_iff in E. contradiction.
Qed.

Lemma lex3_trans (a b c : Z * Z * Z) :
  lex3 b a <> Lt -> lex3 b c = Lt -> lex3 a c = Lt.
Proof.
  rewrite !lex3_lt_iff.
  destruct a as [[a1 a2] a3], b as [[b1 b2] b3], c as [[c1 c2] c3]. lia.
Qed.

Lemma lex3_trans' (a b c : Z * Z * Z) :
  lex3 a b = Lt -> lex3 c b <> Lt -> lex3 a c = Lt.
Proof.
  rewrite !lex3_lt_iff.
  destruct a as [[a1 a2] a3], b as [[b1 b2] b3], c as [[c1 c2] c3]. lia.
Qed.

Lemma SFleb_ltb_trans (x y z : spec_float) :
  SFleb x y = true -> SFltb y z = true -> SFltb x z = true.
Proof.
  rewrite SFleb_rank, !SFltb_rank.
  intros (a & b & Ha & Hb & L1) (b' & c & Hb' & Hc & L2).
  rewrite Hb in Hb'. inversion Hb'; subst b'.
  exists a, c. repeat split; try assumption. eapply lex3_trans; eassumption.
Qed.

Lemma SFltb_leb_trans (x y z : spec_float) :
  SFltb x y = true -> SFleb y z = true -> SFltb x z = true.
Proof.
  rewrite SFleb_rank, !SFltb_rank.
  intros (a & b & Ha & Hb & L1) (b' & c & Hb' & Hc & L2).
  rewrite Hb in Hb'. inversion Hb'; subst b'.
  exists a, c. repeat split; try assumption. eapply lex3_trans'; eassumption.
Qed.

Lemma SFltb_false_leb (x y : spec_float) :
  x <> S754_nan -> y <> S754_nan -> SFltb x y = false -> SFleb y x = true.
Proof.
  intros Hx Hy H. apply SFleb_rank.
  destruct (rank x) as [a|] eqn:Ra; [|destruct x as [?|?| |[] ? ?]; try discriminate; try contradiction; destruct s; discriminate].
  destruct (rank y) as [b|] eqn:Rb; [|destruct y as [?|?| |[] ? ?]; try discriminate; try contradiction; destruct s; discriminate].
  exists b, a. repeat split. intro L.
  assert (T : SFltb x y = true) by (apply SFltb_rank; now exists a, b).
  congruence.
Qed.

Lemma SFleb_not_ltb (x y : spec_float) :
  SFleb x y = true -> SFltb y x = false.
Proof.
  intro H. destruct (SFltb y x) eqn:E; [|reflexivity].
  apply SFleb_rank in H. apply SFltb_rank in E.
  destruct H as (a & b & Ha & Hb & L), E as (b' & a' & Hb' & Ha' & L').
  congruence.
Qed.

(** The same facts on primitive floats. *)
Local Open Scope float_scope.

Lemma is_nan_spec (x : float) :
  is_nan x = false <-> Prim2SF x <> S754_nan.
Proof.
  unfold is_nan. rewrite eqb_spec. unfold SFeqb.
  rewrite SFcompare_rank.
  destruct (Prim2SF x) as [[|]|[|]| |[|] m e]; simpl;
    rewrite ?Z.compare_refl, ?Pos.compare_refl; simpl;
    split; intro H; try reflexivity; try discriminate; try congruence.
Qed.

Lemma ltb_nan_l (t : float) : (nan <? t) = false.
Proof. rewrite ltb_spec. reflexivity. Qed.

Lemma ltb_nan_r (t : float) : (t <? nan) = false.
Proof.
  rewrite ltb_spec. unfold SFltb. rewrite SFcompare_rank.
  destruct (rank (Prim2SF t)); reflexivity.
Qed.

Lemma leb_ltb_trans (x y z : float) :
  (x <=? y) = true -> (y <? z) = true -> (x <? z) = true.
Proof. rewrite leb_spec, !ltb_spec. apply SFleb_ltb_trans. Qed.

Lemma ltb_leb_trans (x y z : float) :
  (x <? y) = true -> (y <=? z) = true -> (x <? z) = true.
Proof. rewrite leb_spec, !ltb_spec. apply SFltb_leb_trans. Qed.

Lemma ltb_false_leb (x y : float) :
  is_nan x = false -> is_nan y = false -> (x <? y) = false -> (y <=? x) = true.
Proof.
  rewrite !is_nan_spec, leb_spec, ltb_spec. apply SFltb_false_leb.
Qed.

Lemma leb_not_ltb (x y : float) : (x <=? y) = true -> (y <? x) = false.
Proof. rewrite leb_spec, ltb_spec. apply SFleb_not_ltb. Qed.

Lemma leb_not_nan (x y : float) :
  (x <=? y) = true -> is_nan x = false /\ is_nan y = false.
Proof.
  rewrite leb_spec, !is_nan_spec. intro H. apply SFleb_rank in H.
  destruct H as (a & b & Ha & Hb & _).
  split; intro E; rewrite E in *; discriminate.
Qed.

End FloatOrder.

(** ** The colour classifier *)
Module ClassifierTheory.
Import Py Classifier FloatOrder.
Local Open Scope float_scope.

(** The classifier on three thresholds and four palette entries, with the
    subscripts resolved. *)
Lemma get_waveform_color_with_unfold {A : Type} (t0 t1 t2 : float)
    (rest : list float) (c0 c1 c2 c3 : A) (more : list A) (x : float) :
  get_waveform_color_with (t0 :: t1 :: t2 :: rest)
    (c0 :: c1 :: c2 :: c3 :: more) x
  = Ok (if x <? t0 then c0
        else if x <? t1 then c1
        else if x <? t2 then c2
        else c3).
Proof.
  unfold get_waveform_color_with, index, bind. simpl.
  destruct (x <? t0), (x <? t1), (x <? t2); reflexivity.
Qed.

(** The colour returned is the palette entry at the tier. *)
Lemma color_at_tier {A : Type} (t0 t1 t2 : float) (rest : list float)
    (palette : list A) (x : float) :
  get_waveform_color_with (t0 :: t1 :: t2 :: rest) palette x
  = (i <- tier_with (t0 :: t1 :: t2 :: rest) x ;; index palette i).
Proof.
  unfold tier_with. rewrite get_waveform_color_with_unfold.
  unfold get_waveform_color_with, index, bind. simpl.
  destruct (x <? t0), (x <? t1), (x <? t2); reflexivity.
Qed.

Lemma tier_unfold (x : float) :
  tier x = Ok (if x <? -45 then 0%nat else if x <? -30 then 1%nat
               else if x <? -15 then 2%nat else 3%nat).
Proof. apply (get_waveform_color_with_unfold (-45) (-30) (-15) []). Qed.

Lemma color_unfold (x : float) :
  get_waveform_color x
  = Ok (if x <? -45 then White else if x <? -30 then Yellow
        else if x <? -15 then Orange else Red).
Proof. apply (get_waveform_color_with_unfold (-45) (-30) (-15) []). Qed.

(** Below a threshold is below every later one. *)
Lemma below_45_below_30 (x : float) : (x <? -45) = true -> (x <? -30) = true.
Proof. intro H. apply (ltb_leb_trans x (-45) (-30) H). reflexivity. Qed.

Lemma below_30_below_15 (x : float) : (x <? -30) = true -> (x <? -15) = true.
Proof. intro H. apply (ltb_leb_trans x (-30) (-15) H). reflexivity. Qed.

(** C5. Interval semantics at the thresholds [-45, -30, -15].  For every
    binary64 level [x]: below -45 the classifier returns White (tier 0);
    from -45 up to but excluding -30, Yellow (tier 1); from -30 up to but
    excluding -15, Orange (tier 2); from -15 on, Red (tier 3).  Every
    level that is a number (not NaN), minus infinity included, lies in
    exactly one of the four intervals, and minus infinity is White. *)
Theorem classifier_half_open_intervals (x : float) :
  ((x <? -45) = true ->
     get_waveform_color x = Ok White /\ tier x = Ok 0%nat)
  /\ ((-45 <=? x) = true -> (x <? -30) = true ->
     get_waveform_color x = Ok Yellow /\ tier x = Ok 1%nat)
  /\ ((-30 <=? x) = true -> (x <? -15) = true ->
     get_waveform_color x = Ok Orange /\ tier x = Ok 2%nat)
  /\ ((-15 <=? x) = true ->
     get_waveform_color x = Ok Red /\ tier x = Ok 3%nat)
  /\ (is_nan x = false ->
     ((x <? -45) = true /\ (-45 <=? x) = false /\ (-30 <=? x) = false
        /\ (-15 <=? x) = false)
     \/ ((x <? -45) = false /\ (-45 <=? x) = true /\ (x <? -30) = true
        /\ (-30 <=? x) = false /\ (-15 <=? x) = false)
     \/ ((x <? -30) = false /\ (-30 <=? x) = true /\ (x <? -15) = true
        /\ (-45 <=? x) = true /\ (-15 <=? x) = false)
     \/ ((x <? -15) = false /\ (-15 <=? x) = true /\ (-45 <=? x) = true
        /\ (-30 <=? x) = true))
  /\ get_waveform_color neg_infinity = Ok White.
Proof.
  rewrite color_unfold, tier_unfold.
  assert (N45 : is_nan (-45) = false) by reflexivity.
  assert (N30 : is_nan (-30) = false) by reflexivity.
  assert (N15 : is_nan (-15) = false) by reflexivity.
  pose proof (below_45_below_30 x) as B1.
  pose proof (below_30_below_15 x) as B2.
  pose proof (leb_not_ltb (-45) x) as L45.
  pose proof (leb_not_ltb (-30) x) as L30.
  pose proof (leb_not_ltb (-15) x) as L15.
  split; [|split; [|split; [|split; [|split]]]].
  - intro H. now rewrite H.
  - intros H1 H2. now rewrite (L45 H1), H2.
  - intros H1 H2. rewrite (L30 H1), H2.
    destruct (x <? -45) eqn:E; [|split; reflexivity].
    rewrite (B1 eq_refl) in L30. specialize (L30 H1). discriminate.
  - intro H1. rewrite (L15 H1).
    destruct (x <? -30) eqn:E30.
    { rewrite (B2 eq_refl) in L15. specialize (L15 H1). discriminate. }
    destruct (x <? -45) eqn:E45; [|split; reflexivity].
    specialize (B1 eq_refl). discriminate.
  - intro Nx.
    pose proof (ltb_false_leb x (-45) Nx N45) as T45.
    pose proof (ltb_false_leb x (-30) Nx N30) as T30.
    pose proof (ltb_false_leb x (-15) Nx N15) as T15.
    destruct (x <? -45) eqn:E45.
    { left. specialize (B1 eq_refl). specialize (B2 B1).
      destruct (-45 <=? x); [specialize (L45 eq_refl); discriminate|].
      destruct (-30 <=? x); [specialize (L30 eq_refl); congruence|].
      destruct (-15 <=? x); [specialize (L15 eq_refl); congruence|].
      repeat split. }
    right. specialize (T45 eq_refl).
    destruct (x <? -30) eqn:E30.
    { left. specialize (B2 eq_refl).
      destruct (-30 <=? x); [specialize (L30 eq_refl); discriminate|].
      destruct (-15 <=? x); [specialize (L15 eq_refl); congruence|].
      repeat split. exact T45. }
    right. specialize (T30 eq_refl).
    destruct (x <? -15) eqn:E15.
    { left.
      destruct (-15 <=? x); [specialize (L15 eq_refl); discriminate|].
      repeat split; assumption. }
    right. specialize (T15 eq_refl). repeat split; assumption.
  - reflexivity.
Qed.

Lemma classifier_half_open_intervals_witness :
  get_waveform_color (-40) = Ok Yellow /\ tier (-40) = Ok 1%nat.
Proof.
  exact (proj1 (proj2 (classifier_half_open_intervals (-40))) eq_refl eq_refl).
Defined.



End ClassifierTheory.

(** ** The loudness estimator *)
Module LoudnessTheory.
Import Loudness.
Local Open Scope R_scope.

Lemma ln_10_pos : 0 < ln 10.
Proof. rewrite <- ln_1. apply ln_increasing; lra. Qed.

Lemma ln_le (x y : R) : 0 < x -> x <= y -> ln x <= ln y.
Proof.
  intros Hx [H|H].
  - left. apply ln_increasing; assumption.
  - subst. right. reflexivity.
Qed.

Lemma log10_le (x y : R) : 0 < x -> x <= y -> log10 x <= log10 y.
Proof.
  intros Hx H. unfold log10. apply Rmult_le_compat_r.
  - left. apply Rinv_0_lt_compat, ln_10_pos.
  - apply ln_le; assumption.
Qed.

Lemma epsilon_pos : 0 < epsilon.
Proof. unfold epsilon. lra. Qed.

Lemma log10_epsilon : log10 epsilon = -10.
Proof.
  unfold log10, epsilon.
  replace 1e-10 with (/ 10 ^ 10) by lra.
  rewrite ln_Rinv by (apply pow_lt; lra).
  rewrite ln_pow by lra. simpl INR.
  pose proof ln_10_pos. field. lra.
Qed.

(** Sums of finite values stay finite. *)
Lemma fold_add_Fin (rs : list R) (a : R) :
  fold_left add (map Fin rs) (Fin a) = Fin (fold_left Rplus rs a).
Proof.
  revert a. induction rs as [|r rs IH]; intro a; [reflexivity|].
  simpl. apply IH.
Qed.

Lemma fold_plus_squares (rs : list R) (a : R) :
  fold_left Rplus (map (fun r => r * r) rs) a = a + sum_of_squares rs.
Proof.
  revert a. induction rs as [|r rs IH]; intro a; simpl.
  - lra.
  - rewrite IH. lra.
Qed.

Lemma squares_Fin (rs : list R) :
  map square (map Fin rs) = map Fin (map (fun r => r * r) rs).
Proof. rewrite !map_map. reflexivity. Qed.

Lemma sum_of_squares_nonneg (rs : list R) : 0 <= sum_of_squares rs.
Proof.
  induction rs as [|r rs IH]; simpl; [lra|].
  pose proof (Rle_0_sqr r) as S. unfold Rsqr in S. lra.
Qed.

Lemma sum_of_squares_bound (rs : list R) :
  Forall (fun r => -1 <= r <= 1) rs ->
  sum_of_squares rs <= INR (List.length rs).
Proof.
  induction 1 as [|r rs Hr _ IH].
  - simpl. lra.
  - change (List.length (r :: rs)) with (S (List.length rs)).
    rewrite S_INR. simpl sum_of_squares.
    assert (r * r <= 1) by nra. lra.
Qed.

Lemma count_pos (A : Type) (l : list A) : l <> [] -> 0 < INR (List.length l).
Proof.
  destruct l as [|a l]; [contradiction|]. intros _.
  change (List.length (a :: l)) with (S (List.length l)).
  rewrite S_INR. pose proof (pos_INR (List.length l)). lra.
Qed.

Lemma mean_square_nonneg (rs : list R) :
  rs <> [] -> 0 <= sum_of_squares rs / INR (List.length rs).
Proof.
  intro H. apply Rmult_le_pos.
  - apply sum_of_squares_nonneg.
  - left. apply Rinv_0_lt_compat, count_pos, H.
Qed.

Lemma np_mean_squares (rs : list R) :
  rs <> [] ->
  np_mean (map square (map Fin rs))
  = Fin (sum_of_squares rs / INR (List.length rs)).
Proof.
  intro H. rewrite squares_Fin. unfold np_mean.
  rewrite fold_add_Fin, fold_plus_squares, !length_map.
  destruct rs as [|r rs]; [contradiction|].
  simpl map. cbv iota. do 2 f_equal. lra.
Qed.

Lemma rms_nonneg (rs : list R) : 0 <= rms rs.
Proof. apply sqrt_pos. Qed.

(** On real samples the estimator is the reference definition. *)
Lemma calculate_rms_dbfs_Fin (rs : list R) :
  rs <> [] ->
  calculate_rms_dbfs (map Fin rs) = Fin (reference_level rs).
Proof.
  intro H. unfold calculate_rms_dbfs. rewrite (np_mean_squares rs H).
  unfold np_sqrt.
  destruct (Rlt_dec (sum_of_squares rs / INR (List.length rs)) 0) as [L|_].
  { pose proof (mean_square_nonneg rs H). lra. }
  fold (rms rs). simpl add. unfold np_log10.
  destruct (Rlt_dec 0 (rms rs + epsilon)) as [_|L].
  2:{ pose proof (rms_nonneg rs). pose proof epsilon_pos. lra. }
  reflexivity.
Qed.

Lemma rms_zero (rs : list R) : Forall (fun r => r = 0) rs -> rms rs = 0.
Proof.
  intro H. unfold rms.
  assert (E : sum_of_squares rs = 0).
  { induction H as [|r rs Hr _ IH]; simpl; [reflexivity|]. subst. lra. }
  rewrite E. unfold Rdiv. rewrite Rmult_0_l. apply sqrt_0.
Qed.

Lemma reference_level_zero (rs : list R) :
  Forall (fun r => r = 0) rs -> reference_level rs = -200.
Proof.
  intro H. unfold reference_level. rewrite (rms_zero rs H), Rplus_0_l.
  rewrite log10_epsilon. lra.
Qed.

Lemma rms_le_1 (rs : list R) :
  rs <> [] -> Forall (fun r => -1 <= r <= 1) rs -> rms rs <= 1.
Proof.
  intros Hne H. unfold rms. rewrite <- sqrt_1. apply sqrt_le_1_alt.
  pose proof (sum_of_squares_bound rs H) as B.
  pose proof (count_pos R rs Hne) as P.
  apply (Rmult_le_reg_r (INR (List.length rs))); [exact P|].
  unfold Rdiv. rewrite Rmult_assoc, Rinv_l by lra. lra.
Qed.

(** NaN anywhere in the chunk reaches the result. *)
Lemma fold_add_NaN (l : list value) : fold_left add l NaN = NaN.
Proof. induction l as [|v l IH]; [reflexivity | exact IH]. Qed.

Lemma fold_add_In_NaN (l : list value) (acc : value) :
  In NaN l -> fold_left add l acc = NaN.
Proof.
  revert acc. induction l as [|v l IH]; intros acc H; [contradiction|].
  destruct H as [H|H].
  - subst v. simpl. replace (add acc NaN) with NaN by (destruct acc; reflexivity).
    apply fold_add_NaN.
  - simpl. apply IH, H.
Qed.

Lemma calculate_rms_dbfs_NaN (data_chunk : list value) :
  In NaN data_chunk -> calculate_rms_dbfs data_chunk = NaN.
Proof.
  intro H. unfold calculate_rms_dbfs.
  assert (S : In NaN (map square data_chunk)).
  { change NaN with (square NaN). apply in_map, H. }
  assert (M : np_mean (map square data_chunk) = NaN).
  { unfold np_mean. rewrite (fold_add_In_NaN _ _ S).
    destruct (map square data_chunk); reflexivity. }
  rewrite M. reflexivity.
Qed.

Lemma of_float_nan : of_float nan = NaN.
Proof. reflexivity. Qed.





End LoudnessTheory.

(** ** A NaN level *)
Module NaNLevelTheory.
Import Py Classifier FloatOrder.
Local Open Scope float_scope.

(** C10. A NaN level is Red.  Every comparison of NaN with a threshold is
    false, so on the default configuration, and on every configuration
    with three thresholds, control reaches the final [else]: the colour is
    the last palette entry, Red (tier 3), not White.  And the estimator
    does produce NaN whenever a sample of the chunk is NaN. *)
Theorem nan_level_is_red :
  get_waveform_color nan = Ok Red
  /\ get_waveform_color nan <> Ok White
  /\ tier nan = Ok 3%nat
  /\ (forall t : float, (nan <? t) = false)
  /\ (forall (t0 t1 t2 : float) (rest : list float) (A : Type)
             (palette : list A),
        get_waveform_color_with (t0 :: t1 :: t2 :: rest) palette nan
        = index palette 3)
  /\ (forall data_chunk : list float,
        In nan data_chunk ->
        Loudness.calculate_rms_dbfs (map Loudness.of_float data_chunk)
        = Loudness.NaN).
Proof.
  split; [reflexivity|]. split; [discriminate|]. split; [reflexivity|].
  split; [exact ltb_nan_l|]. split.
  - intros t0 t1 t2 rest A palette.
    unfold get_waveform_color_with, index, bind. simpl.
    rewrite !ltb_nan_l. reflexivity.
  - intros data_chunk H. apply LoudnessTheory.calculate_rms_dbfs_NaN.
    rewrite <- LoudnessTheory.of_float_nan. apply in_map, H.
Qed.

Lemma nan_level_is_red_witness :
  Loudness.calculate_rms_dbfs (map Loudness.of_float [0.5; nan; 0.25])
  = Loudness.NaN.
Proof.
  refine (proj2 (proj2 (proj2 (proj2 (proj2 nan_level_is_red))))
            [0.5; nan; 0.25] _).
  right. left. reflexivity.
Defined.

End NaNLevelTheory.

(** ** Rounding to binary64

    [SpecFloat] specifies the primitive operations by [binary_round_aux];
    this module says what that function does to values: it sends a real
    to one of its two neighbours on the binary64 grid, a nearest one. *)
Module Rounding.
Import Values.
Local Open Scope R_scope.

Lemma bpow_pos (e : Z) : 0 < bpow e.
Proof. apply powerRZ_lt. lra. Qed.

Lemma bpow_add (a b : Z) : bpow (a + b) = bpow a * bpow b.
Proof. apply powerRZ_add. lra. Qed.

Lemma bpow_0 : bpow 0 = 1.
Proof. reflexivity. Qed.

Lemma bpow_1 : bpow 1 = 2.
Proof. unfold bpow. simpl. lra. Qed.

Lemma bpow_opp (e : Z) : bpow (- e) = / bpow e.
Proof.
  pose proof (bpow_pos e) as P.
  apply (Rmult_eq_reg_r (bpow e)); [|lra].
  rewrite <- bpow_add, Rinv_l by lra.
  replace (- e + e)%Z with 0%Z by lia. reflexivity.
Qed.

Lemma bpow_IZR (k : Z) : (0 <= k)%Z -> bpow k = IZR (2 ^ k).
Proof.
  revert k. apply natlike_ind.
  - reflexivity.
  - intros k Hk IH. unfold Z.succ. rewrite bpow_add, IH, bpow_1.
    rewrite Z.pow_add_r by lia. rewrite mult_IZR. simpl (IZR (2 ^ 1)). lra.
Qed.

Lemma bpow_lt (a b : Z) : (a < b)%Z -> bpow a < bpow b.
Proof.
  intro H. replace b with (a + (b - a))%Z by lia. rewrite bpow_add.
  pose proof (bpow_pos a) as P.
  assert (1 < bpow (b - a)).
  { rewrite bpow_IZR by lia. apply IZR_lt.
    assert (2 ^ 1 <= 2 ^ (b - a))%Z by (apply Z.pow_le_mono_r; lia). lia. }
  nra.
Qed.

Lemma bpow_le (a b : Z) : (a <= b)%Z -> bpow a <= bpow b.
Proof.
  intro H. destruct (Z.eq_dec a b) as [->|N]; [lra|].
  left. apply bpow_lt. lia.
Qed.

(** The number of binary digits of a mantissa. *)
Lemma digits2_pos_bounds (p : positive) :
  (2 ^ (Zpos (digits2_pos p) - 1) <= Zpos p < 2 ^ Zpos (digits2_pos p))%Z.
Proof.
  induction p as [p IH|p IH|]; simpl digits2_pos;
    [rewrite Pos2Z.inj_succ, (Pos2Z.inj_xI p)
    |rewrite Pos2Z.inj_succ, (Pos2Z.inj_xO p)
    |simpl; lia];
    set (d := Zpos (digits2_pos p)) in *;
    (assert (Hd : (1 <= d)%Z) by (unfold d; lia));
    (assert (E1 : (2 ^ (d + 1) = 2 * 2 ^ d)%Z) by (apply Z.pow_succ_r; lia));
    (assert (E0 : (2 ^ d = 2 * 2 ^ (d - 1))%Z)
       by (rewrite <- Z.pow_succ_r by lia; f_equal; lia));
    unfold Z.succ; replace (d + 1 - 1)%Z with d by lia; lia.
Qed.

Lemma Zdigits2_nonneg (m : Z) : (0 <= Zdigits2 m)%Z.
Proof. destruct m; simpl; lia. Qed.

Lemma Zdigits2_bounds (m : Z) :
  (0 < m)%Z -> (2 ^ (Zdigits2 m - 1) <= m < 2 ^ Zdigits2 m)%Z.
Proof.
  destruct m as [|p|p]; try lia. intros _. apply digits2_pos_bounds.
Qed.

(** A mantissa below [2^d] has at most [d] digits; one from [2^d] on has
    more than [d]. *)
Lemma Zdigits2_le (m d : Z) :
  (0 <= m)%Z -> (0 <= d)%Z -> (m < 2 ^ d)%Z -> (Zdigits2 m <= d)%Z.
Proof.
  intros Hm Hd H. destruct (Z.eq_dec m 0) as [->|N]; [simpl; lia|].
  destruct (Zdigits2_bounds m) as [L _]; [lia|].
  destruct (Z_le_gt_dec (Zdigits2 m) d) as [|G]; [assumption|].
  assert (2 ^ d <= 2 ^ (Zdigits2 m - 1))%Z by (apply Z.pow_le_mono_r; lia).
  lia.
Qed.

Lemma Zdigits2_gt (m d : Z) :
  (0 <= d)%Z -> (2 ^ d <= m)%Z -> (d < Zdigits2 m)%Z.
Proof.
  intros Hd H.
  assert (0 < 2 ^ d)%Z by (apply Z.pow_pos_nonneg; lia).
  destruct (Zdigits2_bounds m) as [_ U]; [lia|].
  destruct (Z_lt_le_dec d (Zdigits2 m)) as [|G]; [assumption|].
  assert (2 ^ Zdigits2 m <= 2 ^ d)%Z.
  { apply Z.pow_le_mono_r; [lia|]. exact G. }
  lia.
Qed.

Lemma inbetween_bounds (x : R) (m : Z) (l : location) :
  inbetween x m l -> IZR m <= x < IZR m + 1.
Proof. destruct l as [|[| |]]; simpl; lra. Qed.

Lemma loc_of_shr_record_of_loc (m : Z) (l : location) :
  loc_of_shr_record (shr_record_of_loc m l) = l
  /\ shr_m (shr_record_of_loc m l) = m.
Proof. destruct l as [|[| |]]; split; reflexivity. Qed.

(** One step of the right shift halves the value and keeps its place. *)
Lemma shr_1_inbetween (mrs : shr_record) (x : R) :
  (0 <= shr_m mrs)%Z ->
  inbetween x (shr_m mrs) (loc_of_shr_record mrs) ->
  inbetween (x / 2) (shr_m (shr_1 mrs)) (loc_of_shr_record (shr_1 mrs))
  /\ shr_m (shr_1 mrs) = (shr_m mrs / 2)%Z.
Proof.
  destruct mrs as [m r s]. simpl shr_m. intros Hm H.
  destruct m as [|p|p]; [| |lia].
  - split; [|reflexivity].
    destruct r, s; cbn [shr_1 shr_m loc_of_shr_record inbetween orb] in *; lra.
  - destruct p as [p|p|].
    + split.
      * destruct r, s; cbn [shr_1 shr_m loc_of_shr_record inbetween orb] in *;
          rewrite (Pos2Z.inj_xI p), plus_IZR, mult_IZR in H; lra.
      * cbn [shr_1 shr_m]. rewrite (Pos2Z.inj_xI p).
        apply (Z.div_unique _ _ _ 1); lia.
    + split.
      * destruct r, s; cbn [shr_1 shr_m loc_of_shr_record inbetween orb] in *;
          rewrite (Pos2Z.inj_xO p), mult_IZR in H; lra.
      * cbn [shr_1 shr_m]. rewrite (Pos2Z.inj_xO p).
        apply (Z.div_unique _ _ _ 0); lia.
    + split; [|reflexivity].
      destruct r, s; cbn [shr_1 shr_m loc_of_shr_record inbetween orb] in *; lra.
Qed.

Lemma shr_1_nonneg (mrs : shr_record) :
  (0 <= shr_m mrs)%Z -> (0 <= shr_m (shr_1 mrs))%Z.
Proof.
  destruct mrs as [m r s]. destruct m as [|[p|p|]|p]; simpl; lia.
Qed.

(** [n] steps divide by [2^n]. *)
Lemma iter_shr_1_inbetween (n : positive) (mrs : shr_record) (x : R) :
  (0 <= shr_m mrs)%Z ->
  inbetween x (shr_m mrs) (loc_of_shr_record mrs) ->
  inbetween (x / IZR (2 ^ Zpos n)) (shr_m (SpecFloat.iter_pos shr_1 n mrs))
    (loc_of_shr_record (SpecFloat.iter_pos shr_1 n mrs))
  /\ shr_m (SpecFloat.iter_pos shr_1 n mrs) = (shr_m mrs / 2 ^ Zpos n)%Z.
Proof.
  revert mrs x. induction n as [n IH|n IH|]; intros mrs x Hm H.
  - simpl SpecFloat.iter_pos.
    destruct (shr_1_inbetween mrs x Hm H) as [H1 E1].
    assert (P1 := shr_1_nonneg mrs Hm).
    destruct (IH _ _ P1 H1) as [H2 E2].
    assert (P2 : (0 <= shr_m (SpecFloat.iter_pos shr_1 n (shr_1 mrs)))%Z).
    { rewrite E2. apply Z.div_pos; [lia|]. apply Z.pow_pos_nonneg; lia. }
    destruct (IH _ _ P2 H2) as [H3 E3].
    assert (Q : (0 < 2 ^ Zpos n)%Z) by (apply Z.pow_pos_nonneg; lia).
    assert (E : (2 ^ Zpos n~1 = 2 * (2 ^ Zpos n * 2 ^ Zpos n))%Z).
    { rewrite Pos2Z.inj_xI, Z.pow_add_r, Z.pow_1_r by lia.
      replace (2 * Zpos n)%Z with (Zpos n + Zpos n)%Z by lia.
      rewrite Z.pow_add_r by lia. lia. }
    split.
    + rewrite E, !mult_IZR.
      replace (x / (2 * (IZR (2 ^ Zpos n) * IZR (2 ^ Zpos n))))
        with (x / 2 / IZR (2 ^ Zpos n) / IZR (2 ^ Zpos n)); [exact H3|].
      apply IZR_lt in Q. field. lra.
    + rewrite E3, E2, E1, E. rewrite !Z.div_div by lia.
      f_equal; lia.
  - simpl SpecFloat.iter_pos.
    destruct (IH _ _ Hm H) as [H2 E2].
    assert (P2 : (0 <= shr_m (SpecFloat.iter_pos shr_1 n mrs))%Z).
    { rewrite E2. apply Z.div_pos; [lia|]. apply Z.pow_pos_nonneg; lia. }
    destruct (IH _ _ P2 H2) as [H3 E3].
    assert (Q : (0 < 2 ^ Zpos n)%Z) by (apply Z.pow_pos_nonneg; lia).
    assert (E : (2 ^ Zpos n~0 = 2 ^ Zpos n * 2 ^ Zpos n)%Z).
    { rewrite (Pos2Z.inj_xO n).
      replace (2 * Zpos n)%Z with (Zpos n + Zpos n)%Z by lia.
      rewrite Z.pow_add_r by lia. lia. }
    split.
    + rewrite E, !mult_IZR.
      replace (x / (IZR (2 ^ Zpos n) * IZR (2 ^ Zpos n)))
        with (x / IZR (2 ^ Zpos n) / IZR (2 ^ Zpos n)); [exact H3|].
      apply IZR_lt in Q. field. lra.
    + rewrite E3, E2, E. rewrite !Z.div_div by lia. reflexivity.
  - simpl SpecFloat.iter_pos. change (2 ^ 1)%Z with 2%Z.
    exact (shr_1_inbetween mrs x Hm H).
Qed.


(** The exponent of the binary64 grid at a magnitude of [e] digits. *)
Lemma fexp64 (e : Z) : fexp prec emax e = Z.max (e - 53) (-1074).
Proof. reflexivity. Qed.

(** The first shift of [binary_round_aux]: down to the grid. *)
Lemma shr_fexp_spec (m e : Z) (l : location) (x : R) :
  (0 <= m)%Z -> inbetween x m l ->
  (e <= fexp prec emax (Zdigits2 m + e))%Z ->
  exists mrs : shr_record,
    shr_fexp prec emax m e l = (mrs, fexp prec emax (Zdigits2 m + e))
    /\ shr_m mrs = (m / 2 ^ (fexp prec emax (Zdigits2 m + e) - e))%Z
    /\ inbetween (x / IZR (2 ^ (fexp prec emax (Zdigits2 m + e) - e)))
         (shr_m mrs) (loc_of_shr_record mrs).
Proof.
  intros Hm H Hg. unfold shr_fexp.
  set (g := fexp prec emax (Zdigits2 m + e)) in *.
  destruct (loc_of_shr_record_of_loc m l) as [El Em].
  unfold shr. destruct (g - e)%Z as [|n|n] eqn:En; [| |lia].
  - exists (shr_record_of_loc m l). split; [f_equal; lia|].
    rewrite Em, El. split.
    + change (2 ^ 0)%Z with 1%Z. now rewrite Z.div_1_r.
    + change (2 ^ 0)%Z with 1%Z. replace (x / 1) with x by field. exact H.
  - exists (SpecFloat.iter_pos shr_1 n (shr_record_of_loc m l)).
    split; [f_equal; lia|].
    destruct (iter_shr_1_inbetween n (shr_record_of_loc m l) x) as [H1 E1].
    + rewrite Em. exact Hm.
    + rewrite Em, El. exact H.
    + rewrite Em in E1. split; assumption.
Qed.

Lemma round_nearest_even_spec (y : R) (m1 : Z) (l1 : location) :
  inbetween y m1 l1 ->
  let k := round_nearest_even m1 l1 in
  (m1 <= k)%Z
  /\ Rabs (IZR k - y) <= / 2
  /\ (forall z : Z, IZR z <= y -> (z <= k)%Z)
  /\ (forall z : Z, y <= IZR z -> (k <= z)%Z).
Proof.
  intros H k.
  assert (F : forall z : Z, IZR z <= y -> (z <= m1)%Z).
  { intros z Hz. apply inbetween_bounds in H.
    assert (IZR z < IZR (m1 + 1)) by (rewrite plus_IZR; lra).
    apply lt_IZR in H0. lia. }
  assert (C : forall z : Z, y <= IZR z -> IZR m1 < y -> (m1 + 1 <= z)%Z).
  { intros z Hz Hy. assert (IZR m1 < IZR z) by lra.
    apply lt_IZR in H0. lia. }
  assert (C0 : forall z : Z, y <= IZR z -> (m1 <= z)%Z).
  { intros z Hz. apply inbetween_bounds in H. apply le_IZR. lra. }
  subst k. destruct l1 as [|[| |]]; simpl in *.
  - split; [lia|]. split; [|split; auto].
    subst y. rewrite Rminus_diag. rewrite Rabs_R0. lra.
  - destruct (Z.even m1).
    + split; [lia|]. split; [|split; auto].
      subst y. rewrite Rabs_left1; lra.
    + split; [lia|]. split; [|split].
      * subst y. rewrite plus_IZR. rewrite Rabs_right; lra.
      * intros z Hz. specialize (F z Hz). lia.
      * intros z Hz. apply C; [exact Hz|lra].
  - split; [lia|]. split; [|split; auto].
    rewrite Rabs_left1; lra.
  - split; [lia|]. split; [|split].
    + rewrite plus_IZR. rewrite Rabs_right; lra.
    + intros z Hz. specialize (F z Hz). lia.
    + intros z Hz. apply C; [exact Hz|lra].
Qed.

Lemma round_nearest_even_le (m1 : Z) (l1 : location) :
  (round_nearest_even m1 l1 <= m1 + 1)%Z.
Proof. destruct l1 as [|[| |]]; simpl; try lia. destruct (Z.even m1); lia. Qed.

(** Rounding: the value [x * 2^e], known by its integer part [m] and the
    place [l] of the rest, goes to an integer multiple [k * 2^g] of the
    grid step, [k] being one of the two integers around [x * 2^e / 2^g]
    and a nearest one. *)
Lemma binary_round_aux_spec (s : bool) (m e : Z) (l : location) (x : R) :
  (0 <= m)%Z -> inbetween x m l ->
  (e <= fexp prec emax (Zdigits2 m + e))%Z ->
  exists k : Z,
    (0 <= k <= 2 ^ 53)%Z
    /\ Rabs (IZR k - x / IZR (2 ^ (fexp prec emax (Zdigits2 m + e) - e))) <= / 2
    /\ (forall z : Z,
          IZR z <= x / IZR (2 ^ (fexp prec emax (Zdigits2 m + e) - e)) ->
          (z <= k)%Z)
    /\ (forall z : Z,
          x / IZR (2 ^ (fexp prec emax (Zdigits2 m + e) - e)) <= IZR z ->
          (k <= z)%Z)
    /\ ((fexp prec emax (Zdigits2 m + e) = -1074)%Z
        \/ IZR (2 ^ 52) <= x / IZR (2 ^ (fexp prec emax (Zdigits2 m + e) - e)))
    /\ binary_round_aux prec emax s m e l
       = encode s k (fexp prec emax (Zdigits2 m + e)).
Proof.
  intros Hm H Hg.
  destruct (shr_fexp_spec m e l x Hm H Hg) as (mrs & E1 & Em1 & H1).
  set (g := fexp prec emax (Zdigits2 m + e)) in *.
  set (y := x / IZR (2 ^ (g - e))) in *.
  set (m1 := shr_m mrs) in *.
  set (n := (g - e)%Z) in *.
  assert (Hn : (0 <= n)%Z) by (unfold n; lia).
  assert (P : (0 < 2 ^ n)%Z) by (apply Z.pow_pos_nonneg; lia).
  assert (Gg : g = Z.max (Zdigits2 m + e - 53) (-1074)) by apply fexp64.
  assert (M1 : (0 <= m1 < 2 ^ 53)%Z).
  { rewrite Em1. split; [apply Z.div_pos; lia|].
    apply Z.div_lt_upper_bound; [lia|].
    destruct (Z.eq_dec m 0) as [->|N]; [lia|].
    destruct (Zdigits2_bounds m) as [_ U]; [lia|].
    assert (2 ^ Zdigits2 m <= 2 ^ (n + 53))%Z.
    { apply Z.pow_le_mono_r; [lia|]. unfold n. lia. }
    rewrite Z.pow_add_r in H0 by lia. lia. }
  assert (N1 : (g = -1074 \/ 2 ^ 52 <= m1)%Z).
  { destruct (Z.eq_dec g (-1074)) as [|G]; [left; assumption|right].
    assert (D : (n = Zdigits2 m - 53)%Z) by (unfold n; lia).
    assert (m <> 0)%Z by (intros ->; simpl in D; lia).
    destruct (Zdigits2_bounds m) as [L _]; [lia|].
    rewrite Em1. apply Z.div_le_lower_bound; [lia|].
    replace (Zdigits2 m - 1)%Z with (n + 52)%Z in L by lia.
    rewrite Z.pow_add_r in L by lia. lia. }
  destruct (round_nearest_even_spec y m1 (loc_of_shr_record mrs) H1)
    as (K1 & K2 & K3 & K4).
  pose proof (round_nearest_even_le m1 (loc_of_shr_record mrs)) as K5.
  set (k := round_nearest_even m1 (loc_of_shr_record mrs)) in *.
  exists k. split; [lia|]. split; [exact K2|]. split; [exact K3|].
  split; [exact K4|].
  split.
  { destruct N1 as [N1|N1]; [left; assumption|right].
    apply inbetween_bounds in H1. apply IZR_le in N1. lra. }
  unfold binary_round_aux. rewrite E1. fold m1. fold k.
  unfold encode, shr_fexp.
  destruct (loc_of_shr_record_of_loc k loc_Exact) as [_ Ek].
  destruct (Z.eqb_spec k 0) as [K0|K0].
  - rewrite K0. simpl Zdigits2. rewrite fexp64.
    unfold shr. destruct (Z.max (0 + g - 53) (-1074) - g)%Z eqn:En;
      try reflexivity; lia.
  - destruct (Z.ltb_spec k (2 ^ 53)) as [KL|KL].
    + assert (D : (Zdigits2 k <= 53)%Z) by (apply Zdigits2_le; lia).
      rewrite fexp64. unfold shr.
      destruct k as [|p|p]; try lia.
      destruct (Z.max (Zdigits2 (Zpos p) + g - 53) (-1074) - g)%Z eqn:En;
        try lia; reflexivity.
    + assert (K53 : k = (2 ^ 53)%Z) by lia.
      rewrite K53. change (Zdigits2 (2 ^ 53)) with 54%Z. rewrite fexp64.
      replace (Z.max (54 + g - 53) (-1074) - g)%Z with 1%Z by lia.
      replace (Z.max (54 + g - 53) (-1074))%Z with (g + 1)%Z by lia.
      reflexivity.
Qed.


Lemma bpow_lt_inv (a b : Z) : bpow a < bpow b -> (a < b)%Z.
Proof.
  intro H. destruct (Z_lt_le_dec a b) as [|G]; [assumption|].
  apply bpow_le in G. lra.
Qed.

Lemma bpow_le_inv (a b : Z) : bpow a <= bpow b -> (a <= b)%Z.
Proof.
  intro H. destruct (Z_le_gt_dec a b) as [|G]; [assumption|].
  assert (b < a)%Z by lia. apply bpow_lt in H0. lra.
Qed.

Lemma bpow_sub_IZR (g e : Z) :
  (e <= g)%Z -> bpow g = bpow e * IZR (2 ^ (g - e)).
Proof.
  intro H. rewrite <- bpow_IZR by lia. rewrite <- bpow_add. f_equal. lia.
Qed.

Lemma mag_nonneg (f : spec_float) : 0 <= mag f.
Proof.
  destruct f as [s|s| |s m e]; simpl; try lra.
  pose proof (bpow_pos e). assert (0 < IZR (Zpos m)) by (apply IZR_lt; lia).
  nra.
Qed.

(** The mantissa and exponent of a valid finite binary64 number. *)
Lemma valid_finite_range (s : bool) (m : positive) (e : Z) :
  valid_binary (S754_finite s m e) = true ->
  (Zpos m < 2 ^ 53)%Z /\ (-1074 <= e <= 971)%Z
  /\ (e = -1074 \/ 2 ^ 52 <= Zpos m)%Z.
Proof.
  unfold SpecFloat.valid_binary, SpecFloat.bounded, SpecFloat.canonical_mantissa.
  rewrite andb_true_iff, Z.eqb_eq, Z.leb_le, fexp64.
  change (emax - prec)%Z with 971%Z. intros [C B].
  destruct (digits2_pos_bounds m) as [L U].
  set (d := Zpos (digits2_pos m)) in *.
  assert (Hd : (1 <= d)%Z) by (unfold d; lia).
  split; [|split; [lia|]].
  - assert (2 ^ d <= 2 ^ 53)%Z by (apply Z.pow_le_mono_r; lia). lia.
  - destruct (Z.eq_dec e (-1074)) as [|N]; [left; assumption|right].
    assert (d = 53)%Z by lia. rewrite H in L. exact L.
Qed.

Lemma valid_mag_lt (b : spec_float) :
  valid_binary b = true -> mag b < bpow 1024.
Proof.
  destruct b as [s|s| |s m e]; cbn [mag]; try (intros _; apply bpow_pos).
  intro V. apply valid_finite_range in V. destruct V as (M & E & _).
  apply IZR_lt in M. rewrite <- bpow_IZR in M by lia.
  pose proof (bpow_pos e). pose proof (bpow_le e 971 ltac:(lia)).
  replace 1024%Z with (53 + 971)%Z by lia. rewrite bpow_add.
  assert (0 < IZR (Zpos m)) by (apply IZR_lt; lia).
  pose proof (bpow_pos 53). nra.
Qed.

(** The value [encode] stands for, when it does not overflow. *)
Lemma encode_finite (s : bool) (k g : Z) :
  (0 <= k <= 2 ^ 53)%Z ->
  (g = -1074 \/ 2 ^ 52 <= k)%Z ->
  IZR k * bpow g < bpow 1024 ->
  finite_SF (encode s k g) = true
  /\ mag (encode s k g) = IZR k * bpow g
  /\ (encode s k g = S754_zero s
      \/ exists m' e', encode s k g = S754_finite s m' e').
Proof.
  intros K N B. unfold encode.
  destruct (Z.eqb_spec k 0) as [K0|K0].
  { subst k. simpl. split; [reflexivity|]. split; [lra|]. now left. }
  assert (G : (k < 2 ^ 53 -> g <= 971)%Z).
  { intro KL. destruct N as [N|N]; [lia|].
    assert (bpow (52 + g) < bpow 1024).
    { rewrite bpow_add, bpow_IZR by lia. apply IZR_le in N.
      pose proof (bpow_pos g). nra. }
    apply bpow_lt_inv in H. lia. }
  destruct (Z.ltb_spec k (2 ^ 53)) as [KL|KL].
  - specialize (G KL). destruct (Z.leb_spec g 971) as [_|]; [|lia].
    cbn [finite_SF mag]. rewrite Z2Pos.id by lia.
    split; [reflexivity|]. split; [reflexivity|]. right. eauto.
  - assert (K53 : k = (2 ^ 53)%Z) by lia. subst k.
    assert (g + 1 <= 971)%Z.
    { assert (bpow (53 + g) < bpow 1024).
      { rewrite bpow_add, bpow_IZR by lia. exact B. }
      apply bpow_lt_inv in H. lia. }
    destruct (Z.leb_spec (g + 1) 971) as [_|]; [|lia].
    cbn [finite_SF mag]. split; [reflexivity|]. split; [|right; eauto].
    rewrite Z2Pos.id by lia. rewrite (Z.add_comm g 1), bpow_add, bpow_1.
    change (2 ^ 53)%Z with (2 * 2 ^ 52)%Z. rewrite mult_IZR. lra.
Qed.

(** A valid finite magnitude beside a point [y * 2^g] of the real line is
    on the same side of both integer neighbours of [y] on the grid [2^g],
    when the grid is the one of the magnitude of [y * 2^g]. *)
Lemma grid_upper (k g : Z) (y : R) (b : spec_float) :
  valid_binary b = true ->
  (0 <= k)%Z ->
  (forall z : Z, y <= IZR z -> (k <= z)%Z) ->
  (g = -1074)%Z \/ IZR (2 ^ 52) <= y ->
  y * bpow g <= mag b ->
  IZR k * bpow g <= mag b.
Proof.
  intros Vb K0 Kc N52 Hb. pose proof (bpow_pos g) as Pg.
  destruct b as [sb|sb| |sb mb eb]; cbn [mag] in *.
  1-3: assert (Y : y <= IZR 0) by (simpl; nra);
       apply Kc in Y; assert (k = 0%Z) by lia; subst k; lra.
  apply valid_finite_range in Vb. destruct Vb as (Mb & Eb & Nb).
  assert (0 < IZR (Zpos mb)) by (apply IZR_lt; lia).
  destruct (Z_le_gt_dec g eb) as [G|G].
  - rewrite (bpow_sub_IZR eb g G) in *.
    assert (Y : y <= IZR (Zpos mb * 2 ^ (eb - g))).
    { rewrite mult_IZR. nra. }
    apply Kc in Y. apply IZR_le in Y. rewrite mult_IZR in Y. nra.
  - exfalso. destruct N52 as [?|N]; [lia|].
    assert (bpow eb <= bpow (g - 1)) by (apply bpow_le; lia).
    replace g with (1 + (g - 1))%Z in Hb, Pg by lia.
    rewrite bpow_add, bpow_1 in *.
    apply IZR_lt in Mb.
    change (2 ^ 53)%Z with (2 * 2 ^ 52)%Z in Mb. rewrite mult_IZR in Mb.
    pose proof (bpow_pos eb). pose proof (bpow_pos (g - 1)).
    assert (0 < IZR (2 ^ 52)) by (apply IZR_lt; lia).
    nra.
Qed.

Lemma grid_lower (k g : Z) (y : R) (b : spec_float) :
  valid_binary b = true ->
  (0 <= k)%Z ->
  (forall z : Z, IZR z <= y -> (z <= k)%Z) ->
  (g = -1074)%Z \/ IZR (2 ^ 52) <= y ->
  mag b <= y * bpow g ->
  mag b <= IZR k * bpow g.
Proof.
  intros Vb K0 Kf N52 Hb. pose proof (bpow_pos g) as Pg.
  apply IZR_le in K0.
  destruct b as [sb|sb| |sb mb eb]; cbn [mag] in *; try nra.
  apply valid_finite_range in Vb. destruct Vb as (Mb & Eb & Nb).
  assert (0 < IZR (Zpos mb)) by (apply IZR_lt; lia).
  destruct (Z_le_gt_dec g eb) as [G|G].
  - rewrite (bpow_sub_IZR eb g G) in *.
    assert (Y : IZR (Zpos mb * 2 ^ (eb - g)) <= y).
    { rewrite mult_IZR. nra. }
    apply Kf in Y. apply IZR_le in Y. rewrite mult_IZR in Y. nra.
  - destruct N52 as [?|N]; [lia|].
    assert (K52 : (2 ^ 52 <= k)%Z) by (apply Kf; exact N).
    apply IZR_le in K52.
    assert (bpow eb <= bpow (g - 1)) by (apply bpow_le; lia).
    replace g with (1 + (g - 1))%Z by lia.
    rewrite bpow_add, bpow_1.
    apply IZR_lt in Mb.
    change (2 ^ 53)%Z with (2 * 2 ^ 52)%Z in Mb. rewrite mult_IZR in Mb.
    pose proof (bpow_pos eb). pose proof (bpow_pos (g - 1)).
    assert (0 < IZR (2 ^ 52)) by (apply IZR_lt; lia).
    nra.
Qed.

(** [binary_round_aux] rounds the magnitude [x * 2^e], and exactly so when
    it is on the grid. *)
Lemma round_value (s : bool) (m e : Z) (l : location) (x : R) :
  (0 <= m)%Z -> inbetween x m l ->
  (e <= fexp prec emax (Zdigits2 m + e))%Z ->
  exists rv : R,
    rounds_to (binary_round_aux prec emax s m e l) s (x * bpow e) rv
    /\ (forall z : Z,
          x = IZR z * IZR (2 ^ (fexp prec emax (Zdigits2 m + e) - e)) ->
          rv = x * bpow e).
Proof.
  intros Hm H Hg.
  destruct (binary_round_aux_spec s m e l x Hm H Hg)
    as (k & K & Kh & Kf & Kc & Kn & E).
  set (g := fexp prec emax (Zdigits2 m + e)) in *.
  assert (P : (0 < 2 ^ (g - e))%Z) by (apply Z.pow_pos_nonneg; lia).
  apply IZR_lt in P.
  set (y := x / IZR (2 ^ (g - e))) in *.
  assert (V : x * bpow e = y * bpow g).
  { unfold y. rewrite (bpow_sub_IZR g e Hg). field. lra. }
  pose proof (bpow_pos g) as Pg.
  assert (K0 : 0 <= IZR k) by (apply IZR_le; lia).
  exists (IZR k * bpow g).
  split; [split; [nra|split; [|split; [|split]]]|].
  - intro B. rewrite E. apply encode_finite; [exact K| |exact B].
    destruct Kn as [?|Kn]; [left; assumption|right]. apply Kf. exact Kn.
  - intros b Vb Hb. rewrite V in Hb.
    apply (grid_upper k g y b); try assumption. lia.
  - intros b Vb Hb. rewrite V in Hb.
    apply (grid_lower k g y b); try assumption. lia.
  - intro Hv. rewrite V in *.
    assert (Y : IZR (2 ^ 52) <= y).
    { destruct Kn as [G|N]; [|exact N].
      rewrite G in *.
      replace (-1022)%Z with (52 + -1074)%Z in Hv by lia.
      rewrite bpow_add, (bpow_IZR 52) in Hv by lia.
      pose proof (bpow_pos (-1074)). nra. }
    replace (IZR k * bpow g - y * bpow g) with ((IZR k - y) * bpow g) by ring.
    rewrite Rabs_mult, (Rabs_right (bpow g)) by lra.
    replace (-53)%Z with (- (52 + 1))%Z by lia.
    rewrite bpow_opp, bpow_add, bpow_1, (bpow_IZR 52) by lia.
    assert (P52 : 0 < IZR (2 ^ 52)) by (apply IZR_lt; lia).
    assert (B1 : bpow g <= y * bpow g * / IZR (2 ^ 52)).
    { apply (Rmult_le_reg_r (IZR (2 ^ 52))); [lra|].
      rewrite Rmult_assoc, Rinv_l by lra. nra. }
    rewrite Rinv_mult.
    assert (B2 : Rabs (IZR k - y) * bpow g <= / 2 * bpow g).
    { apply Rmult_le_compat_r; lra. }
    lra.
  - intros z Hz. rewrite V.
    assert (Yz : y = IZR z) by (unfold y; rewrite Hz; field; lra).
    assert (k = z).
    { apply Z.le_antisymm; [apply Kc|apply Kf]; lra. }
    subst k. rewrite Yz. reflexivity.
Qed.


(** Shifting a mantissa to the left. *)
Lemma iter_xO_value (m d : positive) :
  Zpos (Pos.iter xO m d) = (Zpos m * 2 ^ Zpos d)%Z.
Proof.
  induction d as [|d IH] using Pos.peano_ind.
  - simpl. lia.
  - rewrite Pos.iter_succ, (Pos2Z.inj_xO (Pos.iter xO m d)), IH.
    rewrite Pos2Z.inj_succ, Z.pow_succ_r by lia. lia.
Qed.

Lemma iter_xO_digits (m d : positive) :
  Zpos (digits2_pos (Pos.iter xO m d)) = (Zpos (digits2_pos m) + Zpos d)%Z.
Proof.
  induction d as [|d IH] using Pos.peano_ind.
  - simpl. lia.
  - rewrite Pos.iter_succ. simpl digits2_pos.
    rewrite Pos2Z.inj_succ, IH, Pos2Z.inj_succ. lia.
Qed.

Lemma shl_align_spec (m : positive) (e e2 : Z) :
  exists (mz : positive) (ez : Z),
    shl_align m e e2 = (mz, ez)
    /\ ez = Z.min e e2
    /\ Zpos mz = (Zpos m * 2 ^ (e - ez))%Z
    /\ Zpos (digits2_pos mz) = (Zpos (digits2_pos m) + (e - ez))%Z.
Proof.
  unfold shl_align. destruct (e2 - e)%Z as [|d|d] eqn:E.
  - exists m, e. repeat split; try lia.
    + replace (e - e)%Z with 0%Z by lia. simpl. lia.
  - exists m, e. repeat split; try lia.
    + replace (e - e)%Z with 0%Z by lia. simpl. lia.
  - exists (Pos.iter xO m d), e2. repeat split; try lia.
    + rewrite iter_xO_value. f_equal. f_equal. lia.
    + rewrite iter_xO_digits. lia.
Qed.

(** [binary_round] rounds the magnitude [m * 2^e], and exactly so when the
    mantissa fits the precision and the exponent the range. *)
Lemma binary_round_value (s : bool) (m : positive) (e : Z) :
  exists rv : R,
    rounds_to (binary_round prec emax s m e) s (IZR (Zpos m) * bpow e) rv
    /\ ((Zpos m < 2 ^ 53)%Z -> (-1074 <= e)%Z -> rv = IZR (Zpos m) * bpow e).
Proof.
  unfold binary_round.
  destruct (shl_align_spec m e (fexp prec emax (Zpos (digits2_pos m) + e)))
    as (mz & ez & E & Ez & Em & Ed).
  rewrite E.
  set (e2 := fexp prec emax (Zpos (digits2_pos m) + e)) in *.
  assert (D : (Zdigits2 (Zpos mz) + ez = Zpos (digits2_pos m) + e)%Z).
  { simpl Zdigits2. lia. }
  assert (G : fexp prec emax (Zdigits2 (Zpos mz) + ez) = e2).
  { rewrite D. reflexivity. }
  assert (V : IZR (Zpos mz) * bpow ez = IZR (Zpos m) * bpow e).
  { rewrite Em, mult_IZR, (bpow_sub_IZR e ez) by lia. ring. }
  destruct (round_value s (Zpos mz) ez loc_Exact (IZR (Zpos mz)))
    as (rv & RT & EX); [lia|reflexivity|rewrite G; lia|].
  rewrite V in RT, EX. exists rv. split; [exact RT|].
  intros Hm He. apply (EX (Zpos mz)). rewrite G.
  assert (Dm : (Zpos (digits2_pos m) <= 53)%Z).
  { apply (Zdigits2_le (Zpos m)); lia. }
  assert (e2 <= e)%Z by (unfold e2; rewrite fexp64; lia).
  replace (e2 - ez)%Z with 0%Z by lia. simpl. ring.
Qed.

Lemma valid_canonical (s : bool) (m : positive) (e : Z) :
  valid_binary (S754_finite s m e) = true ->
  e = Z.max (Zpos (digits2_pos m) + e - 53) (-1074).
Proof.
  unfold SpecFloat.valid_binary, SpecFloat.bounded,
    SpecFloat.canonical_mantissa.
  rewrite andb_true_iff, Z.eqb_eq, fexp64. intros [C _]. lia.
Qed.

(** The product of two valid finite numbers is their exact product,
    rounded. *)
Lemma SFmul_rounds (sx sy : bool) (mx my : positive) (ex ey : Z) :
  valid_binary (S754_finite sx mx ex) = true ->
  valid_binary (S754_finite sy my ey) = true ->
  exists rv : R,
    rounds_to (SF64mul (S754_finite sx mx ex) (S754_finite sy my ey))
      (xorb sx sy)
      (IZR (Zpos mx) * bpow ex * (IZR (Zpos my) * bpow ey)) rv.
Proof.
  intros Vx Vy. unfold SF64mul, SFmul.
  apply valid_canonical in Vx, Vy.
  destruct (digits2_pos_bounds mx) as [Lx _].
  destruct (digits2_pos_bounds my) as [Ly _].
  set (dx := Zpos (digits2_pos mx)) in *.
  set (dy := Zpos (digits2_pos my)) in *.
  assert (Hdx : (1 <= dx)%Z) by (unfold dx; lia).
  assert (Hdy : (1 <= dy)%Z) by (unfold dy; lia).
  assert (D : (dx + dy - 2 < Zdigits2 (Zpos (mx * my)))%Z).
  { apply Zdigits2_gt; [lia|].
    replace (dx + dy - 2)%Z with ((dx - 1) + (dy - 1))%Z by lia.
    rewrite Z.pow_add_r by lia. rewrite Pos2Z.inj_mul.
    apply Z.mul_le_mono_nonneg; try assumption;
      apply Z.pow_nonneg; lia. }
  destruct (round_value (xorb sx sy) (Zpos (mx * my)) (ex + ey) loc_Exact
              (IZR (Zpos (mx * my)))) as (rv & RT & _).
  - lia.
  - reflexivity.
  - rewrite fexp64. lia.
  - exists rv.
    replace (IZR (Zpos mx) * bpow ex * (IZR (Zpos my) * bpow ey))
      with (IZR (Zpos (mx * my)) * bpow (ex + ey)); [exact RT|].
    rewrite Pos2Z.inj_mul, mult_IZR, bpow_add. ring.
Qed.

(** Where the quotient of a division lies. *)
Lemma new_location_inbetween (m2 q r : Z) :
  (0 < m2)%Z -> (0 <= r < m2)%Z ->
  inbetween (IZR q + IZR r / IZR m2) q (new_location m2 r).
Proof.
  intros Hm Hr. assert (P : 0 < IZR m2) by (apply IZR_lt; lia).
  assert (R0 : 0 <= IZR r) by (apply IZR_le; lia).
  assert (R1 : IZR r < IZR m2) by (apply IZR_lt; lia).
  assert (Half : forall c : comparison,
             (2 * r ?= m2)%Z = c -> r <> 0%Z ->
             inbetween (IZR q + IZR r / IZR m2) q (loc_Inexact c)).
  { intros c Hc Hr0.
    assert (0 < IZR r) by (apply IZR_lt; lia).
    assert (0 < IZR r / IZR m2) by (apply Rdiv_lt_0_compat; lra).
    assert (IZR r / IZR m2 < 1).
    { apply (Rmult_lt_reg_r (IZR m2)); [lra|]. unfold Rdiv.
      rewrite Rmult_assoc, Rinv_l by lra. lra. }
    destruct c; simpl.
    - apply Z.compare_eq in Hc. apply (f_equal IZR) in Hc.
      rewrite mult_IZR in Hc. f_equal. field_simplify_eq; lra.
    - rewrite Z.compare_lt_iff in Hc. apply IZR_lt in Hc.
      rewrite mult_IZR in Hc. split; [lra|].
      assert (IZR r / IZR m2 < / 2); [|lra].
      apply (Rmult_lt_reg_r (IZR m2)); [lra|]. unfold Rdiv.
      rewrite Rmult_assoc, Rinv_l by lra. lra.
    - rewrite Z.compare_gt_iff in Hc. apply IZR_lt in Hc.
      rewrite mult_IZR in Hc. split; [|lra].
      assert (/ 2 < IZR r / IZR m2); [|lra].
      apply (Rmult_lt_reg_r (IZR m2)); [lra|]. unfold Rdiv.
      rewrite Rmult_assoc, Rinv_l by lra. lra. }
  unfold new_location.
  destruct (Z.even m2) eqn:Ev;
    unfold new_location_even, new_location_odd;
    destruct (Z.eqb_spec r 0) as [R|R].
  - subst r. simpl. unfold Rdiv. rewrite Rmult_0_l. lra.
  - apply Half; [reflexivity|exact R].
  - subst r. simpl. unfold Rdiv. rewrite Rmult_0_l. lra.
  - assert (Od : Z.odd m2 = true) by (rewrite <- Z.negb_even, Ev; reflexivity).
    apply Z.odd_spec in Od. destruct Od as [t Ht].
    destruct (Z.compare_spec (2 * r + 1) m2) as [C|C|C].
    + apply Half; [|exact R]. apply Z.compare_lt_iff. lia.
    + apply Half; [|exact R]. apply Z.compare_lt_iff. lia.
    + apply Half; [|exact R]. apply Z.compare_gt_iff. lia.
Qed.

(** The quotient of two finite numbers is their exact quotient,
    rounded. *)
Lemma SFdiv_rounds (sx sy : bool) (mx my : positive) (ex ey : Z) :
  exists rv : R,
    rounds_to (SF64div (S754_finite sx mx ex) (S754_finite sy my ey))
      (xorb sx sy)
      (IZR (Zpos mx) * bpow ex / (IZR (Zpos my) * bpow ey)) rv.
Proof.
  unfold SF64div, SFdiv, SFdiv_core_binary.
  set (d1 := Zdigits2 (Zpos mx)). set (d2 := Zdigits2 (Zpos my)).
  set (e' := Z.min (fexp prec emax (d1 + ex - (d2 + ey))) (ex - ey)).
  set (sh := (ex - ey - e')%Z).
  assert (Hs : (0 <= sh)%Z) by (unfold sh, e'; lia).
  set (m' := match sh with
             | Zpos _ => Z.shiftl (Zpos mx) sh
             | Z0 => Zpos mx
             | Zneg _ => 0%Z
             end).
  assert (Em : m' = (Zpos mx * 2 ^ sh)%Z).
  { unfold m'. destruct sh as [|p|p] eqn:E; [simpl; lia| |lia].
    apply Z.shiftl_mul_pow2. lia. }
  pose proof (Z_div_mod m' (Zpos my) ltac:(lia)) as DM.
  destruct (Z.div_eucl m' (Zpos my)) as [q r]. destruct DM as [Eq Hr].
  assert (P2 : (0 < 2 ^ sh)%Z) by (apply Z.pow_pos_nonneg; lia).
  assert (Hq : (0 <= q)%Z) by nia.
  assert (Py : 0 < IZR (Zpos my)) by (apply IZR_lt; lia).
  assert (X : IZR q + IZR r / IZR (Zpos my) = IZR m' / IZR (Zpos my)).
  { rewrite Eq, plus_IZR, mult_IZR. field. lra. }
  destruct (round_value (xorb sx sy) q e' (new_location (Zpos my) r)
              (IZR q + IZR r / IZR (Zpos my))) as (rv & RT & _).
  - exact Hq.
  - apply new_location_inbetween; lia.
  - assert (Dq : (d1 + sh - d2 <= Zdigits2 q)%Z).
    { destruct (Z_le_gt_dec (d1 + sh - d2) 0) as [|G].
      { pose proof (Zdigits2_nonneg q). lia. }
      assert (d1 + sh - d2 - 1 < Zdigits2 q)%Z; [|lia].
      apply Zdigits2_gt; [lia|].
      destruct (Zdigits2_bounds (Zpos mx)) as [L1 _]; [lia|].
      destruct (Zdigits2_bounds (Zpos my)) as [_ U2]; [lia|].
      fold d1 in L1. fold d2 in U2.
      assert (Hd2 : (1 <= d2)%Z) by (unfold d2; simpl; lia).
      assert (Hd1 : (1 <= d1)%Z) by (unfold d1; simpl; lia).
      assert (B : (2 ^ (d1 + sh - d2 - 1) * Zpos my <= m')%Z).
      { rewrite Em.
        assert (2 ^ (d1 + sh - d2 - 1) * 2 ^ d2 = 2 ^ (d1 - 1) * 2 ^ sh)%Z.
        { rewrite <- !Z.pow_add_r by lia. f_equal. lia. }
        assert (0 < 2 ^ (d1 + sh - d2 - 1))%Z by (apply Z.pow_pos_nonneg; lia).
        nia. }
      assert (2 ^ (d1 + sh - d2 - 1) <= m' / Zpos my)%Z.
      { apply Z.div_le_lower_bound; lia. }
      replace q with (m' / Zpos my)%Z; [assumption|].
      symmetry. apply (Z.div_unique_pos _ _ _ r); lia. }
    rewrite fexp64. unfold e'. rewrite fexp64. unfold sh, e' in Dq.
    rewrite fexp64 in Dq. lia.
  - exists rv.
    replace (IZR (Zpos mx) * bpow ex / (IZR (Zpos my) * bpow ey))
      with ((IZR q + IZR r / IZR (Zpos my)) * bpow e'); [exact RT|].
    rewrite X, Em, mult_IZR.
    assert (Ex : bpow ex = IZR (2 ^ sh) * bpow e' * bpow ey).
    { rewrite <- (bpow_IZR sh), <- !bpow_add by lia. f_equal. unfold sh. lia. }
    rewrite Ex. pose proof (bpow_pos ey). field. lra.
Qed.


Lemma B2R_abs (f : spec_float) : Rabs (B2R f) = mag f.
Proof.
  unfold B2R. pose proof (mag_nonneg f).
  destruct (sign_of f).
  - rewrite Rabs_Ropp. apply Rabs_right. lra.
  - apply Rabs_right. lra.
Qed.

Lemma B2R_finite (s : bool) (m : positive) (e : Z) :
  B2R (S754_finite s m e)
  = (if s then - (IZR (Zpos m) * bpow e) else IZR (Zpos m) * bpow e).
Proof. reflexivity. Qed.

Lemma mag_finite_pos (s : bool) (m : positive) (e : Z) :
  0 < mag (S754_finite s m e).
Proof.
  simpl. pose proof (bpow_pos e).
  assert (0 < IZR (Zpos m)) by (apply IZR_lt; lia). nra.
Qed.

(** What a rounded result is worth, given a valid bound on the exact
    magnitude. *)
Lemma rounds_to_bounded (r : spec_float) (s : bool) (v rv : R)
    (b : spec_float) :
  rounds_to r s v rv ->
  valid_binary b = true -> v <= mag b ->
  finite_SF r = true /\ mag r = rv /\ rv <= mag b
  /\ B2R r = (if s then - rv else rv) /\ sign_of r = s.
Proof.
  intros (R0 & RF & RU & _) Vb Hb.
  specialize (RU b Vb Hb). pose proof (valid_mag_lt b Vb) as Lb.
  destruct RF as (F & M & S); [lra|].
  split; [exact F|]. split; [exact M|]. split; [exact RU|].
  destruct S as [->|(m' & e' & ->)].
  - simpl in M. subst rv. unfold B2R. simpl. split; [|reflexivity].
    destruct s; lra.
  - rewrite <- M. split; reflexivity.
Qed.

(** The difference of two finite numbers, bounded by a valid number. *)
Lemma SFsub_value (x y b : spec_float) :
  finite_SF x = true -> finite_SF y = true ->
  valid_binary b = true ->
  Rabs (B2R x - B2R y) <= mag b ->
  finite_SF (SF64sub x y) = true
  /\ Rabs (B2R (SF64sub x y)) <= mag b
  /\ (0 <= B2R x - B2R y -> 0 <= B2R (SF64sub x y))
  /\ (B2R x - B2R y <= 0 -> B2R (SF64sub x y) <= 0).
Proof.
  intros Fx Fy Vb Hb. pose proof (mag_nonneg b) as Pb.
  destruct x as [sx|sx| |sx mx ex]; try discriminate;
    destruct y as [sy|sy| |sy my ey]; try discriminate.
  - (* zero - zero *)
    assert (E : B2R (SF64sub (S754_zero sx) (S754_zero sy)) = 0).
    { destruct sx, sy; unfold B2R; simpl; lra. }
    rewrite E, Rabs_R0.
    split; [destruct sx, sy; reflexivity|]. repeat split; lra.
  - (* zero - finite *)
    assert (E : B2R (SF64sub (S754_zero sx) (S754_finite sy my ey))
                = B2R (S754_zero sx) - B2R (S754_finite sy my ey)).
    { unfold B2R. destruct sx, sy; simpl; lra. }
    rewrite E. split; [reflexivity|]. repeat split; lra.
  - (* finite - zero *)
    assert (E : B2R (SF64sub (S754_finite sx mx ex) (S754_zero sy))
                = B2R (S754_finite sx mx ex) - B2R (S754_zero sy)).
    { unfold B2R. destruct sx, sy; simpl; lra. }
    rewrite E. split; [reflexivity|]. repeat split; lra.
  - (* finite - finite *)
    unfold SF64sub, SFsub.
    set (ez := Z.min ex ey).
    destruct (shl_align_spec mx ex ez) as (mx' & ex' & Ex & Eex & Emx & _).
    destruct (shl_align_spec my ey ez) as (my' & ey' & Ey & Eey & Emy & _).
    rewrite Ex, Ey. cbn [fst].
    assert (Hx : ex' = ez) by (unfold ez in *; lia).
    assert (Hy : ey' = ez) by (unfold ez in *; lia).
    rewrite Hx in Emx. rewrite Hy in Emy. clear Eex Eey Hx Hy Ex Ey.
    set (z := (cond_Zopp sx (Zpos mx') - cond_Zopp sy (Zpos my'))%Z).
    assert (V : IZR z * bpow ez
                = B2R (S754_finite sx mx ex) - B2R (S754_finite sy my ey)).
    { unfold z. rewrite minus_IZR, !B2R_finite.
      rewrite (bpow_sub_IZR ex ez), (bpow_sub_IZR ey ez) by (unfold ez; lia).
      assert (IZR (cond_Zopp sx (Zpos mx'))
              = (if sx then - 1 else 1) * IZR (Zpos mx) * IZR (2 ^ (ex - ez))).
      { destruct sx; cbn [cond_Zopp]; cbv iota;
          rewrite ?opp_IZR, Emx, mult_IZR; ring. }
      assert (IZR (cond_Zopp sy (Zpos my'))
              = (if sy then - 1 else 1) * IZR (Zpos my) * IZR (2 ^ (ey - ez))).
      { destruct sy; cbn [cond_Zopp]; cbv iota;
          rewrite ?opp_IZR, Emy, mult_IZR; ring. }
      rewrite H, H0. destruct sx, sy; ring. }
    rewrite <- V in *. pose proof (bpow_pos ez) as Pz.
    unfold binary_normalize. destruct z as [|p|p].
    + unfold B2R. simpl. rewrite Rabs_R0. repeat split; lra.
    + destruct (binary_round_value false p ez) as (rv & RT & _).
      assert (0 < IZR (Zpos p)) by (apply IZR_lt; lia).
      rewrite Rabs_right in Hb by nra.
      destruct (rounds_to_bounded _ _ _ _ b RT Vb Hb) as (F & M & U & S & _).
      destruct RT as (R0 & _).
      rewrite S. split; [exact F|].
      rewrite Rabs_right by lra. repeat split; try lra. intro. nra.
    + destruct (binary_round_value true p ez) as (rv & RT & _).
      assert (0 < IZR (Zpos p)) by (apply IZR_lt; lia).
      assert (N : IZR (Zneg p) = - IZR (Zpos p)).
      { rewrite <- Pos2Z.opp_pos, opp_IZR. reflexivity. }
      rewrite N in *.
      rewrite Rabs_left in Hb by nra.
      replace (- (- IZR (Zpos p) * bpow ez)) with (IZR (Zpos p) * bpow ez)
        in Hb by ring.
      destruct (rounds_to_bounded _ _ _ _ b RT Vb Hb) as (F & M & U & S & _).
      destruct RT as (R0 & _).
      rewrite S. split; [exact F|].
      rewrite Rabs_Ropp, Rabs_right by lra. repeat split; try lra. intro. nra.
Qed.

(** The product of two finite valid numbers, bounded by a valid number. *)
Lemma SFmul_value (x y b : spec_float) :
  valid_binary x = true -> valid_binary y = true ->
  finite_SF x = true -> finite_SF y = true ->
  valid_binary b = true ->
  mag x * mag y <= mag b ->
  finite_SF (SF64mul x y) = true
  /\ mag (SF64mul x y) <= mag b
  /\ sign_of (SF64mul x y) = xorb (sign_of x) (sign_of y).
Proof.
  intros Vx Vy Fx Fy Vb Hb. pose proof (mag_nonneg b) as Pb.
  destruct x as [sx|sx| |sx mx ex]; try discriminate;
    destruct y as [sy|sy| |sy my ey]; try discriminate;
    try (simpl; repeat split; lra).
  destruct (SFmul_rounds sx sy mx my ex ey Vx Vy) as (rv & RT).
  destruct (rounds_to_bounded _ _ _ _ b RT Vb Hb) as (F & M & U & S & _).
  split; [exact F|]. split; [lra|].
  destruct RT as (_ & RF & _). pose proof (valid_mag_lt b Vb).
  destruct RF as (_ & _ & [E|(m' & e' & E)]); [lra| |]; rewrite E; reflexivity.
Qed.

(** Comparison agrees with the values on valid finite numbers. *)
Lemma SFltb_B2R (x y : spec_float) :
  valid_binary x = true -> valid_binary y = true ->
  finite_SF x = true -> finite_SF y = true ->
  SFltb x y = true -> B2R x < B2R y.
Proof.
  intros Vx Vy Fx Fy. unfold SFltb.
  destruct x as [sx|sx| |sx mx ex]; try discriminate;
    destruct y as [sy|sy| |sy my ey]; try discriminate.
  - pose proof (mag_finite_pos sy my ey) as P. unfold B2R. simpl in *.
    destruct sy; [discriminate|]. intros _. destruct sx; lra.
  - pose proof (mag_finite_pos sx mx ex) as P. unfold B2R. simpl in *.
    destruct sx; [|discriminate]. intros _. destruct sy; lra.
  - pose proof (mag_finite_pos sx mx ex) as Px.
    pose proof (mag_finite_pos sy my ey) as Py.
    apply valid_finite_range in Vx, Vy.
    destruct Vx as (Mx & Ex & Nx), Vy as (My & Ey & Ny).
    rewrite !B2R_finite. cbn [mag] in Px, Py.
    assert (Key : forall (m1 m2 : positive) (e1 e2 : Z),
              (Zpos m1 < 2 ^ 53)%Z -> (-1074 <= e1)%Z ->
              (e2 = -1074 \/ 2 ^ 52 <= Zpos m2)%Z ->
              (e1 < e2)%Z ->
              IZR (Zpos m1) * bpow e1 < IZR (Zpos m2) * bpow e2).
    { intros m1 m2 e1 e2 M1 E1 N2 L. destruct N2 as [?|N2]; [lia|].
      apply IZR_lt in M1. apply IZR_le in N2.
      change (2 ^ 53)%Z with (2 * 2 ^ 52)%Z in M1. rewrite mult_IZR in M1.
      assert (bpow e1 <= bpow (e2 - 1)) by (apply bpow_le; lia).
      replace e2 with (1 + (e2 - 1))%Z by lia. rewrite bpow_add, bpow_1.
      pose proof (bpow_pos e1). pose proof (bpow_pos (e2 - 1)).
      assert (0 < IZR (2 ^ 52)) by (apply IZR_lt; lia).
      assert (0 < IZR (Zpos m1)) by (apply IZR_lt; lia). nra. }
    assert (Same : forall (m1 m2 : positive) (e : Z),
              (Zpos m1 < Zpos m2)%Z ->
              IZR (Zpos m1) * bpow e < IZR (Zpos m2) * bpow e).
    { intros m1 m2 e L. apply IZR_lt in L. pose proof (bpow_pos e). nra. }
    simpl SFcompare. destruct sx, sy; try discriminate; try (intros _; lra).
    + destruct (Z.compare_spec ex ey) as [E|E|E]; try discriminate.
      * subst ey. change (Pos.compare_cont Eq mx my) with (Pos.compare mx my).
        destruct (Pos.compare_spec mx my) as [C|C|C]; try discriminate.
        intros _. pose proof (Same my mx ex ltac:(lia)). lra.
      * intros _. pose proof (Key my mx ey ex ltac:(lia) ltac:(lia) Nx E). lra.
    + destruct (Z.compare_spec ex ey) as [E|E|E]; try discriminate.
      * subst ey. change (Pos.compare_cont Eq mx my) with (Pos.compare mx my).
        destruct (Pos.compare_spec mx my) as [C|C|C]; try discriminate.
        intros _. exact (Same mx my ex ltac:(lia)).
      * intros _. exact (Key mx my ex ey ltac:(lia) ltac:(lia) Ny E).
Qed.

(** Truncation of a finite magnitude. *)
Lemma shiftl_floor (m : positive) (e : Z) :
  IZR (Z.shiftl (Zpos m) e) <= IZR (Zpos m) * bpow e
  /\ (0 <= Z.shiftl (Zpos m) e)%Z.
Proof.
  split; [|apply Z.shiftl_nonneg; lia].
  destruct (Z_le_gt_dec 0 e) as [H|H].
  - rewrite Z.shiftl_mul_pow2, mult_IZR, bpow_IZR by lia. lra.
  - rewrite Z.shiftl_div_pow2 by lia.
    assert (P : (0 < 2 ^ (- e))%Z) by (apply Z.pow_pos_nonneg; lia).
    pose proof (Z.mul_div_le (Zpos m) (2 ^ (- e)) P) as L.
    apply IZR_le in L. rewrite mult_IZR in L.
    apply IZR_lt in P.
    replace e with (- (- e))%Z at 2 by lia.
    rewrite bpow_opp, bpow_IZR by lia.
    apply (Rmult_le_reg_r (IZR (2 ^ (- e)))); [lra|].
    rewrite Rmult_assoc, Rinv_l by lra. lra.
Qed.

End Rounding.

(** ** The arithmetic of the projector, on values *)
Module Binary64.
Import Values Rounding Py.
Local Open Scope R_scope.

Lemma Rabs_le_between (a b : R) : Rabs a <= b -> - b <= a <= b.
Proof. unfold Rabs. destruct (Rcase_abs a); lra. Qed.

Lemma nonneg_value_F2R (f : float) (v : R) :
  nonneg_value f v -> F2R f = v /\ 0 <= v.
Proof.
  intros (_ & S & M). unfold F2R, B2R. rewrite S, M. split; [reflexivity|].
  rewrite <- M. apply mag_nonneg.
Qed.

(** [float(z)] is exact on the integers of at most 53 bits. *)
Lemma float_of_Z_exact (z : Z) :
  (0 <= z < 2 ^ 53)%Z -> nonneg_value (float_of_Z z) (IZR z).
Proof.
  intro Hz. destruct z as [|p|p]; [| |lia].
  - repeat split.
  - unfold float_of_Z, nonneg_value.
    rewrite of_uint63_spec, Uint63.of_Z_spec.
    rewrite Z.mod_small by (change Uint63.wB with (2 ^ 63)%Z; lia).
    cbn [binary_normalize].
    destruct (binary_round_value false p 0) as (rv & RT & EX).
    specialize (EX ltac:(lia) ltac:(lia)).
    rewrite bpow_0, Rmult_1_r in *. subst rv.
    destruct RT as (_ & RF & _).
    destruct RF as (F & M & S).
    { assert (IZR (2 ^ 53) < bpow 1024).
      { rewrite <- bpow_IZR by lia. apply bpow_lt. lia. }
      assert (IZR (Zpos p) < IZR (2 ^ 53)) by (apply IZR_lt; lia). lra. }
    split; [exact F|]. split; [|exact M].
    destruct S as [->|(m' & e' & ->)]; reflexivity.
Qed.


Lemma nonneg_value_cases (f : float) (v : R) :
  nonneg_value f v ->
  (Prim2SF f = S754_zero false /\ v = 0)
  \/ (exists (m : positive) (e : Z),
        Prim2SF f = S754_finite false m e
        /\ v = IZR (Zpos m) * bpow e /\ 0 < v).
Proof.
  intros (F & S & M). destruct (Prim2SF f) as [s|s| |s m e] eqn:E;
    try discriminate; simpl in S; subst s.
  - left. split; [reflexivity|]. symmetry. exact M.
  - right. exists m, e. split; [reflexivity|]. split; [symmetry; exact M|].
    rewrite <- M. apply mag_finite_pos.
Qed.

Lemma nonneg_value_zero (f : float) :
  Prim2SF f = S754_zero false -> nonneg_value f 0.
Proof. intro E. unfold nonneg_value. rewrite E. repeat split. Qed.

(** The constants of the projector. *)
Lemma two_SF :
  Prim2SF (float_of_Z 2) = S754_finite false 4503599627370496 (-51).
Proof. reflexivity. Qed.

Lemma one_SF : Prim2SF 1%float = S754_finite false 4503599627370496 (-52).
Proof. reflexivity. Qed.

Lemma minus_one_SF :
  Prim2SF (-1)%float = S754_finite true 4503599627370496 (-52).
Proof. reflexivity. Qed.

Lemma two_value : IZR 4503599627370496 * bpow (-51) = 2.
Proof.
  change 4503599627370496%Z with (2 ^ 52)%Z.
  rewrite <- bpow_IZR, <- bpow_add by lia. apply bpow_1.
Qed.

Lemma one_value : IZR 4503599627370496 * bpow (-52) = 1.
Proof.
  change 4503599627370496%Z with (2 ^ 52)%Z.
  rewrite <- bpow_IZR, <- bpow_add by lia. apply bpow_0.
Qed.

(** Half of a valid number that is at least one is a valid number. *)
Lemma valid_half (m : positive) (e : Z) :
  valid_binary (S754_finite false m e) = true ->
  1 <= IZR (Zpos m) * bpow e ->
  valid_binary (S754_finite false m (e - 1)) = true
  /\ mag (S754_finite false m (e - 1)) = IZR (Zpos m) * bpow e / 2.
Proof.
  intros V H1. pose proof (valid_canonical _ _ _ V) as C.
  apply valid_finite_range in V. destruct V as (M & E & _).
  assert (G : (-53 < e)%Z).
  { assert (bpow 0 < bpow (53 + e)); [|apply bpow_lt_inv in H; lia].
    rewrite bpow_0, bpow_add, bpow_IZR by lia.
    apply IZR_lt in M. pose proof (bpow_pos e). nra. }
  split.
  - unfold SpecFloat.valid_binary, SpecFloat.bounded,
      SpecFloat.canonical_mantissa.
    rewrite andb_true_iff, Z.eqb_eq, Z.leb_le, fexp64.
    change (emax - prec)%Z with 971%Z. lia.
  - cbn [mag]. replace (e - 1)%Z with (e + - (1))%Z by lia.
    rewrite bpow_add, bpow_opp, bpow_1. field.
Qed.

(** [height / 2] is exact. *)
Lemma half_exact (height : Z) :
  (0 <= height < 2 ^ 53)%Z ->
  nonneg_value (truediv height 2) (IZR height / 2).
Proof.
  intro Hh. unfold truediv.
  destruct (nonneg_value_cases _ _ (float_of_Z_exact height Hh))
    as [[E Z0]|(m & e & E & V & P)].
  - unfold nonneg_value. rewrite div_spec, E, two_SF, Z0.
    cbn. repeat split. lra.
  - pose proof (Prim2SF_valid (float_of_Z height)) as Vh. rewrite E in Vh.
    assert (H1 : 1 <= IZR (Zpos m) * bpow e).
    { rewrite <- V. apply (IZR_le 1).
      assert (0 < height)%Z by (apply lt_IZR; lra). lia. }
    destruct (valid_half m e Vh H1) as (Vb & Mb).
    destruct (SFdiv_rounds false false m 4503599627370496 e (-51)) as (rv & RT).
    rewrite two_value, <- V in RT.
    assert (Erv : rv = IZR height / 2).
    { destruct RT as (_ & _ & RU & RL & _).
      specialize (RU _ Vb). specialize (RL _ Vb).
      rewrite Mb, <- V in RU, RL. lra. }
    destruct RT as (_ & RF & _).
    destruct RF as (F & M & S).
    { rewrite Erv, V, <- Mb. apply (valid_mag_lt _ Vb). }
    unfold nonneg_value. rewrite div_spec, E, two_SF.
    split; [exact F|]. split; [|rewrite <- Erv; exact M].
    destruct S as [->|(m' & e' & ->)]; reflexivity.
Qed.


(** Clamping: whatever the sample, NaN and the infinities included, the
    clamped amplitude is a finite number of magnitude at most one. *)
Lemma clamp_range (amplitude : float) :
  let c := max (-1)%float (min 1%float amplitude) in
  finite_SF (Prim2SF c) = true /\ mag (Prim2SF c) <= 1.
Proof.
  unfold max, min.
  assert (One : finite_SF (Prim2SF 1%float) = true /\ mag (Prim2SF 1%float) <= 1).
  { rewrite one_SF. split; [reflexivity|]. cbn [mag]. rewrite one_value. lra. }
  assert (Mone : finite_SF (Prim2SF (-1)%float) = true
                 /\ mag (Prim2SF (-1)%float) <= 1).
  { rewrite minus_one_SF. split; [reflexivity|]. cbn [mag].
    rewrite one_value. lra. }
  destruct (amplitude <? 1)%float eqn:L1.
  - destruct (-1 <? amplitude)%float eqn:L2; [|exact Mone].
    rewrite ltb_spec in L1, L2. rewrite one_SF in L1. rewrite minus_one_SF in L2.
    pose proof (Prim2SF_valid amplitude) as Va.
    assert (Fa : finite_SF (Prim2SF amplitude) = true).
    { destruct (Prim2SF amplitude) as [s|[|]| |s m e];
        try reflexivity; discriminate. }
    split; [exact Fa|].
    apply SFltb_B2R in L1; try assumption; try reflexivity.
    apply SFltb_B2R in L2; try assumption; try reflexivity.
    rewrite B2R_finite, one_value in L1, L2.
    rewrite <- B2R_abs. apply Rabs_le. lra.
  - change (-1 <? 1)%float with true. exact One.
Qed.

(** [int(f)] of a finite float that is not negative: the integer part. *)
Lemma shiftl_floor_lt (m : positive) (e : Z) :
  IZR (Zpos m) * bpow e < IZR (Z.shiftl (Zpos m) e) + 1.
Proof.
  destruct (Z_le_gt_dec 0 e) as [H|H].
  - rewrite Z.shiftl_mul_pow2, mult_IZR, bpow_IZR by lia. lra.
  - rewrite Z.shiftl_div_pow2 by lia.
    assert (P : (0 < 2 ^ (- e))%Z) by (apply Z.pow_pos_nonneg; lia).
    pose proof (Z.div_mod (Zpos m) (2 ^ (- e)) ltac:(lia)) as D.
    pose proof (Z.mod_pos_bound (Zpos m) (2 ^ (- e)) P) as B.
    assert (L : (Zpos m < 2 ^ (- e) * (Zpos m / 2 ^ (- e) + 1))%Z) by lia.
    apply IZR_lt in L. rewrite mult_IZR, plus_IZR in L.
    apply IZR_lt in P.
    replace e with (- (- e))%Z at 1 by lia.
    rewrite bpow_opp, bpow_IZR by lia.
    apply (Rmult_lt_reg_r (IZR (2 ^ (- e)))); [lra|].
    rewrite Rmult_assoc, Rinv_l by lra. lra.
Qed.

Lemma int_of_float_floor (f : float) :
  finite_SF (Prim2SF f) = true -> 0 <= F2R f ->
  exists z : Z,
    int_of_float f = Ok z /\ (0 <= z)%Z /\ IZR z <= F2R f < IZR z + 1.
Proof.
  unfold int_of_float, F2R. intros F P.
  destruct (Prim2SF f) as [s|s| |s m e]; try discriminate.
  - exists 0%Z. unfold B2R. simpl. split; [reflexivity|].
    split; [lia|]. destruct s; lra.
  - pose proof (mag_finite_pos s m e) as Pm.
    destruct s; [unfold B2R in P; cbn [sign_of] in P; lra|].
    exists (Z.shiftl (Zpos m) e). cbn [cond_Zopp].
    destruct (shiftl_floor m e) as [L N]. pose proof (shiftl_floor_lt m e).
    rewrite B2R_finite. repeat split; try assumption.
Qed.

Lemma int_of_float_range (f : float) (lo hi : Z) :
  finite_SF (Prim2SF f) = true ->
  0 <= F2R f -> IZR lo <= F2R f -> F2R f < IZR hi + 1 ->
  exists z : Z,
    int_of_float f = Ok z /\ (0 <= z)%Z /\ (lo <= z <= hi)%Z.
Proof.
  intros F P L U.
  destruct (int_of_float_floor f F P) as (z & E & Z0 & ZL & ZU).
  exists z. split; [exact E|]. split; [exact Z0|]. split.
  - assert (IZR lo < IZR (z + 1)) by (rewrite plus_IZR; lra).
    apply lt_IZR in H. lia.
  - assert (IZR z < IZR (hi + 1)) by (rewrite plus_IZR; lra).
    apply lt_IZR in H. lia.
Qed.

(** The ordinate of a point: computed without error, inside the
    viewport. *)
Lemma y_at_range (height : Z) (amplitude : float) :
  (0 <= height < 2 ^ 53)%Z ->
  exists y : Z,
    Projector.y_at height amplitude = Ok y /\ (0 <= y <= height)%Z.
Proof.
  intro Hh. unfold Projector.y_at, int.
  destruct (clamp_range amplitude) as (Fc & Mc).
  set (c := max (-1)%float (min 1%float amplitude)) in *.
  pose proof (half_exact height Hh) as Hv.
  set (h2 := truediv height 2) in *.
  destruct Hv as (Fh & Sh & Mh).
  pose proof (mag_nonneg (Prim2SF c)) as Pc.
  pose proof (mag_nonneg (Prim2SF h2)) as Ph.
  (* the product *)
  destruct (SFmul_value (Prim2SF c) (Prim2SF h2) (Prim2SF h2))
    as (Fp & Mp & _); try apply Prim2SF_valid; try assumption; [nra|].
  rewrite <- mul_spec in Fp, Mp.
  set (p := (c * h2)%float) in *.
  (* the difference *)
  pose proof (float_of_Z_exact height Hh) as (FH & SH & MH).
  assert (Bh : B2R (Prim2SF h2) = IZR height / 2).
  { unfold B2R. rewrite Sh. exact Mh. }
  assert (Bp : Rabs (B2R (Prim2SF p)) <= IZR height / 2).
  { rewrite B2R_abs. lra. }
  apply Rabs_le_between in Bp.
  destruct (SFsub_value (Prim2SF h2) (Prim2SF p) (Prim2SF (float_of_Z height)))
    as (Fd & Md & Pd & _); try apply Prim2SF_valid; try assumption.
  { rewrite MH, Bh. apply Rabs_le. lra. }
  rewrite <- sub_spec in Fd, Md, Pd.
  set (d := (h2 - p)%float) in *.
  rewrite MH in Md. apply Rabs_le_between in Md.
  specialize (Pd ltac:(lra)).
  destruct (int_of_float_range d 0 height Fd Pd Pd) as (y & E & _ & R).
  { unfold F2R. lra. }
  exists y. split; [exact E|exact R].
Qed.


(** The horizontal scale [width / (num_samples - 1)]: at most the width,
    and the exact quotient up to one rounding. *)
Lemma x_scale_value (width n : Z) :
  (0 <= width < 2 ^ 53)%Z -> (1 <= n < 2 ^ 53)%Z ->
  exists vq : R,
    nonneg_value (truediv width n) vq
    /\ vq <= IZR width
    /\ Rabs (vq - IZR width / IZR n) <= IZR width / IZR n * bpow (-53).
Proof.
  intros Hw Hn. unfold truediv.
  assert (N1 : 1 <= IZR n) by (apply (IZR_le 1); lia).
  assert (N53 : IZR n < IZR (2 ^ 53)) by (apply IZR_lt; lia).
  destruct (nonneg_value_cases _ _ (float_of_Z_exact n ltac:(lia)))
    as [[_ Z0]|(mn & en & En & Vn & Pn)]; [lra|].
  destruct (nonneg_value_cases _ _ (float_of_Z_exact width Hw))
    as [[Ew Z0]|(mw & ew & Ew & Vw & Pw)].
  - exists 0. split; [|rewrite Z0; unfold Rdiv; rewrite Rmult_0_l, Rminus_diag,
                       Rabs_R0, Rmult_0_l; lra].
    apply nonneg_value_zero. rewrite div_spec, Ew, En. reflexivity.
  - pose proof (Prim2SF_valid (float_of_Z width)) as Vb. rewrite Ew in Vb.
    destruct (SFdiv_rounds false false mw mn ew en) as (rv & RT).
    rewrite <- Vw, <- Vn in RT.
    assert (Q : IZR width / IZR n <= IZR width).
    { apply (Rmult_le_reg_r (IZR n)); [lra|]. unfold Rdiv.
      rewrite Rmult_assoc, Rinv_l by lra. nra. }
    assert (Hb : IZR width / IZR n <= mag (S754_finite false mw ew)).
    { cbn [mag]. rewrite <- Vw. exact Q. }
    destruct (rounds_to_bounded _ _ _ _ _ RT Vb Hb) as (F & M & U & _ & S).
    cbn [mag] in U. rewrite <- Vw in U.
    exists rv. split; [|split; [exact U|]].
    + unfold nonneg_value. rewrite div_spec, Ew, En. repeat split; assumption.
    + destruct RT as (_ & _ & _ & _ & RE). apply RE.
      assert (bpow (-1022) <= bpow (-53)) by (apply bpow_le; lia).
      assert (bpow (-53) <= IZR width / IZR n); [|lra].
      assert (U1 : bpow (-53) * IZR (2 ^ 53) = 1).
      { rewrite <- bpow_IZR, <- bpow_add by lia. apply bpow_0. }
      assert (1 <= IZR width).
      { apply (IZR_le 1). assert (0 < width)%Z by (apply lt_IZR; lra). lia. }
      pose proof (bpow_pos (-53)).
      apply (Rmult_le_reg_r (IZR n)); [lra|]. unfold Rdiv.
      rewrite Rmult_assoc, Rinv_l by lra. nra.
Qed.

Lemma zero_SF : Prim2SF (float_of_Z 0) = S754_zero false.
Proof. reflexivity. Qed.

(** The abscissa of the point at index [i] of a chunk of [n + 1] samples. *)
Lemma x_at_range (width n i : Z) :
  (0 <= width <= 2 ^ 50)%Z -> (1 <= n < 2 ^ 53)%Z -> (0 <= i <= n)%Z ->
  exists x : Z,
    Projector.x_at width (n + 1) i = Ok x
    /\ (0 <= x <= width)%Z
    /\ (i = 0%Z -> x = 0%Z)
    /\ (i = n -> (width - 1 <= x)%Z).
Proof.
  intros Hw Hn Hi. unfold Projector.x_at, int, mul, to_float.
  replace (n + 1 - 1)%Z with n by lia.
  destruct (x_scale_value width n ltac:(lia) Hn) as (vq & Nq & Uq & Eq).
  set (q := truediv width n) in *.
  assert (Zero : Prim2SF (float_of_Z i * q) = S754_zero false ->
                 exists x : Z,
                   int_of_float (float_of_Z i * q) = Ok x
                   /\ x = 0%Z).
  { intro E. unfold int_of_float. rewrite E. eauto. }
  assert (N1 : 1 <= IZR n) by (apply (IZR_le 1); lia).
  assert (W0 : 0 <= IZR width) by (apply IZR_le; lia).
  assert (W50 : IZR width <= IZR (2 ^ 50)) by (apply IZR_le; lia).
  set (u := bpow (-53)) in *.
  assert (U0 : 0 < u) by apply bpow_pos.
  assert (U1 : u * IZR (2 ^ 53) = 1).
  { unfold u. rewrite <- bpow_IZR, <- bpow_add by lia. apply bpow_0. }
  assert (Wu : IZR width * u <= / 8).
  { change (2 ^ 53)%Z with (2 ^ 50 * 8)%Z in U1. rewrite mult_IZR in U1.
    assert (0 < IZR (2 ^ 50)) by (apply IZR_lt; lia).
    assert (IZR (2 ^ 50) * u = / 8).
    { apply (Rmult_eq_reg_r 8); [|lra]. rewrite Rinv_l by lra. lra. }
    nra. }
  destruct (nonneg_value_cases _ _ Nq) as [[Eq0 Zq]|(mq & eq & Eq1 & Vq & Pq)].
  { (* the scale is zero: every abscissa is zero, and so is the width *)
    assert (E : Prim2SF (float_of_Z i * q) = S754_zero false).
    { rewrite mul_spec, Eq0.
      destruct (nonneg_value_cases _ _ (float_of_Z_exact i ltac:(lia)))
        as [[-> _]|(mi & ei & -> & _)]; reflexivity. }
    destruct (Zero E) as (x & Ex & X0). exists x. split; [exact Ex|].
    subst x vq. split; [lia|]. split; [reflexivity|]. intros _.
    rewrite Rminus_0_l, Rabs_Ropp in Eq.
    assert (T : 0 <= IZR width / IZR n).
    { apply Rmult_le_pos; [lra|]. left. apply Rinv_0_lt_compat. lra. }
    rewrite Rabs_right in Eq by lra.
    assert (U53 : u < 1).
    { unfold u. rewrite <- bpow_0. apply bpow_lt. lia. }
    assert (IZR width / IZR n = 0) by nra.
    assert (IZR width = 0).
    { apply (Rmult_eq_reg_r (/ IZR n)); [|apply Rinv_neq_0_compat; lra].
      unfold Rdiv in H. lra. }
    apply eq_IZR in H0. lia. }
  destruct (nonneg_value_cases _ _ (float_of_Z_exact i ltac:(lia)))
    as [[Ei Zi]|(mi & ei & Ei & Vi & Pi)].
  { (* index zero *)
    assert (E : Prim2SF (float_of_Z i * q) = S754_zero false).
    { rewrite mul_spec, Ei, Eq1. reflexivity. }
    destruct (Zero E) as (x & Ex & X0). exists x. split; [exact Ex|].
    apply eq_IZR in Zi. subst x i. split; [lia|]. split; [reflexivity|]. lia. }
  (* a positive index on a positive scale *)
  pose proof (Prim2SF_valid (float_of_Z i)) as Vfi. rewrite Ei in Vfi.
  pose proof (Prim2SF_valid q) as Vfq. rewrite Eq1 in Vfq.
  destruct (SFmul_rounds false false mi mq ei eq Vfi Vfq) as (rv & RT).
  rewrite <- Vi, <- Vq in RT.
  set (t := IZR width / IZR n) in *.
  assert (Tn : t * IZR n = IZR width).
  { unfold t, Rdiv. rewrite Rmult_assoc, Rinv_l by lra. lra. }
  apply Rabs_le_between in Eq.
  assert (T0 : 0 <= t).
  { unfold t. apply Rmult_le_pos; [lra|]. left. apply Rinv_0_lt_compat. lra. }
  assert (I1 : 1 <= IZR i).
  { apply (IZR_le 1). assert (0 < i)%Z by (apply lt_IZR; lra). lia. }
  assert (In : IZR i <= IZR n) by (apply IZR_le; lia).
  assert (U53 : u <= / 8).
  { change (2 ^ 53)%Z with (8 * 2 ^ 50)%Z in U1. rewrite mult_IZR in U1.
    assert (1 <= IZR (2 ^ 50)) by (apply (IZR_le 1); lia).
    assert (u * 8 <= 1) by nra. lra. }
  (* the exact product is at most the width, up to one rounding *)
  assert (V1 : IZR i * vq <= IZR width + / 8).
  { assert (IZR i * vq <= IZR n * vq) by nra.
    assert (IZR n * vq <= IZR n * (t + t * u)) by nra.
    nra. }
  assert (V0 : bpow (-1022) <= IZR i * vq).
  { assert (bpow (-1022) <= bpow (-54)) by (apply bpow_le; lia).
    assert (bpow (-54) <= vq); [|nra].
    assert (Hw1 : 1 <= IZR width).
    { apply (IZR_le 1).
      assert (0 < width)%Z; [|lia].
      apply lt_IZR. destruct (Rle_lt_or_eq_dec _ _ W0) as [|Z]; [assumption|].
      exfalso. rewrite <- Z in Tn. assert (t = 0) by nra. nra. }
    assert (bpow (-53) <= t).
    { fold u. apply (Rmult_le_reg_r (IZR (2 ^ 53))).
      { apply IZR_lt. lia. }
      rewrite U1. assert (IZR n < IZR (2 ^ 53)) by (apply IZR_lt; lia).
      assert (0 < IZR (2 ^ 53)) by (apply IZR_lt; lia). nra. }
    replace (-54)%Z with (-53 + - (1))%Z by lia.
    rewrite bpow_add, bpow_opp, bpow_1. fold u in H0 |- *. nra. }
  destruct RT as (R0 & RF & _ & _ & RE).
  specialize (RE V0). apply Rabs_le_between in RE. fold u in RE.
  assert (RV : rv < IZR width + 1) by nra.
  destruct RF as (F & M & S).
  { assert (IZR (2 ^ 50) + 1 < bpow 1024); [|lra].
    assert (bpow 51 < bpow 1024) by (apply bpow_lt; lia).
    rewrite (bpow_IZR 51) in H by lia.
    change (2 ^ 51)%Z with (2 * 2 ^ 50)%Z in H. rewrite mult_IZR in H.
    assert (1 <= IZR (2 ^ 50)) by (apply (IZR_le 1); lia). lra. }
  rewrite <- Ei, <- Eq1, <- mul_spec in F, M, S.
  assert (B : F2R (float_of_Z i * q) = rv).
  { unfold F2R, B2R. rewrite <- M.
    destruct S as [->|(m' & e' & ->)]; reflexivity. }
  destruct (Z.eq_dec i n) as [En|En].
  - assert (L : IZR (width - 1) <= F2R (float_of_Z i * q)).
    { rewrite B, minus_IZR. subst i.
      assert (IZR n * vq >= IZR width - / 8) by nra. nra. }
    destruct (int_of_float_range _ (width - 1) width F) as (x & Ex & X0 & XR);
      [rewrite B; lra|exact L|rewrite B; exact RV|].
    exists x. split; [exact Ex|]. split; [lia|]. split; [lia|]. intros _. lia.
  - destruct (int_of_float_range _ 0 width F) as (x & Ex & X0 & XR);
      [rewrite B; lra|rewrite B; lra|rewrite B; exact RV|].
    exists x. split; [exact Ex|]. split; [lia|]. split; [|intro; contradiction].
    intro I0. subst i. simpl in I1. lra.
Qed.

End Binary64.

(** ** The waveform projector *)
Module ProjectorTheory.
Import Py Projector Values Binary64.

(** The loop: one point per sample, in order, as long as no conversion
    raises. *)
Lemma points_loop_spec (x_scale : num) (center_y max_amplitude : float)
    (data_chunk : list float) :
  forall (i : Z) (points : list point),
    (forall (k : nat) (a : float),
       nth_error data_chunk k = Some a ->
       exists x y : Z,
         int (mul (Int (i + Z.of_nat k)) x_scale) = Ok x
         /\ int (Float (center_y
                        - max (-1)%float (min 1%float a) * max_amplitude)%float)
            = Ok y) ->
    exists new : list point,
      points_loop x_scale center_y max_amplitude i data_chunk points
      = Ok (points ++ new)
      /\ List.length new = List.length data_chunk
      /\ forall (k : nat) (a : float),
           nth_error data_chunk k = Some a ->
           exists x y : Z,
             nth_error new k = Some (x, y)
             /\ int (mul (Int (i + Z.of_nat k)) x_scale) = Ok x
             /\ int (Float (center_y
                            - max (-1)%float (min 1%float a) * max_amplitude)%float)
                = Ok y.
Proof.
  induction data_chunk as [|a rest IH]; intros i points Hok.
  - exists []. rewrite app_nil_r. split; [reflexivity|]. split; [reflexivity|].
    intros [|k] b Hb; discriminate.
  - destruct (Hok 0%nat a eq_refl) as (x & y & Ex & Ey).
    replace (i + Z.of_nat 0)%Z with i in Ex by lia.
    cbn [points_loop]. rewrite Ex. cbn [bind]. rewrite Ey. cbn [bind].
    destruct (IH (i + 1)%Z (points ++ [(x, y)])) as (new & E & L & Hn).
    { intros k b Hb. destruct (Hok (S k) b Hb) as (x' & y' & Ex' & Ey').
      exists x', y'. split; [|exact Ey'].
      replace (i + 1 + Z.of_nat k)%Z with (i + Z.of_nat (S k))%Z by lia.
      exact Ex'. }
    exists ((x, y) :: new). rewrite E, <- app_assoc. split; [reflexivity|].
    split; [simpl; lia|].
    intros [|k] b Hb.
    + injection Hb as <-. exists x, y.
      replace (i + Z.of_nat 0)%Z with i by lia. repeat split; assumption.
    + destruct (Hn k b Hb) as (x' & y' & N' & Ex' & Ey').
      exists x', y'. split; [exact N'|]. split; [|exact Ey'].
      replace (i + Z.of_nat (S k))%Z with (i + 1 + Z.of_nat k)%Z by lia.
      exact Ex'.
Qed.


(** On a chunk of more than one sample the projector raises nothing and
    returns one point per sample, the one the two conversions give. *)
Lemma projector_runs (data_chunk : list float) (width height : Z) :
  (1 < Z.of_nat (List.length data_chunk) < 2 ^ 53)%Z ->
  (0 <= width <= 2 ^ 50)%Z ->
  (0 <= height < 2 ^ 53)%Z ->
  exists pts : list point,
    generate_waveform_points data_chunk width height = Ok pts
    /\ List.length pts = List.length data_chunk
    /\ (forall (i : nat) (a : float),
          nth_error data_chunk i = Some a ->
          exists x y : Z,
            nth_error pts i = Some (x, y)
            /\ x_at width (Z.of_nat (List.length data_chunk)) (Z.of_nat i) = Ok x
            /\ y_at height a = Ok y).
Proof.
  intros HN Hw Hh.
  set (N := Z.of_nat (List.length data_chunk)) in *.
  destruct (points_loop_spec (Float (truediv width (N - 1)))
              (truediv height 2) (truediv height 2) data_chunk 0 [])
    as (new & E & L & Hp).
  { intros k a Hk.
    destruct (x_at_range width (N - 1) (Z.of_nat k)) as (x & Ex & _);
      try lia.
    { assert (k < List.length data_chunk)%nat
        by (apply nth_error_Some; congruence).
      unfold N. lia. }
    replace (N - 1 + 1)%Z with N in Ex by lia.
    destruct (y_at_range height a Hh) as (y & Ey & _).
    exists x, y. split; [exact Ex|exact Ey]. }
  simpl app in E. exists new. split; [|split; [exact L|]].
  - unfold generate_waveform_points. fold N.
    destruct (Z.eqb_spec N 0) as [|_]; [lia|].
    destruct (Z.ltb_spec 1 N) as [_|]; [|lia].
    rewrite E. cbn [bind].
    destruct new as [|p [|p' new']]; try reflexivity.
    simpl in L. unfold N in HN. lia.
  - intros i a Hi. destruct (Hp i a Hi) as (x & y & Ni & Ex & Ey).
    exists x, y. split; [exact Ni|]. split; [exact Ex|exact Ey].
Qed.



(** C7. The degenerate chunks.  The empty chunk gives the empty sequence.
    A chunk of one sample gives two identical points (for any width; the
    height within [2^53]).  And whenever the chunk holds a sample the
    projector returns at least two points. *)
Theorem projector_degenerate_cases :
  (forall width height : Z, generate_waveform_points [] width height = Ok [])
  /\ (forall (a : float) (width height : Z),
        (0 <= height < 2 ^ 53)%Z ->
        exists p : point,
          generate_waveform_points [a] width height = Ok [p; p]
          /\ fst p = 0%Z /\ y_at height a = Ok (snd p))
  /\ (forall (data_chunk : list float) (width height : Z),
        data_chunk <> [] ->
        (Z.of_nat (List.length data_chunk) < 2 ^ 53)%Z ->
        (0 <= width <= 2 ^ 50)%Z ->
        (0 <= height < 2 ^ 53)%Z ->
        exists pts : list point,
          generate_waveform_points data_chunk width height = Ok pts
          /\ (2 <= List.length pts)%nat).
Proof.
  assert (One : forall (a : float) (width height : Z),
            (0 <= height < 2 ^ 53)%Z ->
            exists p : point,
              generate_waveform_points [a] width height = Ok [p; p]
              /\ fst p = 0%Z /\ y_at height a = Ok (snd p)).
  { intros a width height Hh.
    destruct (y_at_range height a Hh) as (y & Ey & _).
    exists (0%Z, y). split; [|split; [reflexivity|exact Ey]].
    unfold generate_waveform_points. cbn [List.length Z.of_nat].
    change (Z.pos (Pos.of_succ_nat 0) =? 0)%Z with false.
    change (1 <? Z.pos (Pos.of_succ_nat 0))%Z with false.
    cbv iota. cbn [points_loop mul int bind Z.mul].
    change (int_of_float (truediv height 2
                          - max (-1)%float (min 1%float a) * truediv height 2)%float)
      with (y_at height a).
    rewrite Ey. reflexivity. }
  split; [reflexivity|]. split; [exact One|].
  intros data_chunk width height Hne HN Hw Hh.
  destruct data_chunk as [|a [|b rest]]; [contradiction| |].
  - destruct (One a width height Hh) as (p & E & _).
    exists [p; p]. split; [exact E|]. simpl. lia.
  - destruct (projector_runs (a :: b :: rest) width height)
      as (pts & E & L & _); try assumption.
    { split; [|exact HN]. simpl List.length. lia. }
    exists pts. split; [exact E|]. rewrite L. simpl. lia.
Qed.

Lemma projector_degenerate_cases_witness :
  exists p : point,
    generate_waveform_points [0.25]%float 1000 500 = Ok [p; p].
Proof.
  destruct (proj1 (proj2 projector_degenerate_cases) 0.25%float 1000%Z 500%Z)
    as (p & E & _).
  - lia.
  - exists p. exact E.
Defined.

End ProjectorTheory.

(** ** What the render loop holds after a history of the hand-off *)
Module HandOffTheory.
Import Bridge History.

Section Facts.

Variables sample level : Type.
Variable calculate_rms_dbfs : list sample -> level.
Variable zeros : list sample.
Variable neg_inf : level.

Local Abbreviation globals := (globals sample level).
Local Abbreviation op := (op sample).
Local Abbreviation run := (run calculate_rms_dbfs).
Local Abbreviation get_audio_data := (get_audio_data calculate_rms_dbfs).
Local Abbreviation startup := (startup zeros neg_inf).

Lemma submitted_snoc (ops : list op) (o : op) :
  submitted (ops ++ [o])
  = submitted ops ++ match o with
                     | submit indata _ => [first_channel indata]
                     | consume => []
                     end.
Proof.
  unfold submitted. rewrite flat_map_app. simpl. rewrite app_nil_r.
  reflexivity.
Qed.

Lemma run_snoc (ops : list op) (o : op) (g : globals) :
  run (ops ++ [o]) g = step calculate_rms_dbfs (run ops g) o.
Proof. unfold Bridge.run. rewrite fold_left_app. reflexivity. Qed.

(** A history that submits nothing leaves the globals as they start. *)
Lemma nothing_submitted (ops : list op) :
  submitted ops = [] -> run ops startup = startup.
Proof.
  intro H. apply BridgeTheory.run_only_polls.
  induction ops as [|o ops IH]; [constructor|].
  destruct o as [indata status|]; [discriminate|].
  constructor; [reflexivity|]. apply IH. exact H.
Qed.

(** The newest chunk in the program, queued or held, is the newest one
    submitted; and the level held is the level of the chunk held once a
    chunk has been taken. *)
Lemma newest_and_level (ops : list op) :
  let g := run ops startup in
  last (audio_q g) (latest_data_chunk g) = last (submitted ops) zeros
  /\ ((audio_q g = submitted ops
       /\ last_rms_dbfs g = neg_inf /\ latest_data_chunk g = zeros)
      \/ last_rms_dbfs g = calculate_rms_dbfs (latest_data_chunk g)).
Proof.
  induction ops as [|o ops IH] using rev_ind.
  - simpl. split; [reflexivity|]. left. repeat split.
  - cbv zeta in *. rewrite run_snoc, submitted_snoc.
    destruct (BridgeTheory.run_queue _ _ calculate_rms_dbfs ops startup
                (BridgeTheory.coherent_startup _ _ zeros neg_inf))
      as [Hc _].
    set (g := run ops startup) in *. destruct IH as [HL HV].
    destruct o as [indata status|]; simpl.
    + rewrite !last_last. split; [reflexivity|].
      destruct HV as [(Q & V & Z)|V]; [left|right; exact V].
      rewrite Q. repeat split; assumption.
    + rewrite app_nil_r. unfold Bridge.get_audio_data.
      destruct (new_data_available g) eqn:F.
      * rewrite BridgeTheory.drain_last. simpl.
        split; [exact HL|]. right. reflexivity.
      * split; [exact HL|exact HV].
Qed.

Lemma callbacks_keep_display (blocks : list (list (frame sample) * option string))
    (g : globals) :
  latest_data_chunk (run (submits blocks) g) = latest_data_chunk g
  /\ last_rms_dbfs (run (submits blocks) g) = last_rms_dbfs g.
Proof.
  revert g. induction blocks as [|b blocks IH]; intro g; [split; reflexivity|].
  simpl. destruct (IH (audio_callback (fst b) (snd b) g)) as [-> ->].
  split; reflexivity.
Qed.

Lemma stderr_run (ops : list op) (g : globals) :
  stderr (run ops g) = stderr g ++ statuses ops.
Proof.
  revert g. induction ops as [|o ops IH]; intro g.
  - simpl. rewrite app_nil_r. reflexivity.
  - change (run (o :: ops) g) with (run ops (step calculate_rms_dbfs g o)).
    rewrite IH. destruct o as [indata [s|]|]; simpl.
    + rewrite <- app_assoc. reflexivity.
    + reflexivity.
    + unfold Bridge.get_audio_data.
      destruct (new_data_available g); [|reflexivity].
      destruct (drain (audio_q g) (latest_data_chunk g)). reflexivity.
Qed.

End Facts.

(** X1. What is on display.  After any history that ends with a poll and
    then any number of callbacks, the render loop holds in
    [latest_data_chunk] the newest chunk submitted before that poll (the
    start-up chunk of zeros when none was), whatever was submitted after
    it; and [last_rms_dbfs] is the level of that very chunk, or the
    start-up value when no chunk was ever submitted before the poll.
    Before the first poll the two hold their start-up values. *)
Theorem display_holds_newest_chunk_before_last_poll
    (sample level : Type) (calculate_rms_dbfs : list sample -> level)
    (zeros : list sample) (neg_inf : level)
    (pre : list (op sample))
    (later : list (list (frame sample) * option string)) :
  (let g := run calculate_rms_dbfs (pre ++ consume :: submits later)
              (startup zeros neg_inf) in
   latest_data_chunk g = last (submitted pre) zeros
   /\ last_rms_dbfs g
      = match submitted pre with
        | [] => neg_inf
        | _ :: _ => calculate_rms_dbfs (last (submitted pre) zeros)
        end)
  /\ (let g := run calculate_rms_dbfs (submits later)
                 (startup zeros neg_inf) in
      latest_data_chunk g = zeros /\ last_rms_dbfs g = neg_inf).
Proof.
  split; cbv zeta.
  - rewrite BridgeTheory.run_app.
    change (Bridge.run calculate_rms_dbfs (consume :: submits later) ?g)
      with (Bridge.run calculate_rms_dbfs (submits later)
              (get_audio_data calculate_rms_dbfs g)).
    destruct (callbacks_keep_display _ _ calculate_rms_dbfs later
                (get_audio_data calculate_rms_dbfs
                   (run calculate_rms_dbfs pre (startup zeros neg_inf))))
      as [-> ->].
    destruct (submitted pre) as [|c cs] eqn:S.
    + rewrite (nothing_submitted _ _ calculate_rms_dbfs zeros neg_inf pre S).
      split; reflexivity.
    + destruct (newest_and_level _ _ calculate_rms_dbfs zeros neg_inf pre)
        as [HL HV].
      destruct (BridgeTheory.run_queue _ _ calculate_rms_dbfs pre
                  (startup zeros neg_inf)
                  (BridgeTheory.coherent_startup _ _ zeros neg_inf))
        as [Hc Hq].
      set (g := run calculate_rms_dbfs pre (startup zeros neg_inf)) in *.
      rewrite S in HL, HV. unfold coherent in Hc.
      unfold get_audio_data.
      destruct (new_data_available g) eqn:F.
      * rewrite BridgeTheory.drain_last.
        cbn [latest_data_chunk last_rms_dbfs].
        split; [exact HL|]. f_equal. exact HL.
      * assert (Q : audio_q g = []).
        { destruct (audio_q g); [reflexivity|discriminate]. }
        rewrite Q in HL, HV. simpl in HL.
        destruct HV as [(Q' & _)|V]; [discriminate|].
        rewrite V, HL. split; reflexivity.
  - destruct (callbacks_keep_display _ _ calculate_rms_dbfs later
                (startup zeros neg_inf)) as [-> ->].
    split; reflexivity.
Qed.

(** X2. The callback's log.  After any history, standard error holds the
    status of every flagged block, once each and in the order the blocks
    arrived; unflagged blocks and polls write nothing. *)
Theorem stderr_holds_flagged_statuses_in_order
    (sample level : Type) (calculate_rms_dbfs : list sample -> level)
    (zeros : list sample) (neg_inf : level) (ops : list (op sample)) :
  stderr (run calculate_rms_dbfs ops (startup zeros neg_inf)) = statuses ops.
Proof.
  rewrite stderr_run. reflexivity.
Qed.

End HandOffTheory.

(** ** The two threads interleaved *)
Module InterleavingTheory.
Import Bridge Interleaving.

Section Facts.

Variables sample level : Type.
Variable calculate_rms_dbfs : list sample -> level.

Local Abbreviation globals := (globals sample level).
Local Abbreviation world := (world sample level).
Local Abbreviation exec_all := (exec_all calculate_rms_dbfs).
Local Abbreviation get_audio_data := (get_audio_data calculate_rms_dbfs).

Lemma exec_all_app (a b : list (action sample)) (w : world) :
  exec_all (a ++ b) w
  = match exec_all a w with
    | Some w' => exec_all b w'
    | None => None
    end.
Proof.
  revert w. induction a as [|x a IH]; intro w; [reflexivity|].
  simpl. destruct (exec calculate_rms_dbfs x w); [apply IH|reflexivity].
Qed.

(** The loop of lines 154-155, run to its end. *)
Lemma loop_drains (q : list (list sample)) :
  forall (held : list sample) (l : level) (f : bool) (err : list string)
         (cb : callback_pc),
    exec_all (repeat r_get (S (List.length q)))
      (mkWorld (mkGlobals q held l f err) at_loop cb)
    = Some (mkWorld (mkGlobals [] (snd (drain q held)) l f err) at_level cb).
Proof.
  induction q as [|c q IH]; intros held l f err cb; [reflexivity|].
  change (repeat r_get (S (List.length (c :: q))))
    with (@r_get sample :: repeat r_get (S (List.length q))).
  cbn [Interleaving.exec_all exec shared render callback audio_q
       latest_data_chunk last_rms_dbfs new_data_available stderr].
  rewrite IH. reflexivity.
Qed.

Variable zeros : list sample.
Variable neg_inf : level.

Local Abbreviation kept := (kept calculate_rms_dbfs zeros neg_inf).

Lemma queued_cons (a : action sample) (trace : list (action sample)) :
  queued (a :: trace) = queued [a] ++ queued trace.
Proof. unfold queued. simpl. rewrite app_nil_r. reflexivity. Qed.

Lemma exec_keeps (a : action sample) (w w' : world)
    (chunks : list (list sample)) :
  kept w chunks ->
  exec calculate_rms_dbfs a w = Some w' ->
  kept w' (chunks ++ queued [a]).
Proof.
  unfold Interleaving.kept.
  intros [(n & Hn & Hq & Hl) Hv] E.
  destruct w as [g r cb]. cbn [shared render] in *.
  destruct a as [indata status| | | | |]; cbn [queued flat_map app];
    rewrite ?app_nil_r.
  - (* the callback queues a chunk *)
    destruct cb; [|destruct r; discriminate].
    assert (E' : w' = mkWorld
                       (mkGlobals (audio_q g ++ [first_channel indata])
                          (latest_data_chunk g) (last_rms_dbfs g)
                          (new_data_available g)
                          match status with
                          | Some s => stderr g ++ [s]
                          | None => stderr g
                          end) r at_flag).
    { destruct r; injection E as <-; reflexivity. }
    subst w'. cbn [shared render audio_q latest_data_chunk last_rms_dbfs].
    split; [|exact Hv].
    exists n. rewrite length_app. split; [lia|].
    rewrite Hq, skipn_app, firstn_app.
    replace (n - List.length chunks)%nat with 0%nat by lia.
    simpl. rewrite app_nil_r. split; [reflexivity|exact Hl].
  - (* the callback raises the flag *)
    destruct cb; [destruct r; discriminate|].
    assert (E' : w' = mkWorld
                       (mkGlobals (audio_q g) (latest_data_chunk g)
                          (last_rms_dbfs g) true (stderr g)) r at_entry).
    { destruct r; injection E as <-; reflexivity. }
    subst w'. cbn [shared render audio_q latest_data_chunk last_rms_dbfs].
    split; [|exact Hv]. exists n. repeat split; assumption.
  - (* the test *)
    destruct r; try discriminate. injection E as <-.
    cbn [shared render]. split; [exists n; repeat split; assumption|].
    intro R. apply Hv. left. reflexivity.
  - (* one pass of the loop *)
    destruct r; try discriminate. cbn [exec shared render callback] in E.
    destruct (audio_q g) as [|c q] eqn:Q.
    + injection E as <-. cbn [shared render].
      split; [exists n; rewrite ?Q; repeat split; assumption|].
      intros [R|R]; discriminate R.
    + injection E as <-. cbn [shared render audio_q latest_data_chunk].
      split; [|intros [R|R]; discriminate R].
      assert (Ln : (n < List.length chunks)%nat).
      { destruct (Nat.eq_dec n (List.length chunks)) as [->|]; [|lia].
        rewrite skipn_all in Hq. discriminate. }
      exists (S n). split; [lia|].
      assert (Sk : skipn (S n) chunks = q).
      { replace (S n) with (1 + n)%nat by lia.
        rewrite <- skipn_skipn, <- Hq. reflexivity. }
      split; [symmetry; exact Sk|].
      rewrite <- (firstn_skipn n chunks) at 1.
      rewrite <- Hq, firstn_app, firstn_firstn.
      rewrite Nat.min_r by lia.
      rewrite length_firstn, Nat.min_l by lia.
      replace (S n - n)%nat with 1%nat by lia. simpl firstn.
      rewrite last_last. reflexivity.
  - (* the level *)
    destruct r; try discriminate. injection E as <-.
    cbn [shared render audio_q latest_data_chunk last_rms_dbfs].
    split; [exists n; repeat split; assumption|].
    intros _. right. reflexivity.
  - (* the reset *)
    destruct r; try discriminate. injection E as <-.
    cbn [shared render audio_q latest_data_chunk last_rms_dbfs].
    split; [exists n; repeat split; assumption|].
    intros _. apply Hv. right. reflexivity.
Qed.

Lemma exec_all_keeps (trace : list (action sample)) :
  forall (w w' : world) (chunks : list (list sample)),
    kept w chunks ->
    exec_all trace w = Some w' ->
    kept w' (chunks ++ queued trace).
Proof.
  induction trace as [|a trace IH]; intros w w' chunks K E.
  - injection E as <-. simpl. rewrite app_nil_r. exact K.
  - cbn [Interleaving.exec_all] in E.
    destruct (exec calculate_rms_dbfs a w) as [w1|] eqn:E1; [|discriminate].
    pose proof (IH w1 w' _ (exec_keeps a w w1 chunks K E1) E) as K'.
    rewrite queued_cons, app_assoc. exact K'.
Qed.

End Facts.

(** X3. The atomic steps of the hand-off are the uninterrupted runs of
    the statements: from any globals, the statements of one pass through
    the "Get Audio Data" block, run with no callback statement between
    them, end where [get_audio_data] ends, and the two statements of a
    callback, run together, end where [audio_callback] ends. *)
Theorem uninterrupted_statements_are_the_atomic_steps
    (sample level : Type) (calculate_rms_dbfs : list sample -> level)
    (g : globals sample level) :
  (forall cb : callback_pc,
     exec_all calculate_rms_dbfs (block g) (mkWorld g at_test cb)
     = Some (mkWorld (get_audio_data calculate_rms_dbfs g) at_test cb))
  /\ (forall (indata : list (frame sample)) (status : option string)
             (r : render_pc),
        exec_all calculate_rms_dbfs [cb_put indata status; cb_flag]
          (mkWorld g r at_entry)
        = Some (mkWorld (audio_callback indata status g) r at_entry)).
Proof.
  split.
  - intro cb. unfold block, get_audio_data.
    destruct g as [q held l f err]. simpl new_data_available.
    simpl audio_q. simpl latest_data_chunk.
    destruct f.
    + cbn [exec_all exec shared render callback new_data_available].
      rewrite exec_all_app, loop_drains.
      rewrite BridgeTheory.drain_last. reflexivity.
    + reflexivity.
  - intros indata status r. destruct r; reflexivity.
Qed.

(** X4. A notification can be lost.  Let a callback deliver block A, and
    let the render loop take it: test, loop, level.  If the callback for
    the next block B runs now, before the loop resets the flag (line 157
    after line 156), the reset takes B's notification down with A's: B is
    left in the queue with the flag down.  The loop goes on showing A,
    through every later pass of the block, until another callback comes;
    and then it takes that callback's block and discards B, which is
    never shown. *)
Theorem callback_before_reset_loses_its_notification
    (sample level : Type) (calculate_rms_dbfs : list sample -> level)
    (zeros : list sample) (neg_inf : level)
    (A B C : list (frame sample)) (sA sB sC : option string) :
  exists g : globals sample level,
    exec_all calculate_rms_dbfs
      [cb_put A sA; cb_flag; r_test; r_get; r_get; r_level;
       cb_put B sB; cb_flag; r_reset]
      (mkWorld (startup zeros neg_inf) at_test at_entry)
    = Some (mkWorld g at_test at_entry)
    /\ audio_q g = [first_channel B]
    /\ new_data_available g = false
    /\ latest_data_chunk g = first_channel A
    /\ (forall n : nat,
          run calculate_rms_dbfs (repeat consume n) g = g)
    /\ (let g' := run calculate_rms_dbfs [submit C sC; consume] g in
        latest_data_chunk g' = first_channel C /\ audio_q g' = []).
Proof.
  exists (mkGlobals [first_channel B] (first_channel A)
            (calculate_rms_dbfs (first_channel A)) false
            (History.statuses [submit A sA; submit B sB])).
  split; [destruct sA, sB; reflexivity|].
  split; [reflexivity|]. split; [reflexivity|]. split; [reflexivity|].
  split.
  - induction n as [|n IH]; [reflexivity|]. exact IH.
  - split; reflexivity.
Qed.

(** X5. In every interleaving.  However the statements of the callback
    and of the render loop interleave, from start-up on: the chunks are
    taken from the queue in the order they were queued, none is made up,
    and the chunk the loop holds is the last one taken (the start-up zeros
    before any was): the queue is always what is left of the chunks queued
    so far after the first [n] of them.  And whenever the loop is before
    the test of the block, which is where it is while it draws, or before
    the reset, the level it holds is the level of the chunk it holds, or
    both still have their start-up values: the colour never belongs to
    another chunk than the waveform. *)
Theorem every_interleaving_takes_chunks_in_order
    (sample level : Type) (calculate_rms_dbfs : list sample -> level)
    (zeros : list sample) (neg_inf : level)
    (trace : list (action sample)) (w : world sample level) :
  exec_all calculate_rms_dbfs trace
    (mkWorld (startup zeros neg_inf) at_test at_entry) = Some w ->
  (exists n : nat,
     (n <= List.length (queued trace))%nat
     /\ audio_q (shared w) = skipn n (queued trace)
     /\ latest_data_chunk (shared w) = last (firstn n (queued trace)) zeros)
  /\ (render w = at_test \/ render w = at_reset ->
      (latest_data_chunk (shared w) = zeros
       /\ last_rms_dbfs (shared w) = neg_inf)
      \/ last_rms_dbfs (shared w)
         = calculate_rms_dbfs (latest_data_chunk (shared w))).
Proof.
  intro E.
  apply (exec_all_keeps _ _ calculate_rms_dbfs zeros neg_inf trace
           (mkWorld (startup zeros neg_inf) at_test at_entry) w [] ); [|exact E].
  split.
  - exists 0%nat. repeat split. simpl. lia.
  - intros _. left. split; reflexivity.
Qed.

Lemma every_interleaving_takes_chunks_in_order_witness :
  (exists n : nat,
     (n <= List.length (queued [cb_put [(true, [])] None; cb_flag; r_test; r_get]))%nat
     /\ @nil (list bool)
        = skipn n (queued [cb_put [(true, [])] None; cb_flag; r_test; r_get])
     /\ [true]
        = last (firstn n (queued [cb_put [(true, [])] None; cb_flag; r_test; r_get]))
            [false])
  /\ (at_loop = at_test \/ at_loop = at_reset ->
      ([true] = [false] /\ 0%nat = 0%nat)
      \/ 0%nat = List.length [true]).
Proof.
  exact (every_interleaving_takes_chunks_in_order bool nat
           (fun c => List.length c) [false] 0%nat
           [cb_put [(true, [])] None; cb_flag; r_test; r_get]
           (mkWorld (mkGlobals [] [true] 0%nat true []) at_loop at_entry)
           eq_refl).
Defined.

End InterleavingTheory.

(** ** The projector at the edges: clamped samples and silence *)
Module ProjectorEdges.
Import Py Projector Values Rounding Binary64.
Local Open Scope R_scope.

(** A rounding whose exact value is a binary64 number returns it. *)
Lemma rounds_to_exact (r : spec_float) (s : bool) (v rv : R)
    (b : spec_float) :
  rounds_to r s v rv ->
  valid_binary b = true -> v = mag b ->
  finite_SF r = true /\ mag r = mag b
  /\ B2R r = (if s then - mag b else mag b) /\ sign_of r = s.
Proof.
  intros RT Vb Hv.
  destruct (rounds_to_bounded r s v rv b RT Vb ltac:(lra))
    as (F & M & U & B & S).
  destruct RT as (_ & _ & _ & RL & _). specialize (RL b Vb ltac:(lra)).
  assert (E : rv = mag b) by lra. rewrite E in M, B.
  split; [exact F|]. split; [exact M|]. split; [exact B|exact S].
Qed.

Lemma SFmul_exact (x y b : spec_float) :
  valid_binary x = true -> valid_binary y = true ->
  finite_SF x = true -> finite_SF y = true ->
  valid_binary b = true ->
  mag x * mag y = mag b ->
  finite_SF (SF64mul x y) = true
  /\ mag (SF64mul x y) = mag b
  /\ sign_of (SF64mul x y) = xorb (sign_of x) (sign_of y).
Proof.
  intros Vx Vy Fx Fy Vb Hb.
  destruct x as [sx|sx| |sx mx ex]; try discriminate;
    destruct y as [sy|sy| |sy my ey]; try discriminate;
    try (simpl in *; repeat split; lra).
  destruct (SFmul_rounds sx sy mx my ex ey Vx Vy) as (rv & RT).
  destruct (rounds_to_exact _ _ _ _ b RT Vb Hb) as (F & M & _ & S).
  repeat split; assumption.
Qed.

(** A difference that is a binary64 number is computed exactly. *)
Lemma SFsub_exact (x y b : spec_float) :
  finite_SF x = true -> finite_SF y = true ->
  valid_binary b = true ->
  B2R x - B2R y = mag b ->
  finite_SF (SF64sub x y) = true /\ B2R (SF64sub x y) = mag b.
Proof.
  intros Fx Fy Vb Hb. pose proof (mag_nonneg b) as Pb.
  destruct x as [sx|sx| |sx mx ex]; try discriminate;
    destruct y as [sy|sy| |sy my ey]; try discriminate.
  - assert (E : B2R (SF64sub (S754_zero sx) (S754_zero sy)) = 0).
    { destruct sx, sy; unfold B2R; simpl; lra. }
    rewrite E. split; [destruct sx, sy; reflexivity|].
    rewrite <- Hb. destruct sx, sy; unfold B2R; simpl; lra.
  - split; [reflexivity|]. rewrite <- Hb.
    unfold B2R. destruct sx, sy; simpl; lra.
  - split; [reflexivity|]. rewrite <- Hb.
    unfold B2R. destruct sx, sy; simpl; lra.
  - unfold SF64sub, SFsub.
    set (ez := Z.min ex ey).
    destruct (shl_align_spec mx ex ez) as (mx' & ex' & Ex & Eex & Emx & _).
    destruct (shl_align_spec my ey ez) as (my' & ey' & Ey & Eey & Emy & _).
    rewrite Ex, Ey. cbn [fst].
    assert (Hx : ex' = ez) by (unfold ez in *; lia).
    assert (Hy : ey' = ez) by (unfold ez in *; lia).
    rewrite Hx in Emx. rewrite Hy in Emy. clear Eex Eey Hx Hy Ex Ey.
    set (z := (cond_Zopp sx (Zpos mx') - cond_Zopp sy (Zpos my'))%Z).
    assert (V : IZR z * bpow ez
                = B2R (S754_finite sx mx ex) - B2R (S754_finite sy my ey)).
    { unfold z. rewrite minus_IZR, !B2R_finite.
      rewrite (bpow_sub_IZR ex ez), (bpow_sub_IZR ey ez) by (unfold ez; lia).
      assert (IZR (cond_Zopp sx (Zpos mx'))
              = (if sx then - 1 else 1) * IZR (Zpos mx) * IZR (2 ^ (ex - ez))).
      { destruct sx; cbn [cond_Zopp]; cbv iota;
          rewrite ?opp_IZR, Emx, mult_IZR; ring. }
      assert (IZR (cond_Zopp sy (Zpos my'))
              = (if sy then - 1 else 1) * IZR (Zpos my) * IZR (2 ^ (ey - ez))).
      { destruct sy; cbn [cond_Zopp]; cbv iota;
          rewrite ?opp_IZR, Emy, mult_IZR; ring. }
      rewrite H, H0. destruct sx, sy; ring. }
    rewrite <- V in Hb. pose proof (bpow_pos ez) as Pz.
    unfold binary_normalize. destruct z as [|p|p].
    + split; [reflexivity|]. rewrite <- Hb. unfold B2R. simpl. lra.
    + destruct (binary_round_value false p ez) as (rv & RT & _).
      destruct (rounds_to_exact _ _ _ _ b RT Vb Hb) as (F & _ & B & _).
      split; assumption.
    + assert (0 < IZR (Zpos p)) by (apply IZR_lt; lia).
      assert (N : IZR (Zneg p) = - IZR (Zpos p)).
      { rewrite <- Pos2Z.opp_pos, opp_IZR. reflexivity. }
      rewrite N in Hb. nra.
Qed.

(** A float that compares equal to zero is one of the two zeros. *)
Lemma eqb_zero (a : float) :
  (a =? 0)%float = true -> exists s : bool, Prim2SF a = S754_zero s.
Proof.
  rewrite eqb_spec. change (Prim2SF 0%float) with (S754_zero false).
  destruct (Prim2SF a) as [s|[|]| |[|] m e]; simpl; try discriminate.
  intros _. exists s. reflexivity.
Qed.

Lemma floor_half (height z : Z) :
  IZR z <= IZR height / 2 < IZR z + 1 -> z = (height / 2)%Z.
Proof.
  intros [L U].
  assert (A : (2 * z <= height)%Z).
  { apply le_IZR. rewrite mult_IZR. lra. }
  assert (B : (height < 2 * z + 2)%Z).
  { apply lt_IZR. rewrite plus_IZR, mult_IZR. lra. }
  apply Z.div_unique with (r := (height - 2 * z)%Z); lia.
Qed.

Lemma int_of_float_exact (f : float) (z : Z) :
  finite_SF (Prim2SF f) = true -> (0 <= z)%Z -> F2R f = IZR z ->
  int_of_float f = Ok z.
Proof.
  intros F Pz E.
  destruct (int_of_float_floor f F) as (z' & E' & _ & L & U).
  { rewrite E. apply IZR_le. exact Pz. }
  rewrite E'. f_equal. rewrite E in L, U.
  assert (z' <= z)%Z by (apply le_IZR; exact L).
  assert (z < z' + 1)%Z by (apply lt_IZR; rewrite plus_IZR; exact U).
  lia.
Qed.

(** The ordinate of a sample that the clamp sends to [1.0]. *)
Lemma y_at_top (height : Z) (amplitude : float) :
  (0 <= height < 2 ^ 53)%Z ->
  (amplitude <? 1)%float = false ->
  y_at height amplitude = Ok 0%Z.
Proof.
  intros Hh L1. unfold y_at, int, min, max. rewrite L1.
  change (-1 <? 1)%float with true. cbv iota.
  pose proof (half_exact height Hh) as (Fh & Sh & Mh).
  set (h2 := truediv height 2) in *.
  destruct (SFmul_exact (Prim2SF 1%float) (Prim2SF h2) (Prim2SF h2))
    as (Fp & Mp & Sp); try apply Prim2SF_valid; try assumption;
    try reflexivity.
  { rewrite one_SF. cbn [mag]. rewrite one_value. lra. }
  rewrite <- mul_spec in Fp, Mp, Sp.
  set (p := (1 * h2)%float) in *.
  rewrite Sh in Sp. rewrite one_SF in Sp. cbn [sign_of xorb] in Sp.
  destruct (SFsub_exact (Prim2SF h2) (Prim2SF p) (S754_zero false))
    as (Fd & Bd); try assumption; try reflexivity.
  { unfold B2R. rewrite Sh, Sp, Mp. cbn [mag]. lra. }
  rewrite <- sub_spec in Fd, Bd.
  apply int_of_float_exact; [exact Fd|lia|exact Bd].
Qed.

(** The ordinate of a sample that the clamp sends to [-1.0]. *)
Lemma y_at_bottom (height : Z) (amplitude : float) :
  (0 <= height < 2 ^ 53)%Z ->
  (amplitude <=? -1)%float = true ->
  y_at height amplitude = Ok height.
Proof.
  intros Hh L. unfold y_at, int, min, max.
  assert (L1 : (amplitude <? 1)%float = true).
  { apply (FloatOrder.leb_ltb_trans amplitude (-1)%float 1%float);
      [exact L|reflexivity]. }
  rewrite L1, (FloatOrder.leb_not_ltb _ _ L).
  pose proof (half_exact height Hh) as (Fh & Sh & Mh).
  set (h2 := truediv height 2) in *.
  destruct (SFmul_exact (Prim2SF (-1)%float) (Prim2SF h2) (Prim2SF h2))
    as (Fp & Mp & Sp); try apply Prim2SF_valid; try assumption;
    try reflexivity.
  { rewrite minus_one_SF. cbn [mag]. rewrite one_value. lra. }
  rewrite <- mul_spec in Fp, Mp, Sp.
  set (p := (-1 * h2)%float) in *.
  rewrite Sh in Sp. rewrite minus_one_SF in Sp. cbn [sign_of xorb] in Sp.
  pose proof (float_of_Z_exact height Hh) as (FH & SH & MH).
  destruct (SFsub_exact (Prim2SF h2) (Prim2SF p) (Prim2SF (float_of_Z height)))
    as (Fd & Bd); try apply Prim2SF_valid; try assumption.
  { unfold B2R. rewrite Sh, Sp, Mp, Mh, MH. lra. }
  rewrite <- sub_spec in Fd, Bd. rewrite MH in Bd.
  apply int_of_float_exact; [exact Fd|lia|exact Bd].
Qed.

(** The ordinate of a sample that is zero. *)
Lemma y_at_centre (height : Z) (amplitude : float) :
  (0 <= height < 2 ^ 53)%Z ->
  (amplitude =? 0)%float = true ->
  y_at height amplitude = Ok (height / 2)%Z.
Proof.
  intros Hh L. destruct (eqb_zero amplitude L) as (s & Ea).
  unfold y_at, int, min, max.
  assert (L1 : (amplitude <? 1)%float = true).
  { rewrite ltb_spec, Ea. destruct s; reflexivity. }
  assert (L2 : (-1 <? amplitude)%float = true).
  { rewrite ltb_spec, Ea. destruct s; reflexivity. }
  rewrite L1, L2.
  pose proof (half_exact height Hh) as (Fh & Sh & Mh).
  set (h2 := truediv height 2) in *.
  destruct (SFmul_exact (Prim2SF amplitude) (Prim2SF h2) (S754_zero false))
    as (Fp & Mp & _); try apply Prim2SF_valid; try assumption;
    try reflexivity.
  { rewrite Ea. reflexivity. }
  { rewrite Ea. cbn [mag]. lra. }
  rewrite <- mul_spec in Fp, Mp.
  set (p := (amplitude * h2)%float) in *.
  cbn [mag] in Mp.
  assert (Bp : B2R (Prim2SF p) = 0).
  { unfold B2R. rewrite Mp. destruct (sign_of (Prim2SF p)); lra. }
  assert (Bh : B2R (Prim2SF h2) = IZR height / 2).
  { unfold B2R. rewrite Sh. exact Mh. }
  destruct (SFsub_exact (Prim2SF h2) (Prim2SF p) (Prim2SF h2))
    as (Fd & Bd); try apply Prim2SF_valid; try assumption.
  { rewrite Bp, Bh, Mh. lra. }
  rewrite <- sub_spec in Fd, Bd. rewrite Mh in Bd.
  destruct (int_of_float_floor (h2 - p)%float Fd) as (z & E & _ & R).
  { unfold F2R. rewrite Bd.
    assert (0 <= IZR height) by (apply IZR_le; lia). lra. }
  rewrite E. f_equal. apply floor_half. unfold F2R in R. rewrite Bd in R.
  exact R.
Qed.

(** On any chunk that holds a sample the projector raises nothing, and
    the point of a sample carries the ordinate of that sample. *)
Lemma projector_ordinates (data_chunk : list float) (width height : Z) :
  data_chunk <> [] ->
  (Z.of_nat (List.length data_chunk) < 2 ^ 53)%Z ->
  (0 <= width <= 2 ^ 50)%Z ->
  (0 <= height < 2 ^ 53)%Z ->
  exists pts : list point,
    generate_waveform_points data_chunk width height = Ok pts
    /\ List.length pts = Nat.max 2 (List.length data_chunk)
    /\ Forall (fun p => (0 <= fst p <= width)%Z /\ (0 <= snd p <= height)%Z)
         pts
    /\ (forall (i : nat) (a : float),
          nth_error data_chunk i = Some a ->
          exists x y : Z,
            nth_error pts i = Some (x, y) /\ y_at height a = Ok y)
    /\ (forall p : point,
          In p pts ->
          exists a : float, In a data_chunk /\ y_at height a = Ok (snd p)).
Proof.
  intros Hne HN Hw Hh.
  destruct data_chunk as [|a [|b rest]]; [contradiction| |].
  - destruct (y_at_range height a Hh) as (y & Ey & Ry).
    exists [(0%Z, y); (0%Z, y)].
    split; [|split; [reflexivity|split; [|split]]].
    + unfold generate_waveform_points. cbn [List.length Z.of_nat].
      change (Z.pos (Pos.of_succ_nat 0) =? 0)%Z with false.
      change (1 <? Z.pos (Pos.of_succ_nat 0))%Z with false.
      cbv iota. cbn [points_loop mul int bind Z.mul].
      change (int_of_float (truediv height 2
                            - max (-1)%float (min 1%float a)
                              * truediv height 2)%float)
        with (y_at height a).
      rewrite Ey. reflexivity.
    + repeat constructor; simpl; lia.
    + intros [|[|i]] a' Hi; try discriminate.
      injection Hi as <-. exists 0%Z, y. split; [reflexivity|exact Ey].
    + intros p [<-|[<-|[]]]; exists a; (split; [left; reflexivity|exact Ey]).
  - destruct (ProjectorTheory.projector_runs (a :: b :: rest) width height)
      as (pts & E & L & Hp); try assumption.
    { split; [|exact HN]. simpl List.length. lia. }
    exists pts. split; [exact E|]. split; [|split; [|split]].
    + rewrite L. simpl. lia.
    + apply Forall_forall. intros [x y] Hin.
      apply In_nth_error in Hin. destruct Hin as (i & Hi).
      assert (Hlt : (i < List.length (a :: b :: rest))%nat).
      { rewrite <- L. apply nth_error_Some. intro Hn.
        pose proof (eq_trans (eq_sym Hn) Hi) as Hd. discriminate Hd. }
      destruct (nth_error (a :: b :: rest) i) as [s|] eqn:Es.
      2:{ apply nth_error_None in Es. lia. }
      destruct (Hp i s Es) as (x' & y' & Ni & Ex & Ey).
      pose proof (eq_trans (eq_sym Ni) Hi) as Q. injection Q as -> ->.
      set (N := Z.of_nat (List.length (a :: b :: rest))) in *.
      assert (HN1 : (1 < N)%Z) by (unfold N; simpl List.length; lia).
      assert (Hi1 : (Z.of_nat i <= N - 1)%Z) by (unfold N; lia).
      destruct (x_at_range width (N - 1) (Z.of_nat i))
        as (x' & Ex' & Rx & _); try lia.
      replace (N - 1 + 1)%Z with N in Ex' by lia.
      destruct (y_at_range height s Hh) as (y' & Ey' & Ry).
      assert (x' = x) by congruence. assert (y' = y) by congruence.
      subst x' y'. simpl. lia.
    + intros i s Hi. destruct (Hp i s Hi) as (x & y & Ni & _ & Ey).
      exists x, y. split; assumption.
    + intros [x y] Hin.
      apply In_nth_error in Hin. destruct Hin as (i & Hi).
      destruct (nth_error (a :: b :: rest) i) as [s|] eqn:Es.
      * destruct (Hp i s Es) as (x' & y' & Ni & _ & Ey).
        pose proof (eq_trans (eq_sym Ni) Hi) as Q. injection Q as -> ->.
        exists s. split; [|exact Ey]. eapply nth_error_In. exact Es.
      * apply nth_error_None in Es. rewrite <- L in Es.
        apply nth_error_None in Es.
        pose proof (eq_trans (eq_sym Es) Hi) as Hd. discriminate Hd.
Qed.

Local Close Scope R_scope.

(** X6. Clamping, at the edges of the viewport.  In every chunk the
    projector accepts, a sample that is not below [1.0] (one that is
    [1.0] or above, plus infinity, or NaN) is drawn on the top edge,
    [y = 0], and a sample at or below [-1.0] (minus infinity included) on
    the bottom edge, [y = height]: the binary64 arithmetic of the
    ordinate is exact there. *)
Theorem clamped_samples_lie_on_the_edges
    (data_chunk : list float) (width height : Z) (pts : list point)
    (i : nat) (a : float) (x y : Z) :
  (Z.of_nat (List.length data_chunk) < 2 ^ 53)%Z ->
  (0 <= width <= 2 ^ 50)%Z ->
  (0 <= height < 2 ^ 53)%Z ->
  generate_waveform_points data_chunk width height = Ok pts ->
  nth_error data_chunk i = Some a ->
  nth_error pts i = Some (x, y) ->
  ((a <? 1)%float = false -> y = 0%Z)
  /\ ((a <=? -1)%float = true -> y = height).
Proof.
  intros HN Hw Hh G Ha Hp.
  assert (Hne : data_chunk <> []).
  { intro E. subst data_chunk. destruct i; discriminate. }
  destruct (projector_ordinates data_chunk width height Hne HN Hw Hh)
    as (pts' & G' & _ & _ & Hy & _).
  assert (pts' = pts) by congruence. subst pts'.
  destruct (Hy i a Ha) as (x' & y' & Ni & Ey).
  pose proof (eq_trans (eq_sym Ni) Hp) as Q. injection Q as -> ->.
  split; intro L.
  - rewrite (y_at_top height a Hh L) in Ey. congruence.
  - rewrite (y_at_bottom height a Hh L) in Ey. congruence.
Qed.

Lemma clamped_samples_lie_on_the_edges_witness :
  (nan <? 1)%float = false /\ (neg_infinity <=? -1)%float = true
  /\ 0%Z = 0%Z /\ 500%Z = 500%Z.
Proof.
  split; [reflexivity|]. split; [reflexivity|]. split.
  - apply (proj1 (clamped_samples_lie_on_the_edges
                    [nan; neg_infinity; 0.5]%float 1000 500
                    [(0, 0); (500, 500); (1000, 125)]%Z 0 nan 0 0
                    ltac:(simpl; lia) ltac:(lia) ltac:(lia)
                    ltac:(vm_compute; reflexivity) eq_refl eq_refl)).
    reflexivity.
  - apply (proj2 (clamped_samples_lie_on_the_edges
                    [nan; neg_infinity; 0.5]%float 1000 500
                    [(0, 0); (500, 500); (1000, 125)]%Z 1 neg_infinity
                    500 500
                    ltac:(simpl; lia) ltac:(lia) ltac:(lia)
                    ltac:(vm_compute; reflexivity) eq_refl eq_refl)).
    reflexivity.
Defined.



End ProjectorEdges.

(** ** The main loop *)
Module RenderLoopTheory.
Import Py Bridge Classifier Projector RenderLoop.

Lemma color_total (x : float) :
  exists c : color, get_waveform_color x = Ok c /\ In c COLOR_PALETTE.
Proof.
  rewrite ClassifierTheory.color_unfold.
  destruct (x <? -45)%float; [|destruct (x <? -30)%float;
                                [|destruct (x <? -15)%float]];
    eexists; (split; [reflexivity|]); simpl; tauto.
Qed.

Lemma flips_app (a b : list call) : flips (a ++ b) = (flips a + flips b)%nat.
Proof. unfold flips. rewrite filter_app, length_app. reflexivity. Qed.

Lemma handle_events_stopped (events : list event) :
  handle_events events false = false.
Proof. induction events as [|[|] events IH]; [reflexivity|exact IH|exact IH]. Qed.

Lemma handle_events_quit (events : list event) :
  In QUIT events -> handle_events events true = false.
Proof.
  induction events as [|e events IH]; [contradiction|].
  intros [->|H]; simpl.
  - apply handle_events_stopped.
  - destruct e; [apply handle_events_stopped|apply IH; exact H].
Qed.

Lemma handle_events_other (events : list event) (r : bool) :
  ~ In QUIT events -> handle_events events r = r.
Proof.
  revert r. induction events as [|e events IH]; intros r H; [reflexivity|].
  destruct e; [exfalso; apply H; left; reflexivity|].
  simpl. apply IH. intro Hin. apply H. right. exact Hin.
Qed.

Section Facts.

Variable calculate_rms_dbfs : list float -> float.

Local Abbreviation get_audio_data := (get_audio_data calculate_rms_dbfs).
Local Abbreviation iteration := (iteration calculate_rms_dbfs).
Local Abbreviation main_loop := (main_loop calculate_rms_dbfs).

(** What a frame adds to the display does not depend on what is there. *)
Lemma drawing_appends (g : globals float float) (d : list call) :
  drawing g d = (d ++ fst (drawing g []), snd (drawing g [])).
Proof.
  unfold drawing.
  destruct (generate_waveform_points (latest_data_chunk g) WIDTH HEIGHT)
    as [pts|e]; [|reflexivity].
  destruct (get_waveform_color (last_rms_dbfs g)) as [c|e]; [|reflexivity].
  destruct (2 <=? List.length pts)%nat; simpl fst; simpl snd;
    rewrite <- ?app_assoc; reflexivity.
Qed.

(** A frame that is drawn ends with one [flip] and holds no other. *)
Lemma drawing_flips (g : globals float float) (d d' : list call) :
  drawing g d = (d', Ok tt) -> flips d' = S (flips d).
Proof.
  unfold drawing.
  destruct (generate_waveform_points (latest_data_chunk g) WIDTH HEIGHT)
    as [pts|e]; [|discriminate].
  destruct (get_waveform_color (last_rms_dbfs g)) as [c|e]; [|discriminate].
  destruct (2 <=? List.length pts)%nat; intro H; injection H as <-;
    rewrite !flips_app; unfold flips; simpl; lia.
Qed.

Lemma poll_twice (g : globals float float) :
  get_audio_data (get_audio_data g) = get_audio_data g.
Proof.
  assert (F' : new_data_available (get_audio_data g) = false).
  { unfold Bridge.get_audio_data. destruct (new_data_available g) eqn:F.
    - rewrite BridgeTheory.drain_last. reflexivity.
    - exact F. }
  unfold Bridge.get_audio_data at 1. rewrite F'. reflexivity.
Qed.

Lemma callbacks_snoc (earlier : list (list (frame float) * option string))
    (indata : list (frame float)) (status : option string)
    (g : globals float float) :
  callbacks (earlier ++ [(indata, status)]) g
  = audio_callback indata status (callbacks earlier g).
Proof. unfold callbacks. rewrite fold_left_app. reflexivity. Qed.

Lemma iteration_unfold (inp : input) (st : loop_state) :
  let g := get_audio_data (callbacks (arrived inp) (shared st)) in
  iteration inp st
  = (mkLoop g (handle_events (events inp) (running st))
       (display st ++ fst (drawing g [])),
     snd (drawing g [])).
Proof.
  cbv zeta. unfold RenderLoop.iteration.
  rewrite (drawing_appends _ (display st)). reflexivity.
Qed.

End Facts.

(** X8. One frame.  Whatever chunk and level the loop holds (NaN and
    infinite samples and levels included; the chunk shorter than [2^53]),
    drawing the frame raises nothing: it clears the display, then draws
    one open polyline when the chunk holds a sample and nothing when it
    is empty, then flips.  The colour is one of the four of the palette,
    the polyline has one point per sample (two for a single sample), and
    every point lies in the rectangle from (0, 0) to (1000, 500). *)
Theorem frame_is_drawn_without_error
    (g : globals float float) (display : list call) :
  (Z.of_nat (List.length (latest_data_chunk g)) < 2 ^ 53)%Z ->
  exists current_color : color,
    get_waveform_color (last_rms_dbfs g) = Ok current_color
    /\ In current_color COLOR_PALETTE
    /\ ((latest_data_chunk g = []
         /\ drawing g display
            = (display ++ [fill BACKGROUND_COLOR; flip], Ok tt))
        \/ (latest_data_chunk g <> []
            /\ exists waveform_points : list point,
                 generate_waveform_points (latest_data_chunk g) WIDTH HEIGHT
                 = Ok waveform_points
                 /\ List.length waveform_points
                    = Nat.max 2 (List.length (latest_data_chunk g))
                 /\ Forall (fun p => (0 <= fst p <= WIDTH)%Z
                                     /\ (0 <= snd p <= HEIGHT)%Z)
                      waveform_points
                 /\ drawing g display
                    = (display
                       ++ [fill BACKGROUND_COLOR;
                           draw_lines current_color false waveform_points
                             LINE_THICKNESS;
                           flip],
                       Ok tt))).
Proof.
  intro HN. destruct (color_total (last_rms_dbfs g)) as (c & Ec & Hc).
  exists c. split; [exact Ec|]. split; [exact Hc|].
  destruct (latest_data_chunk g) as [|a rest] eqn:E.
  - left. split; [reflexivity|]. unfold drawing. rewrite E, Ec.
    simpl. rewrite <- app_assoc. reflexivity.
  - right. split; [discriminate|].
    destruct (ProjectorEdges.projector_ordinates (a :: rest) WIDTH HEIGHT)
      as (pts & G & L & V & _); try assumption; try discriminate;
      try (unfold WIDTH, HEIGHT; lia).
    exists pts. split; [exact G|]. split; [exact L|]. split; [exact V|].
    unfold drawing. rewrite E, G, Ec.
    assert (T : (2 <=? List.length pts)%nat = true).
    { apply Nat.leb_le. rewrite L. lia. }
    rewrite T, <- !app_assoc. reflexivity.
Qed.

Lemma frame_is_drawn_without_error_witness :
  exists current_color : color,
    get_waveform_color (last_rms_dbfs (shared entry)) = Ok current_color
    /\ In current_color COLOR_PALETTE
    /\ ((latest_data_chunk (shared entry) = []
         /\ drawing (shared entry) []
            = ([] ++ [fill BACKGROUND_COLOR; flip], Ok tt))
        \/ (latest_data_chunk (shared entry) <> []
            /\ exists waveform_points : list point,
                 generate_waveform_points (latest_data_chunk (shared entry))
                   WIDTH HEIGHT
                 = Ok waveform_points
                 /\ List.length waveform_points
                    = Nat.max 2 (List.length (latest_data_chunk (shared entry)))
                 /\ Forall (fun p => (0 <= fst p <= WIDTH)%Z
                                     /\ (0 <= snd p <= HEIGHT)%Z)
                      waveform_points
                 /\ drawing (shared entry) []
                    = ([]
                       ++ [fill BACKGROUND_COLOR;
                           draw_lines current_color false waveform_points
                             LINE_THICKNESS;
                           flip],
                       Ok tt))).
Proof.
  apply (frame_is_drawn_without_error (shared entry) []).
  reflexivity.
Defined.

(** X9. The frame after a callback.  When the callback has delivered
    blocks since the last pass, the iteration shows the newest of them and
    nothing of the older ones: the polyline is the projection of the first
    channel of the newest block, its colour is the colour of the level of
    that same chunk, the chunk and its level are what the loop holds
    afterwards, and the queue is left empty. *)
Theorem frame_shows_the_newest_block
    (calculate_rms_dbfs : list float -> float)
    (st : loop_state)
    (earlier : list (list (frame float) * option string))
    (indata : list (frame float)) (status : option string)
    (events : list event) :
  indata <> [] ->
  (Z.of_nat (List.length indata) < 2 ^ 53)%Z ->
  exists (waveform_points : list point) (current_color : color)
         (st' : loop_state),
    iteration calculate_rms_dbfs
      (mkInput (earlier ++ [(indata, status)]) events) st
    = (st', Ok tt)
    /\ generate_waveform_points (first_channel indata) WIDTH HEIGHT
       = Ok waveform_points
    /\ get_waveform_color (calculate_rms_dbfs (first_channel indata))
       = Ok current_color
    /\ display st'
       = display st
         ++ [fill BACKGROUND_COLOR;
             draw_lines current_color false waveform_points LINE_THICKNESS;
             flip]
    /\ latest_data_chunk (shared st') = first_channel indata
    /\ last_rms_dbfs (shared st') = calculate_rms_dbfs (first_channel indata)
    /\ audio_q (shared st') = [].
Proof.
  intros Hne HN.
  set (chunk := first_channel indata).
  set (g0 := callbacks earlier (shared st)).
  set (g := mkGlobals [] chunk (calculate_rms_dbfs chunk) false
              (stderr (audio_callback indata status g0))).
  assert (P : get_audio_data calculate_rms_dbfs
                (callbacks (earlier ++ [(indata, status)]) (shared st))
              = g).
  { rewrite callbacks_snoc. fold g0. unfold get_audio_data.
    cbn [audio_callback new_data_available audio_q latest_data_chunk].
    rewrite BridgeTheory.drain_last, last_last. reflexivity. }
  assert (Lc : List.length chunk = List.length indata).
  { unfold chunk, first_channel. apply length_map. }
  destruct (color_total (calculate_rms_dbfs chunk)) as (c & Ec & _).
  destruct (ProjectorEdges.projector_ordinates chunk WIDTH HEIGHT)
    as (pts & G & L & _); try (unfold WIDTH, HEIGHT; lia).
  { intro E. apply Hne. destruct indata; [reflexivity|discriminate]. }
  assert (T : (2 <=? List.length pts)%nat = true).
  { apply Nat.leb_le. rewrite L. lia. }
  exists pts, c. eexists. split; [|split; [exact G|split; [exact Ec|]]].
  - unfold iteration. cbn [arrived RenderLoop.events].
    rewrite P. unfold drawing, g.
    cbn [latest_data_chunk last_rms_dbfs]. rewrite G, Ec, T.
    reflexivity.
  - cbn [display shared]. rewrite <- !app_assoc. repeat split.
Qed.

Lemma frame_shows_the_newest_block_witness :
  exists (waveform_points : list point) (current_color : color)
         (st' : loop_state),
    iteration (fun _ => (-20)%float)
      (mkInput ([] ++ [([(0.5, []); (-0.25, [])]%float, None)]) []) entry
    = (st', Ok tt)
    /\ generate_waveform_points
         (first_channel [(0.5, []); (-0.25, [])]%float) WIDTH HEIGHT
       = Ok waveform_points
    /\ get_waveform_color
         ((fun _ => (-20)%float) (first_channel [(0.5, []); (-0.25, [])]%float))
       = Ok current_color
    /\ display st'
       = display entry
         ++ [fill BACKGROUND_COLOR;
             draw_lines current_color false waveform_points LINE_THICKNESS;
             flip]
    /\ latest_data_chunk (shared st')
       = first_channel [(0.5, []); (-0.25, [])]%float
    /\ last_rms_dbfs (shared st')
       = (fun _ => (-20)%float) (first_channel [(0.5, []); (-0.25, [])]%float)
    /\ audio_q (shared st') = [].
Proof.
  apply (frame_shows_the_newest_block (fun _ => (-20)%float) entry []
           [(0.5, []); (-0.25, [])]%float None []).
  - discriminate.
  - reflexivity.
Defined.

(** X10. Between captures the picture stands still.  An iteration that
    finds no new block makes exactly the display calls of the iteration
    before it, with the same result, and leaves the globals as that
    iteration left them. *)
Theorem idle_iteration_repeats_the_frame
    (calculate_rms_dbfs : list float -> float)
    (inp : input) (events2 : list event) (st : loop_state) :
  let st1 := fst (iteration calculate_rms_dbfs inp st) in
  let st2 := fst (iteration calculate_rms_dbfs (mkInput [] events2) st1) in
  exists frame_calls : list call,
    display st1 = display st ++ frame_calls
    /\ display st2 = display st1 ++ frame_calls
    /\ shared st2 = shared st1
    /\ snd (iteration calculate_rms_dbfs (mkInput [] events2) st1)
       = snd (iteration calculate_rms_dbfs inp st).
Proof.
  cbv zeta. rewrite (iteration_unfold calculate_rms_dbfs inp st).
  cbv zeta. cbn [fst snd].
  rewrite iteration_unfold. cbv zeta.
  cbn [fst snd arrived RenderLoop.events shared display callbacks fold_left].
  rewrite poll_twice.
  eexists. repeat split.
Qed.

(** X11. Leaving the loop.  The loop runs its iterations up to and
    including the first one that finds a QUIT event, and none after it:
    what would have come later is never looked at.  That last iteration
    still polls the capture and presents its frame: when no iteration
    raises, the loop ends with [running] false after one [flip] per
    iteration run. *)
Theorem loop_ends_with_the_frame_that_sees_quit
    (calculate_rms_dbfs : list float -> float)
    (pre post : list input) (q : input) (st : loop_state) :
  running st = true ->
  Forall (fun inp => ~ In QUIT (events inp)) pre ->
  In QUIT (events q) ->
  main_loop calculate_rms_dbfs (pre ++ q :: post) st
  = main_loop calculate_rms_dbfs (pre ++ [q]) st
  /\ (forall st' : loop_state,
        main_loop calculate_rms_dbfs (pre ++ q :: post) st = (st', Ok tt) ->
        running st' = false
        /\ flips (display st')
           = (flips (display st) + List.length pre + 1)%nat).
Proof.
  intros Hr Hpre Hq. revert st Hr.
  induction pre as [|inp pre IH]; intros st Hr.
  - cbn [app RenderLoop.main_loop]. rewrite Hr.
    destruct (RenderLoop.iteration calculate_rms_dbfs q st) as [st1 r] eqn:E.
    assert (R1 : running st1 = false).
    { unfold RenderLoop.iteration in E.
      destruct (drawing _ (display st)) as [d r'].
      injection E as <- _. cbn [running]. rewrite Hr.
      apply handle_events_quit. exact Hq. }
    assert (F1 : r = Ok tt -> flips (display st1) = S (flips (display st))).
    { intros ->. unfold RenderLoop.iteration in E.
      destruct (drawing _ (display st)) as [d r'] eqn:D.
      injection E as <- ->. cbn [display].
      apply (drawing_flips _ _ _ D). }
    destruct r as [[]|e].
    + assert (S1 : forall l, RenderLoop.main_loop calculate_rms_dbfs l st1
                             = (st1, Ok tt)).
      { intros [|? ?]; cbn [RenderLoop.main_loop]; rewrite R1; reflexivity. }
      rewrite ?S1, ?R1. split; [reflexivity|].
      intros st' H. injection H as <-. split; [exact R1|].
      rewrite (F1 eq_refl). simpl. lia.
    + split; [reflexivity|]. intros st' H. discriminate.
  - inversion Hpre as [|? ? Hinp Hrest]; subst.
    cbn [app RenderLoop.main_loop]. rewrite Hr.
    destruct (RenderLoop.iteration calculate_rms_dbfs inp st) as [st1 r] eqn:E.
    destruct r as [[]|e].
    + assert (R1 : running st1 = true).
      { unfold RenderLoop.iteration in E.
        destruct (drawing _ (display st)) as [d r'].
        injection E as <- _. cbn [running]. rewrite Hr.
        apply handle_events_other. exact Hinp. }
      assert (F1 : flips (display st1) = S (flips (display st))).
      { unfold RenderLoop.iteration in E.
        destruct (drawing _ (display st)) as [d r'] eqn:D.
        injection E as <- ->. cbn [display].
        apply (drawing_flips _ _ _ D). }
      destruct (IH Hrest st1 R1) as [A B]. split; [exact A|].
      intros st' H. destruct (B st' H) as [B1 B2]. split; [exact B1|].
      rewrite B2, F1. simpl. lia.
    + split; [reflexivity|]. intros st' H. discriminate.
Qed.

Lemma loop_ends_with_the_frame_that_sees_quit_witness :
  main_loop (fun _ => (-20)%float)
    ([mkInput [] [other_event]] ++ mkInput [] [QUIT] :: [mkInput [] []])
    (mkLoop (startup [0.5%float] neg_infinity) true [])
  = main_loop (fun _ => (-20)%float)
      ([mkInput [] [other_event]] ++ [mkInput [] [QUIT]])
      (mkLoop (startup [0.5%float] neg_infinity) true []).
Proof.
  apply (loop_ends_with_the_frame_that_sees_quit (fun _ => (-20)%float)
           [mkInput [] [other_event]] [mkInput [] []] (mkInput [] [QUIT])
           (mkLoop (startup [0.5%float] neg_infinity) true [])).
  - reflexivity.
  - constructor; [|constructor]. simpl. intros [H|[]]. discriminate H.
  - left. reflexivity.
Defined.

End RenderLoopTheory.

(** ** The classifier on adjusted thresholds *)
Module ClassifierConfig.
Import Py Classifier FloatOrder.
Local Open Scope float_scope.

(** X12. Adjusting the thresholds.  With any three thresholds in
    ascending order in place of [-45, -30, -15], and any four palette
    entries, the classifier keeps its interval semantics: the first entry
    below the first threshold, the second from the first threshold up to
    but excluding the second, the third from the second up to but
    excluding the third, the fourth from the third threshold on.
    Thresholds after the third and palette entries after the fourth are
    never read. *)
Theorem adjusted_thresholds_keep_the_intervals
    (A : Type) (t0 t1 t2 : float) (rest : list float)
    (c0 c1 c2 c3 : A) (more : list A) (x : float) :
  (t0 <=? t1) = true -> (t1 <=? t2) = true ->
  let classify :=
    get_waveform_color_with (t0 :: t1 :: t2 :: rest)
      (c0 :: c1 :: c2 :: c3 :: more) in
  ((x <? t0) = true -> classify x = Ok c0)
  /\ ((t0 <=? x) = true -> (x <? t1) = true -> classify x = Ok c1)
  /\ ((t1 <=? x) = true -> (x <? t2) = true -> classify x = Ok c2)
  /\ ((t2 <=? x) = true -> classify x = Ok c3).
Proof.
  intros H01 H12 classify. unfold classify.
  rewrite ClassifierTheory.get_waveform_color_with_unfold.
  assert (B0 : (t0 <=? x) = true -> (x <? t0) = false)
    by apply leb_not_ltb.
  assert (B1 : (t1 <=? x) = true -> (x <? t1) = false)
    by apply leb_not_ltb.
  assert (B2 : (t2 <=? x) = true -> (x <? t2) = false)
    by apply leb_not_ltb.
  assert (U01 : (x <? t0) = true -> (x <? t1) = true).
  { intro H. exact (ltb_leb_trans x t0 t1 H H01). }
  assert (U12 : (x <? t1) = true -> (x <? t2) = true).
  { intro H. exact (ltb_leb_trans x t1 t2 H H12). }
  assert (F0 : (t1 <=? x) = true -> (x <? t0) = false).
  { intro L. apply not_true_is_false. intro E.
    pose proof (U01 E) as Q. rewrite (B1 L) in Q. discriminate Q. }
  assert (F1 : (t2 <=? x) = true -> (x <? t1) = false).
  { intro L. apply not_true_is_false. intro E.
    pose proof (U12 E) as Q. rewrite (B2 L) in Q. discriminate Q. }
  split; [|split; [|split]].
  - intros ->. reflexivity.
  - intros L0 ->. rewrite (B0 L0). reflexivity.
  - intros L1 ->. rewrite (B1 L1), (F0 L1). reflexivity.
  - intros L2. rewrite (B2 L2), (F1 L2).
    assert (E0 : (x <? t0) = false).
    { apply not_true_is_false. intro E.
      pose proof (U01 E) as Q. rewrite (F1 L2) in Q. discriminate Q. }
    rewrite E0. reflexivity.
Qed.

Lemma adjusted_thresholds_keep_the_intervals_witness :
  get_waveform_color_with [-60; -40; -20; -5] [0; 1; 2; 3; 4]%nat (-30)
  = Ok 2%nat.
Proof.
  exact (proj1 (proj2 (proj2
           (adjusted_thresholds_keep_the_intervals nat (-60) (-40) (-20) [-5]
              0%nat 1%nat 2%nat 3%nat [4%nat] (-30) eq_refl eq_refl)))
           eq_refl eq_refl).
Defined.

End ClassifierConfig.

(** ** The estimator on every kind of chunk *)
Module LoudnessRange.
Import Loudness LoudnessTheory.
Local Open Scope R_scope.

(** A value that is a number or plus infinity. *)
Local Abbreviation no_nan_no_neg :=
  (fun v : value => match v with
                    | Fin _ | PosInf => True
                    | _ => False
                    end).

Lemma fold_add_PosInf (l : list value) :
  Forall no_nan_no_neg l -> fold_left add l PosInf = PosInf.
Proof.
  induction 1 as [|v l Hv _ IH]; [reflexivity|].
  simpl. destruct v; try contradiction; exact IH.
Qed.

Lemma fold_add_In_PosInf (l : list value) (a : R) :
  Forall no_nan_no_neg l -> In PosInf l ->
  fold_left add l (Fin a) = PosInf.
Proof.
  intro H. revert a. induction H as [|v l Hv Hl IH]; intros a Hin;
    [contradiction|].
  destruct Hin as [->|Hin].
  - simpl. apply fold_add_PosInf. exact Hl.
  - destruct v; try contradiction; simpl.
    + apply IH. exact Hin.
    + apply fold_add_PosInf. exact Hl.
Qed.

Lemma squares_no_nan (data_chunk : list value) :
  ~ In NaN data_chunk -> Forall no_nan_no_neg (map square data_chunk).
Proof.
  induction data_chunk as [|v l IH]; intro H; [constructor|].
  simpl. constructor.
  - destruct v; simpl; try exact I. apply H. left. reflexivity.
  - apply IH. intro Hin. apply H. right. exact Hin.
Qed.

Lemma all_Fin (data_chunk : list value) :
  (forall v : value, In v data_chunk -> exists r : R, v = Fin r) ->
  exists rs : list R, data_chunk = map Fin rs.
Proof.
  induction data_chunk as [|v l IH]; intro H.
  - exists []. reflexivity.
  - destruct (H v (or_introl eq_refl)) as (r & ->).
    destruct IH as (rs & ->).
    { intros w Hw. apply H. right. exact Hw. }
    exists (r :: rs). reflexivity.
Qed.

Lemma reference_level_floor (rs : list R) : -200 <= reference_level rs.
Proof.
  unfold reference_level.
  pose proof (rms_nonneg rs) as P. pose proof epsilon_pos as E.
  pose proof (log10_le epsilon (rms rs + epsilon) E ltac:(lra)) as L.
  rewrite log10_epsilon in L. lra.
Qed.

Lemma Rabs_square (x : R) : Rabs x * Rabs x = x * x.
Proof. rewrite <- Rabs_mult. apply Rabs_right. nra. Qed.

Lemma sum_of_squares_le (xs ys : list R) :
  Forall2 (fun x y => Rabs x <= Rabs y) xs ys ->
  sum_of_squares xs <= sum_of_squares ys
  /\ List.length xs = List.length ys.
Proof.
  induction 1 as [|x y xs ys Hxy _ [IH IL]]; [split; [simpl; lra|reflexivity]|].
  split; [|simpl; rewrite IL; reflexivity].
  simpl. assert (x * x <= y * y).
  { pose proof (Rabs_pos x). pose proof (Rabs_pos y).
    rewrite <- (Rabs_square x), <- (Rabs_square y). nra. }
  lra.
Qed.





End LoudnessRange.

(** ** The projector from left to right *)
Module ProjectorOrder.
Import Py Projector Values Rounding Binary64.
Local Open Scope R_scope.

(** The product [i * x_scale] before [int]: a finite number that is not
    negative, within one rounding of the exact product. *)
Lemma product_value (width n i : Z) :
  (0 <= width <= 2 ^ 50)%Z -> (1 <= n < 2 ^ 53)%Z -> (0 <= i <= n)%Z ->
  let q := truediv width n in
  let vq := mag (Prim2SF q) in
  finite_SF (Prim2SF (float_of_Z i * q)) = true
  /\ 0 <= F2R (float_of_Z i * q)
  /\ Rabs (F2R (float_of_Z i * q) - IZR i * vq) <= IZR i * vq * bpow (-53).
Proof.
  intros Hw Hn Hi q vq.
  destruct (x_scale_value width n ltac:(lia) Hn) as (vq' & Nq & Uq & Eq).
  fold q in Nq.
  assert (Evq : vq' = vq) by (destruct Nq as (_ & _ & M); symmetry; exact M).
  subst vq'.
  assert (N1 : 1 <= IZR n) by (apply (IZR_le 1); lia).
  assert (W0 : 0 <= IZR width) by (apply IZR_le; lia).
  assert (W50 : IZR width <= IZR (2 ^ 50)) by (apply IZR_le; lia).
  set (u := bpow (-53)) in *.
  assert (U0 : 0 < u) by apply bpow_pos.
  assert (U1 : u * IZR (2 ^ 53) = 1).
  { unfold u. rewrite <- bpow_IZR, <- bpow_add by lia. apply bpow_0. }
  assert (Zero : Prim2SF (float_of_Z i * q) = S754_zero false ->
                 IZR i * vq = 0 ->
                 finite_SF (Prim2SF (float_of_Z i * q)) = true
                 /\ 0 <= F2R (float_of_Z i * q)
                 /\ Rabs (F2R (float_of_Z i * q) - IZR i * vq)
                    <= IZR i * vq * u).
  { intros E Z. unfold F2R. rewrite E, Z. unfold B2R. simpl.
    rewrite Rminus_diag, Rabs_R0. repeat split; lra. }
  destruct (nonneg_value_cases _ _ Nq) as [[Eq0 Zq]|(mq & eq & Eq1 & Vq & Pq)].
  { apply Zero; [|rewrite Zq; ring].
    rewrite mul_spec, Eq0.
    destruct (nonneg_value_cases _ _ (float_of_Z_exact i ltac:(lia)))
      as [[-> _]|(mi & ei & -> & _)]; reflexivity. }
  destruct (nonneg_value_cases _ _ (float_of_Z_exact i ltac:(lia)))
    as [[Ei Zi]|(mi & ei & Ei & Vi & Pi)].
  { apply Zero; [|rewrite Zi; ring].
    rewrite mul_spec, Ei, Eq1. reflexivity. }
  pose proof (Prim2SF_valid (float_of_Z i)) as Vfi. rewrite Ei in Vfi.
  pose proof (Prim2SF_valid q) as Vfq. rewrite Eq1 in Vfq.
  destruct (SFmul_rounds false false mi mq ei eq Vfi Vfq) as (rv & RT).
  rewrite <- Vi, <- Vq in RT.
  set (t := IZR width / IZR n) in *.
  assert (Tn : t * IZR n = IZR width).
  { unfold t, Rdiv. rewrite Rmult_assoc, Rinv_l by lra. lra. }
  apply Rabs_le_between in Eq.
  assert (T0 : 0 <= t).
  { unfold t. apply Rmult_le_pos; [lra|]. left. apply Rinv_0_lt_compat. lra. }
  assert (I1 : 1 <= IZR i).
  { apply (IZR_le 1). assert (0 < i)%Z by (apply lt_IZR; lra). lia. }
  assert (In : IZR i <= IZR n) by (apply IZR_le; lia).
  assert (U53 : u <= / 8).
  { change (2 ^ 53)%Z with (8 * 2 ^ 50)%Z in U1. rewrite mult_IZR in U1.
    assert (1 <= IZR (2 ^ 50)) by (apply (IZR_le 1); lia).
    assert (u * 8 <= 1) by nra. lra. }
  assert (Wu : IZR width * u <= / 8).
  { change (2 ^ 53)%Z with (2 ^ 50 * 8)%Z in U1. rewrite mult_IZR in U1.
    assert (0 < IZR (2 ^ 50)) by (apply IZR_lt; lia).
    assert (IZR (2 ^ 50) * u = / 8).
    { apply (Rmult_eq_reg_r 8); [|lra]. rewrite Rinv_l by lra. lra. }
    nra. }
  assert (V1 : IZR i * vq <= IZR width + / 8).
  { assert (IZR i * vq <= IZR n * vq) by nra.
    assert (IZR n * vq <= IZR n * (t + t * u)) by nra.
    nra. }
  assert (V0 : bpow (-1022) <= IZR i * vq).
  { assert (bpow (-1022) <= bpow (-54)) by (apply bpow_le; lia).
    assert (bpow (-54) <= vq); [|nra].
    assert (Hw1 : 1 <= IZR width).
    { apply (IZR_le 1).
      assert (0 < width)%Z; [|lia].
      apply lt_IZR. destruct (Rle_lt_or_eq_dec _ _ W0) as [|Z]; [assumption|].
      exfalso. rewrite <- Z in Tn. assert (t = 0) by nra. nra. }
    assert (bpow (-53) <= t).
    { fold u. apply (Rmult_le_reg_r (IZR (2 ^ 53))).
      { apply IZR_lt. lia. }
      rewrite U1. assert (IZR n < IZR (2 ^ 53)) by (apply IZR_lt; lia).
      assert (0 < IZR (2 ^ 53)) by (apply IZR_lt; lia). nra. }
    replace (-54)%Z with (-53 + - (1))%Z by lia.
    rewrite bpow_add, bpow_opp, bpow_1. fold u in H0 |- *. nra. }
  destruct RT as (R0 & RF & _ & _ & RE).
  specialize (RE V0). fold u in RE.
  pose proof (Rabs_le_between _ _ RE) as RB.
  assert (RV : rv < IZR width + 1) by nra.
  destruct RF as (F & M & S).
  { assert (IZR (2 ^ 50) + 1 < bpow 1024); [|lra].
    assert (bpow 51 < bpow 1024) by (apply bpow_lt; lia).
    rewrite (bpow_IZR 51) in H by lia.
    change (2 ^ 51)%Z with (2 * 2 ^ 50)%Z in H. rewrite mult_IZR in H.
    assert (1 <= IZR (2 ^ 50)) by (apply (IZR_le 1); lia). lra. }
  rewrite <- Ei, <- Eq1, <- mul_spec in F, M, S.
  assert (B : F2R (float_of_Z i * q) = rv).
  { unfold F2R, B2R. rewrite <- M.
    destruct S as [->|(m' & e' & ->)]; reflexivity. }
  rewrite B. split; [exact F|]. split; [exact R0|exact RE].
Qed.

(** Abscissas in the order of the indices. *)
Lemma x_at_monotone (width n i j xi xj : Z) :
  (0 <= width <= 2 ^ 50)%Z -> (1 <= n < 2 ^ 52)%Z ->
  (0 <= i <= j)%Z -> (j <= n)%Z ->
  x_at width (n + 1) i = Ok xi -> x_at width (n + 1) j = Ok xj ->
  (xi <= xj)%Z.
Proof.
  intros Hw Hn Hij Hj. unfold x_at, int, mul, to_float.
  replace (n + 1 - 1)%Z with n by lia.
  destruct (product_value width n i Hw ltac:(lia) ltac:(lia))
    as (Fi & Pi & Ei).
  destruct (product_value width n j Hw ltac:(lia) ltac:(lia))
    as (Fj & Pj & Ej).
  cbv zeta in *.
  set (q := truediv width n) in *. set (vq := mag (Prim2SF q)) in *.
  pose proof (mag_nonneg (Prim2SF q)) as Q0. fold vq in Q0.
  destruct (int_of_float_floor _ Fi Pi) as (zi & Zi & _ & Li & Ui).
  destruct (int_of_float_floor _ Fj Pj) as (zj & Zj & _ & Lj & Uj).
  rewrite Zi, Zj. intros [= <-] [= <-].
  set (u := bpow (-53)) in *.
  assert (U0 : 0 < u) by apply bpow_pos.
  assert (U1 : u * IZR (2 ^ 53) = 1).
  { unfold u. rewrite <- bpow_IZR, <- bpow_add by lia. apply bpow_0. }
  apply Rabs_le_between in Ei, Ej.
  assert (Ii : 0 <= IZR i) by (apply IZR_le; lia).
  destruct (Z.eq_dec i j) as [->|Ne].
  { assert (IZR zi < IZR (zj + 1)) by (rewrite plus_IZR; lra).
    apply lt_IZR in H. lia. }
  assert (D : IZR i + 1 <= IZR j).
  { rewrite <- plus_IZR. apply IZR_le. lia. }
  assert (S : (IZR i + IZR j) * u <= 1).
  { assert (IZR i + IZR j <= IZR (2 ^ 53)).
    { rewrite <- plus_IZR. apply IZR_le.
      change (2 ^ 53)%Z with (2 * 2 ^ 52)%Z. lia. }
    assert (0 < IZR (2 ^ 53)) by (apply IZR_lt; lia). nra. }
  assert (M : F2R (float_of_Z i * q) <= F2R (float_of_Z j * q)).
  { assert (0 <= vq * (IZR j - IZR i - (IZR i + IZR j) * u)).
    { apply Rmult_le_pos; [exact Q0|lra]. }
    nra. }
  assert (IZR zi < IZR (zj + 1)) by (rewrite plus_IZR; lra).
  apply lt_IZR in H. lia.
Qed.

(** How far the product is from the ideal position [i * width / n]. *)
Lemma abscissa_error (width n i : Z) :
  (0 <= width <= 2 ^ 50)%Z -> (1 <= n < 2 ^ 53)%Z -> (0 <= i <= n)%Z ->
  Rabs (F2R (float_of_Z i * truediv width n) * IZR n - IZR (i * width))
  <= 3 * IZR n * IZR width * bpow (-53).
Proof.
  intros Hw Hn Hi.
  destruct (product_value width n i Hw Hn Hi) as (_ & _ & E).
  cbv zeta in E.
  destruct (x_scale_value width n ltac:(lia) Hn) as (vq & (_ & _ & Mq) & Uq & Eq).
  rewrite Mq in E.
  set (rv := F2R (float_of_Z i * truediv width n)) in *.
  set (u := bpow (-53)) in *.
  assert (U0 : 0 < u) by apply bpow_pos.
  assert (U1 : u < 1).
  { unfold u. rewrite <- bpow_0. apply bpow_lt. lia. }
  assert (N1 : 1 <= IZR n) by (apply (IZR_le 1); lia).
  assert (W0 : 0 <= IZR width) by (apply IZR_le; lia).
  assert (I0 : 0 <= IZR i) by (apply IZR_le; lia).
  assert (In : IZR i <= IZR n) by (apply IZR_le; lia).
  set (t := IZR width / IZR n) in *.
  assert (Tn : t * IZR n = IZR width).
  { unfold t, Rdiv. rewrite Rmult_assoc, Rinv_l by lra. lra. }
  assert (T0 : 0 <= t).
  { unfold t. apply Rmult_le_pos; [lra|]. left. apply Rinv_0_lt_compat. lra. }
  apply Rabs_le_between in E, Eq.
  rewrite mult_IZR, <- Tn.
  assert (Q0 : 0 <= vq) by nra.
  (* everything over the common factor [t] *)
  assert (A : - (3 * t * u) * IZR i <= rv - IZR i * t <= 3 * t * u * IZR i).
  { assert (IZR i * vq <= IZR i * (t + t * u)) by nra.
    assert (IZR i * (t - t * u) <= IZR i * vq) by nra.
    assert (IZR i * vq * u <= IZR i * (t + t * u) * u).
    { apply Rmult_le_compat_r; lra. }
    assert (IZR i * (t * u * u) <= IZR i * (t * u)).
    { apply Rmult_le_compat_l; [lra|]. nra. }
    nra. }
  assert (B : 3 * t * u * IZR i <= 3 * t * u * IZR n).
  { apply Rmult_le_compat_l; [nra|exact In]. }
  apply Rabs_le.
  replace (rv * IZR n - IZR i * (t * IZR n))
    with ((rv - IZR i * t) * IZR n) by ring.
  replace (3 * IZR n * (t * IZR n) * u)
    with ((3 * t * u * IZR n) * IZR n) by ring.
  split.
  - replace (- (3 * t * u * IZR n * IZR n))
      with ((- (3 * t * u * IZR n)) * IZR n) by ring.
    apply Rmult_le_compat_r; lra.
  - apply Rmult_le_compat_r; lra.
Qed.

(** The abscissa is the floor of the ideal position, or one less when the
    ideal position is an integer. *)
Lemma x_at_floor (width n i x : Z) :
  (0 <= width <= 2 ^ 50)%Z -> (1 <= n < 2 ^ 53)%Z ->
  (n * width <= 2 ^ 51)%Z -> (0 <= i <= n)%Z ->
  x_at width (n + 1) i = Ok x ->
  x = (i * width / n)%Z
  \/ (((i * width) mod n = 0)%Z /\ x = (i * width / n - 1)%Z).
Proof.
  intros Hw Hn Hnw Hi. unfold x_at, int, mul, to_float.
  replace (n + 1 - 1)%Z with n by lia.
  destruct (product_value width n i Hw Hn Hi) as (F & P & _).
  cbv zeta in F, P.
  pose proof (abscissa_error width n i Hw Hn Hi) as E.
  destruct (int_of_float_floor _ F P) as (z & Ez & _ & L & U).
  rewrite Ez. intros [= <-].
  set (rv := F2R (float_of_Z i * truediv width n)) in *.
  assert (N1 : 1 <= IZR n) by (apply (IZR_le 1); lia).
  assert (D : 3 * IZR n * IZR width * bpow (-53) <= 3 / 4).
  { assert (U1 : bpow (-53) * IZR (2 ^ 53) = 1).
    { rewrite <- bpow_IZR, <- bpow_add by lia. apply bpow_0. }
    change (2 ^ 53)%Z with (4 * 2 ^ 51)%Z in U1. rewrite mult_IZR in U1.
    assert (IZR (n * width) <= IZR (2 ^ 51)) by (apply IZR_le; exact Hnw).
    rewrite mult_IZR in H.
    pose proof (bpow_pos (-53)).
    assert (0 <= IZR n * IZR width).
    { apply Rmult_le_pos; [lra|apply IZR_le; lia]. }
    assert (IZR n * IZR width * bpow (-53) <= IZR (2 ^ 51) * bpow (-53)).
    { apply Rmult_le_compat_r; lra. }
    lra. }
  apply Rabs_le_between in E.
  assert (A1 : (4 * (z * n) <= 4 * (i * width) + 3)%Z).
  { apply le_IZR. rewrite plus_IZR, !mult_IZR.
    assert (IZR z * IZR n <= rv * IZR n) by (apply Rmult_le_compat_r; lra).
    rewrite mult_IZR in E. lra. }
  assert (A2 : (4 * (i * width) - 3 < 4 * ((z + 1) * n))%Z).
  { apply lt_IZR. rewrite minus_IZR, !mult_IZR, plus_IZR.
    assert (rv * IZR n < (IZR z + 1) * IZR n)
      by (apply Rmult_lt_compat_r; lra).
    rewrite mult_IZR in E. lra. }
  assert (B1 : (z * n <= i * width)%Z) by lia.
  assert (B2 : (i * width <= (z + 1) * n)%Z) by lia.
  destruct (Z.eq_dec (i * width) ((z + 1) * n)) as [Eq|Ne].
  - right. rewrite Eq, Z.mod_mul, Z.div_mul by lia. split; lia.
  - left. apply Z.div_unique with (r := (i * width - z * n)%Z); lia.
Qed.

Local Close Scope R_scope.

(** X15. From left to right.  The abscissas of the points the projector
    returns never go back: a point later in the sequence is at the same
    abscissa or further right, on every chunk of at most [2^52] samples
    (the rounding of the products cannot reverse two of them). *)
Theorem abscissas_never_go_back
    (data_chunk : list float) (width height : Z) (pts : list point)
    (i j : nat) (pi pj : point) :
  (Z.of_nat (List.length data_chunk) <= 2 ^ 52)%Z ->
  (0 <= width <= 2 ^ 50)%Z ->
  (0 <= height < 2 ^ 53)%Z ->
  generate_waveform_points data_chunk width height = Ok pts ->
  (i <= j)%nat ->
  nth_error pts i = Some pi -> nth_error pts j = Some pj ->
  (fst pi <= fst pj)%Z.
Proof.
  intros HN Hw Hh G Hij Hi Hj.
  destruct data_chunk as [|a [|b rest]].
  - injection G as <-. destruct i; discriminate.
  - destruct (ProjectorEdges.projector_ordinates [a] width height)
      as (pts' & G' & L & _ & Hy & _); try assumption; try discriminate.
    { simpl. lia. }
    assert (pts' = pts) by congruence. subst pts'.
    unfold generate_waveform_points in G. cbn [List.length Z.of_nat] in G.
    change (Z.pos (Pos.of_succ_nat 0) =? 0)%Z with false in G.
    change (1 <? Z.pos (Pos.of_succ_nat 0))%Z with false in G.
    cbv iota in G. cbn [points_loop mul int bind Z.mul] in G.
    destruct (int_of_float _) as [y|e] in G; [|discriminate].
    cbn [bind points_loop app] in G. injection G as <-.
    apply nth_error_In in Hi, Hj. simpl in Hi, Hj.
    destruct Hi as [<-|[<-|[]]], Hj as [<-|[<-|[]]]; simpl; lia.
  - destruct (ProjectorTheory.projector_runs (a :: b :: rest) width height)
      as (pts' & G' & L & Hp); try assumption.
    { simpl List.length in *. lia. }
    assert (pts' = pts) by congruence. subst pts'.
    set (chunk := a :: b :: rest) in *.
    assert (Lj : (j < List.length chunk)%nat).
    { rewrite <- L. apply nth_error_Some. rewrite Hj. discriminate. }
    assert (Li : (i < List.length chunk)%nat) by lia.
    destruct (nth_error chunk i) as [si|] eqn:Si.
    2:{ apply nth_error_None in Si. lia. }
    destruct (nth_error chunk j) as [sj|] eqn:Sj.
    2:{ apply nth_error_None in Sj. lia. }
    destruct (Hp i si Si) as (xi & yi & Ni & Xi & _).
    destruct (Hp j sj Sj) as (xj & yj & Nj & Xj & _).
    pose proof (eq_trans (eq_sym Ni) Hi) as Qi. injection Qi as <-.
    pose proof (eq_trans (eq_sym Nj) Hj) as Qj. injection Qj as <-.
    cbn [fst].
    set (N := Z.of_nat (List.length chunk)) in *.
    assert (HN2 : (2 <= N)%Z) by (unfold N, chunk; simpl List.length; lia).
    replace N with (N - 1 + 1)%Z in Xi, Xj by lia.
    apply (x_at_monotone width (N - 1) (Z.of_nat i) (Z.of_nat j) xi xj);
      try assumption; lia.
Qed.

Lemma abscissas_never_go_back_witness :
  (fst (500, 500) <= fst (1000, 125))%Z.
Proof.
  apply (abscissas_never_go_back [nan; neg_infinity; 0.5]%float 1000 500
           [(0, 0); (500, 500); (1000, 125)]%Z 1 2 (500, 500)%Z (1000, 125)%Z).
  - simpl. lia.
  - lia.
  - lia.
  - vm_compute. reflexivity.
  - lia.
  - reflexivity.
  - reflexivity.
Defined.

(** X16. Where the columns are.  On every chunk of [N > 1] samples with
    [N - 1 <= 2^51] and [(N - 1) * width <= 2^51] (the default 1024
    samples on 1000 pixels is one), the abscissa of the point at index [i] is the integer part of
    the ideal position [i * width / (N - 1)]; only where that position is
    an integer can the rounding of the scale put the point one pixel to
    its left. *)
Theorem abscissas_are_the_floors_of_the_ideal_positions
    (data_chunk : list float) (width height : Z) (pts : list point)
    (i : nat) (p : point) :
  let steps := (Z.of_nat (List.length data_chunk) - 1)%Z in
  (1 <= steps <= 2 ^ 51)%Z ->
  (steps * width <= 2 ^ 51)%Z ->
  (0 <= width <= 2 ^ 50)%Z ->
  (0 <= height < 2 ^ 53)%Z ->
  generate_waveform_points data_chunk width height = Ok pts ->
  nth_error pts i = Some p ->
  fst p = (Z.of_nat i * width / steps)%Z
  \/ (((Z.of_nat i * width) mod steps = 0)%Z
      /\ fst p = (Z.of_nat i * width / steps - 1)%Z).
Proof.
  intros steps Hs Hsw Hw Hh G Hi.
  destruct (ProjectorTheory.projector_runs data_chunk width height)
    as (pts' & G' & L & Hp); try assumption.
  { unfold steps in *. lia. }
  assert (pts' = pts) by congruence. subst pts'.
  assert (Li : (i < List.length data_chunk)%nat).
  { rewrite <- L. apply nth_error_Some. rewrite Hi. discriminate. }
  destruct (nth_error data_chunk i) as [a|] eqn:Ea.
  2:{ apply nth_error_None in Ea. lia. }
  destruct (Hp i a Ea) as (x & y & Ni & Ex & _).
  pose proof (eq_trans (eq_sym Ni) Hi) as Q. injection Q as <-.
  cbn [fst].
  replace (Z.of_nat (List.length data_chunk)) with (steps + 1)%Z in Ex
    by (unfold steps; lia).
  apply (x_at_floor width steps (Z.of_nat i) x); try assumption;
    unfold steps in *; lia.
Qed.

Lemma abscissas_are_the_floors_of_the_ideal_positions_witness :
  fst (500, 500)%Z = (Z.of_nat 1 * 1000 / 2)%Z
  \/ (((Z.of_nat 1 * 1000) mod 2 = 0)%Z
      /\ fst (500, 500)%Z = (Z.of_nat 1 * 1000 / 2 - 1)%Z).
Proof.
  apply (abscissas_are_the_floors_of_the_ideal_positions
           [nan; neg_infinity; 0.5]%float 1000 500
           [(0, 0); (500, 500); (1000, 125)]%Z 1 (500, 500)%Z).
  - simpl. lia.
  - simpl. lia.
  - lia.
  - lia.
  - vm_compute. reflexivity.
  - reflexivity.
Defined.

End ProjectorOrder.

(** ** The projector when the width is a multiple of the steps *)
Module ProjectorGrid.
Import Py Projector Values Rounding Binary64.
Local Open Scope R_scope.

(** A quotient that is an integer is computed exactly. *)
Lemma quotient_exact (width n : Z) :
  (0 <= width < 2 ^ 53)%Z -> (1 <= n < 2 ^ 53)%Z -> (n | width)%Z ->
  nonneg_value (truediv width n) (IZR (width / n)).
Proof.
  intros Hw Hn (k & Ek). unfold truediv.
  assert (Hk : (width / n = k)%Z) by (subst width; apply Z.div_mul; lia).
  rewrite Hk.
  assert (K0 : (0 <= k)%Z) by nia.
  assert (K53 : (k < 2 ^ 53)%Z) by nia.
  assert (N1 : 1 <= IZR n) by (apply (IZR_le 1); lia).
  destruct (nonneg_value_cases _ _ (float_of_Z_exact n ltac:(lia)))
    as [[_ Z0]|(mn & en & En & Vn & Pn)]; [lra|].
  destruct (nonneg_value_cases _ _ (float_of_Z_exact width Hw))
    as [[Ew Z0]|(mw & ew & Ew & Vw & Pw)].
  - assert (K : (k = 0)%Z).
    { apply eq_IZR in Z0. nia. }
    rewrite K. apply nonneg_value_zero. rewrite div_spec, Ew, En. reflexivity.
  - destruct (SFdiv_rounds false false mw mn ew en) as (rv & RT).
    rewrite <- Vw, <- Vn in RT.
    pose proof (float_of_Z_exact k ltac:(lia)) as (Fk & Sk & Mk).
    destruct (ProjectorEdges.rounds_to_exact _ _ _ _ (Prim2SF (float_of_Z k))
                RT (Prim2SF_valid _))
      as (F & M & _ & S).
    { rewrite Mk, Ek, mult_IZR. field. lra. }
    unfold nonneg_value. rewrite div_spec, Ew, En.
    split; [exact F|]. split; [exact S|]. rewrite M. exact Mk.
Qed.

(** The abscissa at index [i], when the width is a multiple of the number
    of steps: no rounding at all. *)
Lemma x_at_exact (width n i : Z) :
  (0 <= width < 2 ^ 53)%Z -> (1 <= n < 2 ^ 53)%Z -> (0 <= i <= n)%Z ->
  (n | width)%Z ->
  x_at width (n + 1) i = Ok (i * (width / n))%Z.
Proof.
  intros Hw Hn Hi Hd. unfold x_at, int, mul, to_float.
  replace (n + 1 - 1)%Z with n by lia.
  pose proof (quotient_exact width n Hw Hn Hd) as (Fq & Sq & Mq).
  set (q := truediv width n) in *.
  set (k := (width / n)%Z) in *.
  assert (Ek : (width = n * k)%Z).
  { destruct Hd as (c & Ec). unfold k. subst width.
    rewrite Z.div_mul by lia. ring. }
  assert (K0 : (0 <= k)%Z) by nia.
  assert (P : (0 <= i * k < 2 ^ 53)%Z) by nia.
  pose proof (float_of_Z_exact i ltac:(lia)) as (Fi & Si & Mi).
  pose proof (float_of_Z_exact (i * k) P) as (Fp & Sp & Mp).
  destruct (ProjectorEdges.SFmul_exact (Prim2SF (float_of_Z i)) (Prim2SF q)
              (Prim2SF (float_of_Z (i * k))))
    as (F & M & S); try apply Prim2SF_valid; try assumption.
  { rewrite Mi, Mq, Mp, mult_IZR. reflexivity. }
  rewrite <- mul_spec in F, M, S. rewrite Si, Sq in S.
  apply ProjectorEdges.int_of_float_exact; [exact F|lia|].
  unfold F2R, B2R. rewrite S. cbn [xorb]. rewrite M. exact Mp.
Qed.

Local Close Scope R_scope.

(** X17. Evenly spaced columns.  When the width is a multiple of
    [N - 1], the number of steps between the [N > 1] samples of the chunk,
    no abscissa is rounded: the point at index [i] is at
    [x = i * (width // (N - 1))] exactly, and the last point is at
    [x = width]. *)
Theorem abscissas_are_exact_when_the_steps_divide_the_width
    (data_chunk : list float) (width height : Z) (pts : list point) :
  let steps := (Z.of_nat (List.length data_chunk) - 1)%Z in
  (1 <= steps < 2 ^ 53 - 1)%Z ->
  (0 <= width <= 2 ^ 50)%Z ->
  (0 <= height < 2 ^ 53)%Z ->
  (steps | width)%Z ->
  generate_waveform_points data_chunk width height = Ok pts ->
  (forall (i : nat) (p : point),
     nth_error pts i = Some p -> fst p = (Z.of_nat i * (width / steps))%Z)
  /\ (exists y : Z,
        nth_error pts (List.length data_chunk - 1) = Some (width, y)).
Proof.
  intros steps Hs Hw Hh Hd G.
  destruct (ProjectorTheory.projector_runs data_chunk width height)
    as (pts' & G' & L & Hp); try assumption.
  { unfold steps in Hs. lia. }
  assert (pts' = pts) by congruence. subst pts'.
  assert (Each : forall (i : nat) (p : point),
            nth_error pts i = Some p ->
            fst p = (Z.of_nat i * (width / steps))%Z).
  { intros i p Hi.
    assert (Li : (i < List.length data_chunk)%nat).
    { rewrite <- L. apply nth_error_Some. rewrite Hi. discriminate. }
    destruct (nth_error data_chunk i) as [a|] eqn:Ea.
    2:{ apply nth_error_None in Ea. lia. }
    destruct (Hp i a Ea) as (x & y & Ni & Ex & _).
    pose proof (eq_trans (eq_sym Ni) Hi) as Q. injection Q as <-.
    cbn [fst].
    replace (Z.of_nat (List.length data_chunk)) with (steps + 1)%Z in Ex
      by (unfold steps; lia).
    rewrite (x_at_exact width steps (Z.of_nat i)) in Ex;
      try assumption; try (unfold steps in *; lia).
    injection Ex as <-. reflexivity. }
  split; [exact Each|].
  destruct (nth_error pts (List.length data_chunk - 1)) as [[x y]|] eqn:E.
  - exists y. pose proof (Each _ _ E) as Hx. cbn [fst] in Hx.
    destruct Hd as (c & Ec).
    replace (Z.of_nat (List.length data_chunk - 1)) with steps in Hx
      by (unfold steps in *; lia).
    rewrite Ec, Z.div_mul in Hx by lia.
    assert (Hw' : x = width) by (rewrite Hx, Ec; ring).
    rewrite Hw'. reflexivity.
  - apply nth_error_None in E. unfold steps in Hs. lia.
Qed.

Lemma abscissas_are_exact_when_the_steps_divide_the_width_witness :
  (forall (i : nat) (p : point),
     nth_error [(0, 0); (500, 500); (1000, 125)]%Z i = Some p ->
     fst p = (Z.of_nat i * (1000 / 2))%Z)
  /\ (exists y : Z,
        nth_error [(0, 0); (500, 500); (1000, 125)]%Z
          (List.length [nan; neg_infinity; 0.5]%float - 1)
        = Some (1000%Z, y)).
Proof.
  apply (abscissas_are_exact_when_the_steps_divide_the_width
           [nan; neg_infinity; 0.5]%float 1000 500
           [(0, 0); (500, 500); (1000, 125)]%Z).
  - simpl. lia.
  - lia.
  - lia.
  - exists 500%Z. reflexivity.
  - vm_compute. reflexivity.
Defined.

End ProjectorGrid.

(** ** The projector against the ideal ordinate *)
Module ProjectorAccuracy.
Import Py Projector Values Rounding Binary64.
Local Open Scope R_scope.

(** The smallest normal number. *)
Lemma smallest_normal :
  valid_binary (S754_finite false 4503599627370496 (-1074)) = true
  /\ mag (S754_finite false 4503599627370496 (-1074)) = bpow (-1022).
Proof.
  split; [reflexivity|]. cbn [mag].
  change 4503599627370496%Z with (2 ^ 52)%Z.
  rewrite <- bpow_IZR, <- bpow_add by lia. reflexivity.
Qed.

(** The error of one rounding: relative in the normal range, below the
    smallest normal number under it. *)
Lemma rounds_to_error (r : spec_float) (s : bool) (v rv : R) :
  rounds_to r s v rv -> 0 <= v ->
  Rabs (rv - v) <= v * bpow (-53) + bpow (-1022).
Proof.
  intros (R0 & _ & RU & _ & RE) V0.
  pose proof (bpow_pos (-53)). pose proof (bpow_pos (-1022)).
  destruct (Rle_lt_dec (bpow (-1022)) v) as [N|S].
  - specialize (RE N). lra.
  - destruct smallest_normal as [Vb Mb].
    specialize (RU _ Vb). rewrite Mb in RU. specialize (RU ltac:(lra)).
    apply Rabs_le. nra.
Qed.

Lemma SFmul_error (x y b : spec_float) :
  valid_binary x = true -> valid_binary y = true ->
  finite_SF x = true -> finite_SF y = true ->
  valid_binary b = true -> mag x * mag y <= mag b ->
  finite_SF (SF64mul x y) = true
  /\ sign_of (SF64mul x y) = xorb (sign_of x) (sign_of y)
  /\ mag (SF64mul x y) <= mag b
  /\ Rabs (mag (SF64mul x y) - mag x * mag y)
     <= mag x * mag y * bpow (-53) + bpow (-1022).
Proof.
  intros Vx Vy Fx Fy Vb Hb. pose proof (mag_nonneg b) as Pb.
  pose proof (bpow_pos (-53)). pose proof (bpow_pos (-1022)).
  assert (Z : forall m : R, m = 0 ->
              0 <= mag b
              /\ Rabs (0 - m) <= m * bpow (-53) + bpow (-1022)).
  { intros m ->. rewrite Rminus_diag, Rabs_R0. lra. }
  destruct x as [sx|sx| |sx mx ex]; try discriminate;
    destruct y as [sy|sy| |sy my ey]; try discriminate;
    try (split; [reflexivity|]; split; [reflexivity|];
         cbn [SF64mul SFmul mag]; apply Z; ring).
  destruct (SFmul_rounds sx sy mx my ex ey Vx Vy) as (rv & RT).
  destruct (rounds_to_bounded _ _ _ _ b RT Vb Hb) as (F & M & U & _ & S).
  split; [exact F|]. split; [exact S|].
  rewrite M. split; [exact U|]. apply (rounds_to_error _ _ _ _ RT).
  pose proof (mag_nonneg (S754_finite sx mx ex)).
  pose proof (mag_nonneg (S754_finite sy my ey)).
  cbn [mag] in *. nra.
Qed.

Lemma SFsub_error (x y b : spec_float) :
  finite_SF x = true -> finite_SF y = true ->
  valid_binary b = true ->
  0 <= B2R x - B2R y <= mag b ->
  finite_SF (SF64sub x y) = true
  /\ 0 <= B2R (SF64sub x y)
  /\ Rabs (B2R (SF64sub x y) - (B2R x - B2R y))
     <= (B2R x - B2R y) * bpow (-53) + bpow (-1022).
Proof.
  intros Fx Fy Vb Hb.
  pose proof (bpow_pos (-53)) as U0. pose proof (bpow_pos (-1022)) as T0.
  assert (Exact : forall r v : R, r = v -> 0 <= v ->
                    0 <= r /\ Rabs (r - v) <= v * bpow (-53) + bpow (-1022)).
  { intros r v -> V. rewrite Rminus_diag, Rabs_R0. split; [exact V|nra]. }
  destruct x as [sx|sx| |sx mx ex]; try discriminate;
    destruct y as [sy|sy| |sy my ey]; try discriminate.
  - split; [destruct sx, sy; reflexivity|]. apply Exact; [|lra].
    destruct sx, sy; unfold B2R; simpl; lra.
  - split; [reflexivity|]. apply Exact; [|lra].
    unfold B2R. destruct sx, sy; simpl; lra.
  - split; [reflexivity|]. apply Exact; [|lra].
    unfold B2R. destruct sx, sy; simpl; lra.
  - unfold SF64sub, SFsub.
    set (ez := Z.min ex ey).
    destruct (shl_align_spec mx ex ez) as (mx' & ex' & Ex & Eex & Emx & _).
    destruct (shl_align_spec my ey ez) as (my' & ey' & Ey & Eey & Emy & _).
    rewrite Ex, Ey. cbn [fst].
    assert (Hx : ex' = ez) by (unfold ez in *; lia).
    assert (Hy : ey' = ez) by (unfold ez in *; lia).
    rewrite Hx in Emx. rewrite Hy in Emy. clear Eex Eey Hx Hy Ex Ey.
    set (z := (cond_Zopp sx (Zpos mx') - cond_Zopp sy (Zpos my'))%Z).
    assert (V : IZR z * bpow ez
                = B2R (S754_finite sx mx ex) - B2R (S754_finite sy my ey)).
    { unfold z. rewrite minus_IZR, !B2R_finite.
      rewrite (bpow_sub_IZR ex ez), (bpow_sub_IZR ey ez) by (unfold ez; lia).
      assert (IZR (cond_Zopp sx (Zpos mx'))
              = (if sx then - 1 else 1) * IZR (Zpos mx) * IZR (2 ^ (ex - ez))).
      { destruct sx; cbn [cond_Zopp]; cbv iota;
          rewrite ?opp_IZR, Emx, mult_IZR; ring. }
      assert (IZR (cond_Zopp sy (Zpos my'))
              = (if sy then - 1 else 1) * IZR (Zpos my) * IZR (2 ^ (ey - ez))).
      { destruct sy; cbn [cond_Zopp]; cbv iota;
          rewrite ?opp_IZR, Emy, mult_IZR; ring. }
      rewrite H, H0. destruct sx, sy; ring. }
    rewrite <- V in *. pose proof (bpow_pos ez) as Pz.
    unfold binary_normalize. destruct z as [|p|p].
    + split; [reflexivity|]. apply Exact; [|lra].
      unfold B2R. simpl. lra.
    + destruct (binary_round_value false p ez) as (rv & RT & _).
      destruct (rounds_to_bounded _ _ _ _ b RT Vb ltac:(lra))
        as (F & M & _ & B & _).
      split; [exact F|]. rewrite B.
      split; [destruct RT as (R0 & _); exact R0|].
      apply (rounds_to_error _ _ _ _ RT). lra.
    + assert (0 < IZR (Zpos p)) by (apply IZR_lt; lia).
      assert (N : IZR (Zneg p) = - IZR (Zpos p)).
      { rewrite <- Pos2Z.opp_pos, opp_IZR. reflexivity. }
      rewrite N in Hb. nra.
Qed.

(** The ordinate of a sample inside the range, against the ideal
    [height / 2 * (1 - amplitude)]. *)
Lemma y_at_accuracy (height : Z) (amplitude : float) (y : Z) :
  (0 <= height <= 2 ^ 50)%Z ->
  (-1 <? amplitude)%float = true -> (amplitude <? 1)%float = true ->
  y_at height amplitude = Ok y ->
  IZR height / 2 * (1 - F2R amplitude) - 5 / 4 < IZR y
  /\ IZR y <= IZR height / 2 * (1 - F2R amplitude) + 1 / 4.
Proof.
  intros Hh L2 L1. unfold y_at, int.
  destruct (clamp_range amplitude) as (Fc & Mc). revert Fc Mc.
  unfold min, max. rewrite L1, L2. intros Fc Mc.
  pose proof (half_exact height ltac:(lia)) as (Fh & Sh & Mh).
  set (h2 := truediv height 2) in *.
  set (a := F2R amplitude).
  assert (H0 : 0 <= IZR height) by (apply IZR_le; lia).
  assert (H50 : IZR height <= IZR (2 ^ 50)) by (apply IZR_le; lia).
  set (u := bpow (-53)) in *. set (tiny := bpow (-1022)) in *.
  assert (U0 : 0 < u) by apply bpow_pos.
  assert (T0 : 0 < tiny) by apply bpow_pos.
  assert (HU : IZR height * u <= / 8).
  { assert (U1 : u * IZR (2 ^ 53) = 1).
    { unfold u. rewrite <- bpow_IZR, <- bpow_add by lia. apply bpow_0. }
    change (2 ^ 53)%Z with (2 ^ 50 * 8)%Z in U1. rewrite mult_IZR in U1.
    assert (0 < IZR (2 ^ 50)) by (apply IZR_lt; lia).
    assert (IZR (2 ^ 50) * u = / 8).
    { apply (Rmult_eq_reg_r 8); [|lra]. rewrite Rinv_l by lra. lra. }
    nra. }
  assert (TT : tiny <= / 64).
  { unfold tiny. apply Rle_trans with (bpow (-6)); [apply bpow_le; lia|].
    replace (-6)%Z with (- (6))%Z by lia. rewrite bpow_opp.
    rewrite (bpow_IZR 6) by lia. simpl. lra. }
  (* the product *)
  destruct (SFmul_error (Prim2SF amplitude) (Prim2SF h2) (Prim2SF h2))
    as (Fp & Sp & Up & Ep); try apply Prim2SF_valid; try assumption.
  { pose proof (mag_nonneg (Prim2SF h2)). nra. }
  rewrite <- mul_spec in Fp, Sp, Up, Ep. fold u tiny in Ep.
  set (p := (amplitude * h2)%float) in *.
  rewrite Sh, xorb_false_r in Sp. rewrite Mh in Ep, Up.
  assert (Bh : B2R (Prim2SF h2) = IZR height / 2).
  { unfold B2R. rewrite Sh. exact Mh. }
  set (ma := mag (Prim2SF amplitude)) in *.
  assert (Ma0 : 0 <= ma) by apply mag_nonneg.
  assert (Va : a = if sign_of (Prim2SF amplitude) then - ma else ma)
    by reflexivity.
  assert (Vp : B2R (Prim2SF p)
               = if sign_of (Prim2SF amplitude) then - mag (Prim2SF p)
                 else mag (Prim2SF p)).
  { unfold B2R. rewrite Sp. reflexivity. }
  apply Rabs_le_between in Ep.
  assert (Eu : ma * (IZR height / 2) * u <= IZR height / 2 * u).
  { assert (0 <= IZR height / 2 * u) by nra. nra. }
  assert (Bp : - (IZR height / 2 * u + tiny)
               <= B2R (Prim2SF p) - a * (IZR height / 2)
               <= IZR height / 2 * u + tiny).
  { rewrite Vp, Va. destruct (sign_of (Prim2SF amplitude)); lra. }
  assert (Ma : -1 <= a <= 1).
  { rewrite Va. destruct (sign_of (Prim2SF amplitude)); lra. }
  (* the difference *)
  assert (Rp : - (IZR height / 2) <= B2R (Prim2SF p) <= IZR height / 2).
  { rewrite Vp. pose proof (mag_nonneg (Prim2SF p)).
    destruct (sign_of (Prim2SF amplitude)); lra. }
  pose proof (float_of_Z_exact height ltac:(lia)) as (_ & _ & MH).
  destruct (SFsub_error (Prim2SF h2) (Prim2SF p)
              (Prim2SF (float_of_Z height)))
    as (Fd & Pd & Ed); try apply Prim2SF_valid; try assumption.
  { rewrite MH, Bh. lra. }
  rewrite <- sub_spec in Fd, Pd, Ed. fold u tiny in Ed.
  set (d := (h2 - p)%float) in *. rewrite Bh in Ed.
  apply Rabs_le_between in Ed.
  destruct (int_of_float_floor d Fd Pd) as (z & Ez & _ & Lz & Uz).
  rewrite Ez. intros [= <-]. unfold F2R in Lz, Uz.
  set (dv := B2R (Prim2SF d)) in *. set (pv := B2R (Prim2SF p)) in *.
  set (h := IZR height / 2) in *.
  assert (Hu : h * u <= / 16) by (unfold h; lra).
  assert (Du : (h - pv) * u <= 2 * (h * u)).
  { replace (2 * (h * u)) with ((2 * h) * u) by ring.
    apply Rmult_le_compat_r; lra. }
  replace (h * (1 - a)) with (h - a * h) by ring.
  split; lra.
Qed.

Local Close Scope R_scope.



End ProjectorAccuracy.

(** ** Leaving the program *)
Module ShutdownTheory.
Import Shutdown.

(** X19. Every way out cleans up.  However the body of the [try] ends
    (the loop ends, a KeyboardInterrupt, a PortAudioError or any other
    exception, raised while the stream is being created, being started,
    or running), [pygame.quit()] is called exactly once and "Exiting." is
    the last line printed.  The stream is stopped and then closed, once,
    exactly when it had been started; a stream whose [start()] failed is
    not closed.  And the exit status is 1 exactly when an exception other
    than KeyboardInterrupt left the body, 0 otherwise. *)
Theorem every_way_out_cleans_up (e : body_end) :
  let effects := fst (shutdown e) in
  let status := snd (shutdown e) in
  occurrences is_quit effects = 1%nat
  /\ last effects pygame_quit = print "Exiting."
  /\ (match e with
      | loop_ended | left_by _ started =>
          occurrences is_stop effects = 1%nat
          /\ occurrences is_close effects = 1%nat
          /\ exists before between after : list effect,
               effects = before ++ stream_stop :: between
                         ++ stream_close :: after
      | left_by _ creating | left_by _ starting =>
          occurrences is_stop effects = 0%nat
          /\ occurrences is_close effects = 0%nat
      end)
  /\ status = match e with
              | loop_ended | left_by KeyboardInterrupt _ => 0%Z
              | left_by _ _ => 1%Z
              end.
Proof.
  destruct e as [|[|message|message] []]; cbv zeta;
    (split; [reflexivity|]); (split; [reflexivity|]);
    (split; [|reflexivity]);
    try (split; reflexivity);
    (split; [reflexivity|]); (split; [reflexivity|]).
  - exists [], [], [print "Audio stream stopped."; pygame_quit; print "Exiting."].
    reflexivity.
  - exists [print "Stopping..."], [],
      [print "Audio stream stopped."; pygame_quit; print "Exiting."].
    reflexivity.
  - eexists (_ :: _ :: _ :: _ :: _ :: _ :: [pygame_quit]), [],
      [print "Audio stream stopped."; print "Exiting."].
    reflexivity.
  - eexists [_; pygame_quit], [],
      [print "Audio stream stopped."; print "Exiting."].
    reflexivity.
Qed.

End ShutdownTheory.
